(** * Project Meridian: the signal / position / backtest pipeline

    A shallow embedding of [src/signals.py] and [src/data_ingest.py].

    The Python code is a composition of pandas table primitives.  Each
    primitive used by the source ([ffill], [dropna(how="all")], [mean],
    [std], [shift], [pct_change], [diff], [cumprod], label alignment of
    binary operators, ...) is embedded as a list function below, and the
    source functions are written on top of them line by line.

    Numbers.  A pandas cell is a float64.  The embedding keeps the special
    values of the format apart ([NaN], which pandas reads as "missing", and
    the two infinities, which it does not) and takes the finite values to be
    exact real numbers: rounding and overflow are not modelled, except in
    the row statistics of the section on rounded row statistics, which
    round every operation. *)

From Stdlib Require Import Reals Lra Lia List ZArith Bool String Sorted.
Import ListNotations.
Open Scope R_scope.

(* ------------------------------------------------------------------ *)
(** ** Cells *)

Inductive fl : Type :=
| NaN
| PInf
| NInf
| Fin (r : R).

Definition is_nan (x : fl) : bool :=
  match x with NaN => true | _ => false end.

Definition notna (x : fl) : bool := negb (is_nan x).

Definition fadd (x y : fl) : fl :=
  match x, y with
  | NaN, _ | _, NaN => NaN
  | PInf, NInf | NInf, PInf => NaN
  | PInf, _ | _, PInf => PInf
  | NInf, _ | _, NInf => NInf
  | Fin a, Fin b => Fin (a + b)
  end.

Definition fsub (x y : fl) : fl :=
  match x, y with
  | NaN, _ | _, NaN => NaN
  | PInf, PInf | NInf, NInf => NaN
  | PInf, _ | _, NInf => PInf
  | NInf, _ | _, PInf => NInf
  | Fin a, Fin b => Fin (a - b)
  end.

(** Sign of an infinity multiplied by the finite value [b]. *)
Definition inf_times (pos : bool) (b : R) : fl :=
  if Req_dec_T b 0 then NaN
  else if Rlt_dec 0 b then (if pos then PInf else NInf)
       else (if pos then NInf else PInf).

Definition fmul (x y : fl) : fl :=
  match x, y with
  | NaN, _ | _, NaN => NaN
  | Fin a, Fin b => Fin (a * b)
  | PInf, Fin b | Fin b, PInf => inf_times true b
  | NInf, Fin b | Fin b, NInf => inf_times false b
  | PInf, PInf | NInf, NInf => PInf
  | PInf, NInf | NInf, PInf => NInf
  end.

Definition fdiv (x y : fl) : fl :=
  match x, y with
  | NaN, _ | _, NaN => NaN
  | Fin a, Fin b =>
      if Req_dec_T b 0 then
        (if Req_dec_T a 0 then NaN else if Rlt_dec 0 a then PInf else NInf)
      else Fin (a / b)
  | Fin _, PInf | Fin _, NInf => Fin 0
  | PInf, Fin b => if Rlt_dec b 0 then NInf else PInf
  | NInf, Fin b => if Rlt_dec b 0 then PInf else NInf
  | _, _ => NaN
  end.

Definition fsqrt (x : fl) : fl :=
  match x with
  | NaN | NInf => NaN
  | PInf => PInf
  | Fin r => if Rlt_dec r 0 then NaN else Fin (sqrt r)
  end.

Definition fabs (x : fl) : fl :=
  match x with
  | NaN => NaN
  | PInf | NInf => PInf
  | Fin r => Fin (Rabs r)
  end.

(** [x < t] and [x > t] against a finite threshold; false on [NaN]. *)
Definition flt (x : fl) (t : R) : bool :=
  match x with
  | NaN | PInf => false
  | NInf => true
  | Fin r => if Rlt_dec r t then true else false
  end.

Definition fgt (x : fl) (t : R) : bool :=
  match x with
  | NaN | NInf => false
  | PInf => true
  | Fin r => if Rlt_dec t r then true else false
  end.

Definition is_zero (x : fl) : bool :=
  match x with
  | Fin r => if Req_dec_T r 0 then true else false
  | _ => false
  end.

(* ------------------------------------------------------------------ *)
(** ** Tables

    A table is the list of its rows in index order; a row carries its date
    label and one cell per instrument, the instruments being the same and
    in the same order in every table of a run.  A series is a table with
    one cell per date. *)

Abbreviation date := Z (only parsing).
Abbreviation Row := (list fl) (only parsing).
Abbreviation Frame := (list (Z * list fl)) (only parsing).
Abbreviation Series := (list (Z * fl)) (only parsing).
Abbreviation IntFrame := (list (Z * list Z)) (only parsing).

Definition index {A} (t : list (date * A)) : list date := map fst t.

Fixpoint lookup {A} (d : date) (t : list (date * A)) : option A :=
  match t with
  | [] => None
  | (d', a) :: t' => if Z.eqb d d' then Some a else lookup d t'
  end.

(** The cell of a series at a label; a label outside the index reads as
    missing, which is what reindexing puts there. *)
Definition get (s : Series) (d : date) : fl :=
  match lookup d s with Some x => x | None => NaN end.

Definition map_rows {A B} (f : A -> B) (t : list (date * A)) : list (date * B) :=
  map (fun dr => (fst dr, f (snd dr))) t.

Definition map_cells {A B} (f : A -> B) (t : list (date * list A))
  : list (date * list B) :=
  map_rows (map f) t.

Fixpoint zip_with {A B C} (f : A -> B -> C) (l : list A) (m : list B) : list C :=
  match l, m with
  | a :: l', b :: m' => f a b :: zip_with f l' m'
  | _, _ => []
  end.

(** Outer join of two ascending indexes (what pandas aligns binary
    operators on). *)
Fixpoint index_union (a : list date) : list date -> list date :=
  fix merge_into (b : list date) : list date :=
    match a, b with
    | [], _ => b
    | _, [] => a
    | x :: a', y :: b' =>
        if Z.ltb x y then x :: index_union a' b
        else if Z.ltb y x then y :: merge_into b'
        else x :: index_union a' b'
    end.

(* ------------------------------------------------------------------ *)
(** ** pandas primitives *)

(** [fillna(0)] *)
Definition fillna0 (x : fl) : fl := if is_nan x then Fin 0 else x.

(** Sum of a row, [sum(axis=1)]: missing cells are skipped, and the sum of
    no cell is 0. *)
Definition fsum (l : list fl) : fl := fold_left fadd l (Fin 0).

Definition row_sum (r : Row) : fl := fsum (filter notna r).

(** [mean(axis=1)]: the sum of the present cells over their number;
    missing when no cell is present. *)
Definition row_mean (r : Row) : fl :=
  let xs := filter notna r in
  match xs with
  | [] => NaN
  | _ => fdiv (fsum xs) (Fin (INR (List.length xs)))
  end.

(** [std(axis=1)], with pandas' default [ddof=1]: missing when fewer than
    two cells are present. *)
Definition row_var (r : Row) : fl :=
  let xs := filter notna r in
  let n := List.length xs in
  if (n <=? 1)%nat then NaN
  else
    let avg := fdiv (fsum xs) (Fin (INR n)) in
    fdiv (fsum (map (fun x => let e := fsub avg x in fmul e e) xs))
         (Fin (INR n - 1)).

Definition row_std (r : Row) : fl := fsqrt (row_var r).

(** [ffill()] down the dates, column by column; generic in the cell type
    so that it serves float and nullable integer tables alike. *)
Section Ffill.
Context {A : Type} (isna : A -> bool) (na : A).

Fixpoint fill_row (prev r : list A) : list A :=
  match r with
  | [] => []
  | x :: r' =>
      (if isna x then hd na prev else x) :: fill_row (tl prev) r'
  end.

Fixpoint ffill_from (prev : list A) (t : list (date * list A))
  : list (date * list A) :=
  match t with
  | [] => []
  | (d, r) :: t' =>
      let r' := fill_row prev r in (d, r') :: ffill_from r' t'
  end.

Definition ffill_gen (t : list (date * list A)) : list (date * list A) :=
  ffill_from [] t.

End Ffill.

Definition ffill (t : Frame) : Frame := ffill_gen is_nan NaN t.

(** [dropna(how="all")] *)
Definition dropna_all (t : Frame) : Frame :=
  filter (fun dr => existsb notna (snd dr)) t.

(** [shift(1)] of a table: every row moves down one date, the first row
    becomes missing. *)
Fixpoint shift_from {A} (prev : A) (t : list (date * A)) : list (date * A) :=
  match t with
  | [] => []
  | (d, r) :: t' => (d, prev) :: shift_from r t'
  end.

Definition shift1 (t : Frame) : Frame :=
  match t with
  | [] => []
  | (d, r) :: t' => (d, map (fun _ => NaN) r) :: shift_from r t'
  end.

Definition shift1_series (s : Series) : Series := shift_from NaN s.

(** Cell-wise binary operator on two tables that carry the same index
    (both derived from one table), and of a table with a series along the
    dates ([axis=0]). *)
Definition frame_zip (f : fl -> fl -> fl) (a b : Frame) : Frame :=
  zip_with (fun ra rb => (fst ra, zip_with f (snd ra) (snd rb))) a b.

Definition frame_op_series (f : fl -> fl -> fl) (a : Frame) (s : Series) : Frame :=
  zip_with (fun ra x => (fst ra, map (fun c => f c (snd x)) (snd ra))) a s.

Definition series_zip (f : fl -> fl -> fl) (a b : Series) : Series :=
  zip_with (fun x y => (fst x, f (snd x) (snd y))) a b.

(** Binary operators on operands with indexes of their own: the result is
    indexed by the union, and a label missing on one side reads as missing
    cells there. *)
Definition frame_mul (a b : Frame) : Frame :=
  map (fun d =>
         (d, match lookup d a, lookup d b with
             | Some ra, Some rb => zip_with fmul ra rb
             | Some ra, None | None, Some ra => map (fun _ => NaN) ra
             | None, None => []
             end))
      (index_union (index a) (index b)).

Definition series_op (f : fl -> fl -> fl) (a b : Series) : Series :=
  map (fun d => (d, f (get a d) (get b d))) (index_union (index a) (index b)).

(** [pct_change()].  What pandas does with gaps depends on its version: up
    to 2.x the default [fill_method="pad"] forward-fills the table first,
    from 3.0 on nothing is filled.  The source passes no argument, so the
    default in force is a parameter of the embedding. *)
Inductive fill_method : Type := FillPad | FillNone.

Definition pct_cell (x prev : fl) : fl := fsub (fdiv x prev) (Fin 1).

Definition pct_change (fm : fill_method) (t : Frame) : Frame :=
  let data := match fm with FillPad => ffill t | FillNone => t end in
  frame_zip pct_cell data (shift1 data).

Fixpoint ffill_series_from (prev : fl) (s : Series) : Series :=
  match s with
  | [] => []
  | (d, x) :: s' =>
      let x' := if is_nan x then prev else x in
      (d, x') :: ffill_series_from x' s'
  end.

Definition pct_change_series (fm : fill_method) (s : Series) : Series :=
  let data := match fm with FillPad => ffill_series_from NaN s | FillNone => s end in
  series_zip pct_cell data (shift1_series data).

(** [diff()] *)
Definition diff (t : Frame) : Frame := frame_zip fsub t (shift1 t).

(** [cumprod()]: missing cells are skipped and stay missing. *)
Fixpoint cumprod_from (acc : fl) (s : Series) : Series :=
  match s with
  | [] => []
  | (d, x) :: s' =>
      if is_nan x then (d, NaN) :: cumprod_from acc s'
      else let acc' := fmul acc x in (d, acc') :: cumprod_from acc' s'
  end.

Definition cumprod (s : Series) : Series := cumprod_from (Fin 1) s.

(** [replace(0, 1)] *)
Definition replace_0_1 (x : fl) : fl := if is_zero x then Fin 1 else x.

(* ------------------------------------------------------------------ *)
(** ** The source functions *)

(** [compute_basket_zscores] ([signals.py], and again in
    [data_ingest.py]). *)
Definition clean (price_df : Frame) : Frame := dropna_all (ffill price_df).

Definition compute_basket_zscores (price_df : Frame) : Frame :=
  let basket_mean := map_rows row_mean (clean price_df) in
  let basket_std := map_rows row_std (clean price_df) in
  frame_op_series fdiv (frame_op_series fsub (clean price_df) basket_mean)
                  basket_std.

(** [generate_positions].  [(zscores < entry_thresh).astype(int)] is an
    integer table, each cell 0 or 1; the cells where [zscores >
    exit_thresh] are then overwritten with 0; [ffill()] and [fillna(0)]
    run on the outcome.  The intermediate table is kept nullable
    ([None] for a missing cell) so that the last two steps are the
    primitives they are in the source. *)
Definition astype_int (b : bool) : Z := if b then 1%Z else 0%Z.

Definition isnone {A} (c : option A) : bool :=
  match c with None => true | Some _ => false end.

Definition mask_zero (zscores : Frame) (exit_thresh : R)
    (pos : list (date * list (option Z))) : list (date * list (option Z)) :=
  zip_with (fun zr pr =>
              (fst pr,
               zip_with (fun z p => if fgt z exit_thresh then Some 0%Z else p)
                        (snd zr) (snd pr)))
           zscores pos.

Definition generate_positions (zscores : Frame) (entry_thresh exit_thresh : R)
  : IntFrame :=
  let pos := map_cells (fun z => Some (astype_int (flt z entry_thresh))) zscores in
  let pos := mask_zero zscores exit_thresh pos in
  map_cells (fun c => match c with Some v => v | None => 0%Z end)
            (ffill_gen isnone None pos).

(** [backtest].  The intermediate tables are functions of their own so
    that statements can name them. *)
Definition to_float (z : Z) : fl := Fin (IZR z).

Definition daily_ret (fm : fill_method) (prices : Frame) : Frame :=
  map_cells fillna0 (pct_change fm prices).

Definition shifted_pos (positions : IntFrame) : Frame :=
  map_cells fillna0 (shift1 (map_cells to_float positions)).

Definition n_open (positions : IntFrame) : Series :=
  map_rows replace_0_1 (map_rows row_sum (shifted_pos positions)).

Definition gross_ret (fm : fill_method) (prices : Frame) (positions : IntFrame)
  : Series :=
  series_op fdiv
    (map_rows row_sum (frame_mul (shifted_pos positions) (daily_ret fm prices)))
    (n_open positions).

Definition trades (positions : IntFrame) : Series :=
  map_rows row_sum (map_cells fabs (diff (shifted_pos positions))).

Definition strat_ret (fm : fill_method) (prices : Frame) (positions : IntFrame)
    (cost_per_trade : R) : Series :=
  series_op fsub (gross_ret fm prices positions)
            (map_rows (fun x => fmul x (Fin cost_per_trade)) (trades positions)).

Definition cum_of (ret : Series) : Series :=
  map_rows (fun x => fsub x (Fin 1)) (cumprod (map_rows (fadd (Fin 1)) ret)).

Definition backtest (fm : fill_method) (prices : Frame) (positions : IntFrame)
    (cost_per_trade : R) : Series * Series :=
  let r := strat_ret fm prices positions cost_per_trade in
  (r, cum_of r).

(** Defaults of the keyword arguments. *)
Definition default_entry_thresh : R := -1.
Definition default_exit_thresh : R := 0.
Definition default_cost_per_trade : R := 5 / 10000.

(** The main pipeline, steps 2 and 3 of [__main__]. *)
Definition pipeline (fm : fill_method) (df : Frame) : Series * Series :=
  let zs := compute_basket_zscores df in
  let pos := generate_positions zs default_entry_thresh default_exit_thresh in
  backtest fm df pos default_cost_per_trade.

Definition bench_ret (fm : fill_method) (df : Frame) : Series :=
  map_rows fillna0 (pct_change_series fm (map_rows row_mean df)).

Definition bench_cum (fm : fill_method) (df : Frame) : Series :=
  cum_of (bench_ret fm df).


(** The cell [generate_positions] computes from one z-score. *)
Definition position_cell (entry_thresh exit_thresh : R) (z : fl) : Z :=
  if fgt z exit_thresh then 0%Z else astype_int (flt z entry_thresh).

(* ------------------------------------------------------------------ *)
(** ** Errors

    A call either returns or raises.  [fetch_price_series] is the only
    function of the source with a [raise]; the download itself
    ([yf.download]) is outside the program, so its result, projected on
    the "Adj Close" column of every ticker, is an argument here. *)

Inductive exn : Type := RuntimeError (msg : string).

Inductive outcome (A : Type) : Type :=
| Returned (a : A)
| Raised (e : exn).

Arguments Returned {A} a.
Arguments Raised {A} e.

(** [df.empty]: no row, or no column. *)
Definition frame_empty (df : Frame) : bool :=
  match df with
  | [] => true
  | (_, []) :: _ => true
  | _ => false
  end.

Definition fetch_price_series (tickers : list string) (downloaded : Frame)
  : outcome Frame :=
  if frame_empty downloaded then
    Raised (RuntimeError "No data downloaded - check tickers or dates.")
  else if (List.length tickers =? 1)%nat then Returned downloaded
  else Returned (dropna_all downloaded).

(** A call of [compute_basket_zscores]: its body has no [raise] and no
    operation that fails on a table of floats. *)
Definition call_compute_basket_zscores (price_df : Frame) : outcome Frame :=
  Returned (compute_basket_zscores price_df).

(** The table has no usable row after gap-filling. *)
Definition no_usable_rows (price_df : Frame) : Prop :=
  clean price_df = [].

(* ------------------------------------------------------------------ *)
(** ** Inputs of the concrete scenarios *)

(** Instruments A and B on three dates: A = 90, 100, 110 and
    B = 110, 100, 90. *)
Definition prices_AB : Frame :=
  [(1%Z, [Fin 90; Fin 110]); (2%Z, [Fin 100; Fin 100]); (3%Z, [Fin 110; Fin 90])].

(** A table whose rows are all missing. *)
Definition prices_all_missing : Frame :=
  [(1%Z, [NaN; NaN]); (2%Z, [NaN; NaN])].

(** The benchmark as the claim words it: the mean over the instruments of
    their own period returns ([df.pct_change().mean(axis=1).fillna(0)]). *)
Definition bench_ret_mean_of_returns (fm : fill_method) (df : Frame) : Series :=
  map_rows fillna0 (map_rows row_mean (pct_change fm df)).

(** Two instruments on two dates; the first doubles, the second stays. *)
Definition prices_double_flat : Frame :=
  [(1%Z, [Fin 1; Fin 3]); (2%Z, [Fin 2; Fin 3])].

(* ------------------------------------------------------------------ *)
(** ** Predicates on cells and tables *)

(** The cell is a number (neither missing nor infinite). *)
Definition finite (x : fl) : Prop :=
  match x with Fin _ => True | _ => False end.

(** Sum of a list of reals, left to right as [fsum] adds. *)
Definition Rsum (l : list R) : R := fold_left Rplus l 0.

(** Every cell of the table satisfies [P]. *)
Definition all_cells {A} (P : A -> Prop) (t : list (date * list A)) : Prop :=
  Forall (fun dr => Forall P (snd dr)) t.

(** A position table: every cell is the indicator 0 or 1. *)
Definition is_position_table (positions : IntFrame) : Prop :=
  all_cells (fun v => v = 0%Z \/ v = 1%Z) positions.

(** A price cell is missing or a non-zero number. *)
Definition price_cell (x : fl) : Prop :=
  match x with
  | NaN => True
  | Fin r => r <> 0
  | _ => False
  end.

(** The row of [shifted_pos * daily_ret] at a date of the lagged
    positions. *)
Definition product_row (fm : fill_method) (prices : Frame) (d : date)
    (ra : Row) : Row :=
  match lookup d (daily_ret fm prices) with
  | Some rb => zip_with fmul ra rb
  | None => map (fun _ => NaN) ra
  end.


(** Every value of the series is a number. *)
Definition all_finite (s : Series) : Prop :=
  Forall (fun dx => finite (snd dx)) s.

(** The period return of one instrument from its price [x] and its prior
    price [prev]: a cell of [pct_change()] after [fillna(0)]. *)
Definition ret_cell (x prev : fl) : fl := fillna0 (pct_cell x prev).

(** The z-scores of one row of the gap-filled table. *)
Definition zscore_row (r : Row) : Row :=
  map (fun x => fdiv (fsub x (row_mean r)) (row_std r)) r.

(** Two instruments at 100 on two dates. *)
Definition prices_flat : Frame :=
  [(1%Z, [Fin 100; Fin 100]); (2%Z, [Fin 100; Fin 100])].

(** An instrument with a gap, next to one that trades every day. *)
Definition prices_gap : Frame :=
  [(1%Z, [Fin 100; Fin 50]); (2%Z, [NaN; Fin 50]); (3%Z, [Fin 110; Fin 55])].

(* ------------------------------------------------------------------ *)
(** ** Two runs *)

(** The two price tables differ at most in the prices of date [T]. *)
Definition differ_only_at (T : date) (p1 p2 : Frame) : Prop :=
  exists pre r1 r2 post,
    p1 = pre ++ (T, r1) :: post /\ p2 = pre ++ (T, r2) :: post
    /\ List.length r1 = List.length r2.

(** Dates strictly increasing. *)
Definition increasing (l : list date) : Prop := StronglySorted Z.lt l.

(** The table [Z] starts with the rows of [X], and the labels of its
    further rows are among [J]. *)
Definition prefix_ext {A} (X Z : list (date * A)) (J : list date) : Prop :=
  exists Y, Z = X ++ Y /\ incl (index Y) J.

(** Four instruments on two dates; the first one, cheap at date 1, rises
    to 2 in one run and to 3 in the other. *)
Definition prices_run1 : Frame :=
  [(1%Z, [Fin 1; Fin 5; Fin 5; Fin 5]); (2%Z, [Fin 2; Fin 5; Fin 5; Fin 5])].

Definition prices_run2 : Frame :=
  [(1%Z, [Fin 1; Fin 5; Fin 5; Fin 5]); (2%Z, [Fin 3; Fin 5; Fin 5; Fin 5])].

(** The two tables share their rows before [T] and have a row at [T], of
    the same width. *)
Definition differ_from {A} (T : date) (X1 X2 : list (date * list A)) : Prop :=
  exists pre a1 a2 post1 post2,
    X1 = pre ++ (T, a1) :: post1 /\ X2 = pre ++ (T, a2) :: post2
    /\ List.length a1 = List.length a2 /\ ~ In T (index pre).

(** The two tables share their rows up to [T], that of [T] included. *)
Definition agree_through {A} (T : date) (X1 X2 : list (date * A)) : Prop :=
  exists pre a post1 post2,
    X1 = pre ++ (T, a) :: post1 /\ X2 = pre ++ (T, a) :: post2
    /\ ~ In T (index pre).

(* ------------------------------------------------------------------ *)
(** ** Relations between tables *)

(** Two integer tables with the same index and shape, the cells of the
    first at most those of the second. *)
Definition cells_le (t1 t2 : IntFrame) : Prop :=
  Forall2 (fun r1 r2 => fst r1 = fst r2 /\ Forall2 Z.le (snd r1) (snd r2)) t1 t2.

(** Every row of the table holds at most [n] instruments. *)
Definition width_le {A} (n : nat) (t : list (date * list A)) : Prop :=
  Forall (fun dr => (List.length (snd dr) <= n)%nat) t.

(** Every row of the table holds at least one present price. *)
Definition every_row_priced (t : Frame) : Prop :=
  Forall (fun dr => existsb notna (snd dr) = true) t.

(* ------------------------------------------------------------------ *)
(** ** Statistics of a list of numbers *)

Definition Rmean (l : list R) : R := Rsum l / INR (List.length l).

Definition Rsq_dev (l : list R) : list R :=
  map (fun v => (Rmean l - v) * (Rmean l - v)) l.

(** Sample variance (divisor [n - 1]). *)
Definition Rvar (l : list R) : R := Rsum (Rsq_dev l) / (INR (List.length l) - 1).

(** The cell is one of the two infinities. *)
Definition infinite (x : fl) : Prop := x = PInf \/ x = NInf.

(** What a sum that met an infinity can be. *)
Definition inf_sum (acc : fl) (l : list fl) (res : fl) : Prop :=
  res = NaN
  \/ (res = PInf /\ (acc = PInf \/ In PInf l))
  \/ (res = NInf /\ (acc = NInf \/ In NInf l)).


(** The numbers of a row, in order (its missing and infinite cells left
    out). *)
Fixpoint present_values (r : list fl) : list R :=
  match r with
  | [] => []
  | Fin v :: r' => v :: present_values r'
  | _ :: r' => present_values r'
  end.

(** The z-score [z] standardises the price [x] of a row with mean [m] and
    standard deviation [s]: both are missing, or [x = m + z * s]. *)
Definition standardises (m s : R) (x z : fl) : Prop :=
  (x = NaN /\ z = NaN)
  \/ exists v u, x = Fin v /\ z = Fin u /\ v = m + u * s.

(** The cell is a number that is not negative. *)
Definition nonneg (x : fl) : Prop :=
  match x with Fin t => 0 <= t | _ => False end.

(* ------------------------------------------------------------------ *)
(** ** Series of numbers *)

(** The series whose values are the given numbers. *)
Definition series_of (l : list (Z * R)) : list (Z * fl) :=
  map (fun dv => (fst dv, Fin (snd dv))) l.

Definition Rprod (l : list R) : R := fold_right Rmult 1 l.

(** The growth factors [1 + r] of the first [k] returns of [l]. *)
Definition growth (k : nat) (l : list (Z * R)) : list R :=
  map (fun dv => 1 + snd dv) (firstn k l).

(* ------------------------------------------------------------------ *)
(** ** Performance figures of [__main__] *)

(** [vol(r)]: [r.std() * (252 ** 0.5)], the sample standard deviation of
    the series' present values. *)
Definition vol (r : Series) : fl := fmul (row_std (map snd r)) (Fin (sqrt 252)).

(** [s_cagr / s_vol if s_vol else float('nan')]: a float is false
    exactly when it is zero, so a missing volatility takes the division. *)
Definition s_sharpe (s_cagr s_vol : fl) : fl :=
  if is_zero s_vol then NaN else fdiv s_cagr s_vol.

(** Every row of the table has a mean that is a number other than 0. *)
Definition means_nonzero (df : Frame) : Prop :=
  Forall (fun dr => exists m, row_mean (snd dr) = Fin m /\ m <> 0) df.

(** [df.div(df.iloc[0]).mul(100)]: every price over the price of the same
    instrument on the first date, times 100.  [iloc[0]] raises an
    [IndexError] on a table without rows: no result then. *)
Definition rebase_cell (x first : fl) : fl := fmul (fdiv x first) (Fin 100).

Definition rebased (df : Frame) : option Frame :=
  match df with
  | [] => None
  | (_, r0) :: _ => Some (map_rows (fun r => zip_with rebase_cell r r0) df)
  end.

(* ------------------------------------------------------------------ *)
(** ** Rounded row statistics

    The arithmetic above is exact.  Whether a computed standard deviation
    is exactly zero turns on the rounding of every operation, so the row
    statistics of [compute_basket_zscores] are also given with a rounding
    [rnd] applied to the result of each operation, in the order pandas
    evaluates them: the mean is the sum of the present cells over their
    number; the variance subtracts each present cell from that mean,
    squares, sums and divides by the number of present cells less one;
    the standard deviation is its square root. *)
Section Rounded.
Variable rnd : R -> R.

Definition round (x : fl) : fl :=
  match x with Fin r => Fin (rnd r) | _ => x end.

Definition radd (x y : fl) : fl := round (fadd x y).
Definition rsub (x y : fl) : fl := round (fsub x y).
Definition rmul (x y : fl) : fl := round (fmul x y).
Definition rdiv (x y : fl) : fl := round (fdiv x y).
Definition rsqrt (x : fl) : fl := round (fsqrt x).

Definition rsum (l : list fl) : fl := fold_left radd l (Fin 0).

Definition row_mean_rnd (r : Row) : fl :=
  let xs := filter notna r in
  match xs with
  | [] => NaN
  | _ => rdiv (rsum xs) (Fin (INR (List.length xs)))
  end.

Definition row_var_rnd (r : Row) : fl :=
  let xs := filter notna r in
  let n := List.length xs in
  if (n <=? 1)%nat then NaN
  else
    let avg := rdiv (rsum xs) (Fin (INR n)) in
    rdiv (rsum (map (fun x => let e := rsub avg x in rmul e e) xs))
         (Fin (INR n - 1)).

Definition row_std_rnd (r : Row) : fl := rsqrt (row_var_rnd r).

Definition compute_basket_zscores_rnd (price_df : Frame) : Frame :=
  let basket_mean := map_rows row_mean_rnd (clean price_df) in
  let basket_std := map_rows row_std_rnd (clean price_df) in
  frame_op_series rdiv (frame_op_series rsub (clean price_df) basket_mean)
                  basket_std.

Definition pipeline_rnd (fm : fill_method) (df : Frame) : Series * Series :=
  let zs := compute_basket_zscores_rnd df in
  let pos := generate_positions zs default_entry_thresh default_exit_thresh in
  backtest fm df pos default_cost_per_trade.

(** The z-scores of one row of the gap-filled table. *)
Definition zscore_row_rnd (r : Row) : Row :=
  map (fun x => rdiv (rsub x (row_mean_rnd r)) (row_std_rnd r)) r.

End Rounded.

(** The standard model of floating-point arithmetic: the rounding of a
    number is off by at most the relative error [u] (for binary64,
    [u] is 2^-53; underflow and overflow are outside the model). *)
Definition standard_model (u : R) (rnd : R -> R) : Prop :=
  0 <= u < 1 /\ forall x, Rabs (rnd x - x) <= u * Rabs x.

(** Integers up to 2^53 in magnitude are floats. *)
Definition exact_on_integers (rnd : R -> R) : Prop :=
  forall k : Z, (Z.abs k <= 2 ^ 53)%Z -> rnd (IZR k) = IZR k.

(** The table has a row at [T] with at least one price. *)
Definition priced_at (T : date) (p : Frame) : Prop :=
  exists r, lookup T p = Some r /\ existsb notna r = true.

(** The strategy return of a date from what is held over the period that
    ends there: the lagged positions [lag], averaged over the number of
    open positions, earn the period returns of the date, and the turnover
    [tr] is charged at the default cost. *)
Definition held_return (fm : fill_method) (prices : Frame) (T : date)
    (lag : Row) (tr : fl) : fl :=
  fsub (fdiv (row_sum (product_row fm prices T lag))
             (replace_0_1 (row_sum lag)))
       (fmul tr (Fin default_cost_per_trade)).

(** A price table that starts one date before the positions. *)
Definition prices_early : Frame := [(1%Z, [Fin 100]); (2%Z, [Fin 110])].
Definition positions_late : IntFrame := [(2%Z, [1%Z])].
(* ------------------------------------------------------------------ *)
(** ** Computing with cells

    The cell operations test real numbers, so they do not reduce on their
    own.  The equations below, oriented as rewrite rules, evaluate them on
    given numbers; [fl_eval] interleaves them with the reduction of the
    list functions. *)

Lemma fadd_Fin a b : fadd (Fin a) (Fin b) = Fin (a + b).
Proof. reflexivity. Qed.

Lemma fsub_Fin a b : fsub (Fin a) (Fin b) = Fin (a - b).
Proof. reflexivity. Qed.

Lemma fmul_Fin a b : fmul (Fin a) (Fin b) = Fin (a * b).
Proof. reflexivity. Qed.

Lemma fdiv_Fin a b : b <> 0 -> fdiv (Fin a) (Fin b) = Fin (a / b).
Proof.
  intros H. unfold fdiv. destruct (Req_dec_T b 0); [contradiction | reflexivity].
Qed.

Lemma fdiv_Fin_0_0 a b : a = 0 -> b = 0 -> fdiv (Fin a) (Fin b) = NaN.
Proof.
  intros Ha Hb. unfold fdiv.
  destruct (Req_dec_T b 0); [| contradiction].
  destruct (Req_dec_T a 0); [reflexivity | contradiction].
Qed.

Lemma fdiv_Fin_pos_0 a b : 0 < a -> b = 0 -> fdiv (Fin a) (Fin b) = PInf.
Proof.
  intros Ha Hb. unfold fdiv.
  destruct (Req_dec_T b 0); [| contradiction].
  destruct (Req_dec_T a 0); [lra |].
  destruct (Rlt_dec 0 a); [reflexivity | contradiction].
Qed.

Lemma fdiv_Fin_neg_0 a b : a < 0 -> b = 0 -> fdiv (Fin a) (Fin b) = NInf.
Proof.
  intros Ha Hb. unfold fdiv.
  destruct (Req_dec_T b 0); [| contradiction].
  destruct (Req_dec_T a 0); [lra |].
  destruct (Rlt_dec 0 a); [lra | reflexivity].
Qed.

Lemma fsqrt_Fin r : 0 <= r -> fsqrt (Fin r) = Fin (sqrt r).
Proof. intros H. unfold fsqrt. destruct (Rlt_dec r 0); [lra | reflexivity]. Qed.

Lemma flt_Fin_true r t : r < t -> flt (Fin r) t = true.
Proof. intros H. unfold flt. destruct (Rlt_dec r t); [reflexivity | contradiction]. Qed.

Lemma flt_Fin_false r t : t <= r -> flt (Fin r) t = false.
Proof. intros H. unfold flt. destruct (Rlt_dec r t); [lra | reflexivity]. Qed.

Lemma fgt_Fin_true r t : t < r -> fgt (Fin r) t = true.
Proof. intros H. unfold fgt. destruct (Rlt_dec t r); [reflexivity | contradiction]. Qed.

Lemma fgt_Fin_false r t : r <= t -> fgt (Fin r) t = false.
Proof. intros H. unfold fgt. destruct (Rlt_dec t r); [lra | reflexivity]. Qed.

Lemma is_zero_Fin_true r : r = 0 -> is_zero (Fin r) = true.
Proof. intros H. unfold is_zero. destruct (Req_dec_T r 0); [reflexivity | contradiction]. Qed.

Lemma is_zero_Fin_false r : r <> 0 -> is_zero (Fin r) = false.
Proof. intros H. unfold is_zero. destruct (Req_dec_T r 0); [contradiction | reflexivity]. Qed.

Lemma fabs_Fin_pos r : 0 <= r -> fabs (Fin r) = Fin r.
Proof. intros H. unfold fabs. now rewrite Rabs_pos_eq. Qed.

Lemma fabs_Fin_neg r : r <= 0 -> fabs (Fin r) = Fin (- r).
Proof. intros H. unfold fabs. now rewrite Rabs_left1. Qed.

Lemma fsub_NaN_l x : fsub NaN x = NaN.
Proof. reflexivity. Qed.

Lemma fsub_NaN_r x : fsub x NaN = NaN.
Proof. now destruct x. Qed.

Lemma fadd_NaN_l x : fadd NaN x = NaN.
Proof. reflexivity. Qed.

Lemma fadd_NaN_r x : fadd x NaN = NaN.
Proof. now destruct x. Qed.

Lemma fmul_NaN_l x : fmul NaN x = NaN.
Proof. reflexivity. Qed.

Lemma fmul_NaN_r x : fmul x NaN = NaN.
Proof. now destruct x. Qed.

Lemma fdiv_NaN_l x : fdiv NaN x = NaN.
Proof. reflexivity. Qed.

Lemma fdiv_NaN_r x : fdiv x NaN = NaN.
Proof. now destruct x. Qed.

Lemma fsqrt_NaN : fsqrt NaN = NaN.
Proof. reflexivity. Qed.

Lemma fabs_NaN : fabs NaN = NaN.
Proof. reflexivity. Qed.

Lemma flt_NaN t : flt NaN t = false.
Proof. reflexivity. Qed.

Lemma fgt_NaN t : fgt NaN t = false.
Proof. reflexivity. Qed.

Lemma is_zero_NaN : is_zero NaN = false.
Proof. reflexivity. Qed.

Lemma INR_succ n : INR (S n) = INR n + 1.
Proof. apply S_INR. Qed.

Lemma INR_zero : INR 0 = 0.
Proof. reflexivity. Qed.

#[global] Arguments fadd : simpl never.
#[global] Arguments fsub : simpl never.
#[global] Arguments fmul : simpl never.
#[global] Arguments fdiv : simpl never.
#[global] Arguments fsqrt : simpl never.
#[global] Arguments fabs : simpl never.
#[global] Arguments flt : simpl never.
#[global] Arguments fgt : simpl never.
#[global] Arguments is_zero : simpl never.
#[global] Arguments row_sum : simpl never.
#[global] Arguments row_mean : simpl never.
#[global] Arguments row_var : simpl never.
#[global] Arguments row_std : simpl never.
#[global] Arguments INR : simpl never.
#[global] Arguments IZR : simpl never.

Create Rewrite HintDb fl_eval.
#[global] Hint Rewrite fsub_NaN_l fsub_NaN_r fadd_NaN_l fadd_NaN_r
  fmul_NaN_l fmul_NaN_r fdiv_NaN_l fdiv_NaN_r fsqrt_NaN fabs_NaN
  flt_NaN fgt_NaN is_zero_NaN fadd_Fin fsub_Fin fmul_Fin
  INR_succ INR_zero : fl_eval.

Ltac fl_step :=
  first
    [ progress autorewrite with fl_eval
    | rewrite fdiv_Fin by lra
    | rewrite fdiv_Fin_0_0 by lra
    | rewrite fdiv_Fin_pos_0 by lra
    | rewrite fdiv_Fin_neg_0 by lra
    | rewrite fsqrt_Fin by lra
    | rewrite flt_Fin_true by lra
    | rewrite flt_Fin_false by lra
    | rewrite fgt_Fin_true by lra
    | rewrite fgt_Fin_false by lra
    | rewrite is_zero_Fin_true by lra
    | rewrite is_zero_Fin_false by lra
    | rewrite fabs_Fin_pos by lra
    | rewrite fabs_Fin_neg by lra
    | progress unfold pct_cell, fillna0, replace_0_1, to_float
    | progress cbn
    | progress unfold row_sum, row_mean, row_var, row_std, fsum ].

Ltac fl_eval := repeat fl_step.

(** Replace the argument of a square root by the square of [v]. *)
Ltac sqrt_by v tac :=
  match goal with
  | |- context [sqrt ?x] =>
      replace (sqrt x) with v
        by (symmetry; apply sqrt_lem_1; tac)
  end.

Ltac sqrt_is v := sqrt_by v lra.

(* ------------------------------------------------------------------ *)
(** ** Position generation *)

Lemma zip_with_map_l {A B C D} (f : B -> C -> D) (g : A -> B) l m :
  zip_with f (map g l) m = zip_with (fun a c => f (g a) c) l m.
Proof.
  revert m. induction l as [| a l IH]; intros [| c m]; simpl; auto.
  now rewrite IH.
Qed.

Lemma zip_with_map_r {A B C D} (f : A -> C -> D) (g : B -> C) l m :
  zip_with f l (map g m) = zip_with (fun a b => f a (g b)) l m.
Proof.
  revert m. induction l as [| a l IH]; intros [| c m]; simpl; auto.
  now rewrite IH.
Qed.

Lemma zip_with_diag {A B} (f : A -> A -> B) l :
  zip_with f l l = map (fun a => f a a) l.
Proof. induction l as [| a l IH]; simpl; auto. now rewrite IH. Qed.

Lemma zip_with_ext {A B C} (f g : A -> B -> C) l m :
  (forall a b, f a b = g a b) -> zip_with f l m = zip_with g l m.
Proof.
  intros H. revert m. induction l as [| a l IH]; intros [| b m]; simpl; auto.
  now rewrite H, IH.
Qed.

(** Forward fill finds nothing to fill in a row without missing cells. *)
Lemma fill_row_present {A} (prev : list (option A)) (r : list A) :
  fill_row isnone None prev (map Some r) = map Some r.
Proof.
  revert prev. induction r as [| x r IH]; intros prev; simpl; auto.
  now rewrite IH.
Qed.

Lemma ffill_from_present {A} (prev : list (option A)) (t : list (date * list A)) :
  ffill_from isnone None prev (map_cells Some t) = map_cells Some t.
Proof.
  revert prev. induction t as [| [d r] t IH]; intros prev; simpl; auto.
  now rewrite fill_row_present, IH.
Qed.

Lemma map_cells_map_cells {A B C} (g : B -> C) (f : A -> B) t :
  map_cells g (map_cells f t) = map_cells (fun a => g (f a)) t.
Proof.
  unfold map_cells, map_rows. rewrite map_map. apply map_ext.
  intros [d r]. simpl. now rewrite map_map.
Qed.

Lemma map_cells_id {A} (t : list (date * list A)) :
  map_cells (fun a => a) t = t.
Proof.
  unfold map_cells, map_rows. rewrite <- (map_id t) at 2. apply map_ext.
  intros [d r]. simpl. now rewrite map_id.
Qed.

(** [generate_positions] is cell-wise: the table before [ffill] has no
    missing cell, so neither [ffill] nor [fillna(0)] changes it. *)
Lemma generate_positions_cells zscores entry_thresh exit_thresh :
  generate_positions zscores entry_thresh exit_thresh
  = map_cells (position_cell entry_thresh exit_thresh) zscores.
Proof.
  unfold generate_positions.
  assert (E : mask_zero zscores exit_thresh
                (map_cells (fun z => Some (astype_int (flt z entry_thresh))) zscores)
              = map_cells Some
                  (map_cells (position_cell entry_thresh exit_thresh) zscores)).
  { unfold mask_zero, map_cells, map_rows. rewrite zip_with_map_r, zip_with_diag.
    rewrite map_map. apply map_ext. intros [d r]. simpl. f_equal.
    rewrite zip_with_map_r, zip_with_diag, map_map. apply map_ext.
    intros z. unfold position_cell. now destruct (fgt z exit_thresh). }
  rewrite E. unfold ffill_gen. rewrite ffill_from_present.
  rewrite map_cells_map_cells. apply map_cells_id.
Qed.

Lemma position_cell_01 e x z :
  position_cell e x z = 0%Z \/ position_cell e x z = 1%Z.
Proof.
  unfold position_cell, astype_int.
  destruct (fgt z x); auto. destruct (flt z e); auto.
Qed.

Lemma position_cell_NaN e x : position_cell e x NaN = 0%Z.
Proof. reflexivity. Qed.

(** C1 (the code departs from the claim).  On one instrument with z-scores
    -2 and then -1/2 and the default thresholds, the first date enters
    (position 1); at the second date the z-score lies between the
    thresholds, it does not exceed [exit_thresh], and the position returned
    is 0: the held state is not carried forward. *)
Theorem generate_positions_drops_held_state :
  generate_positions [(0%Z, [Fin (-2)]); (1%Z, [Fin (-1 / 2)])]
                     default_entry_thresh default_exit_thresh
  = [(0%Z, [1%Z]); (1%Z, [0%Z])]
  /\ fgt (Fin (-1 / 2)) default_exit_thresh = false.
Proof.
  unfold default_entry_thresh, default_exit_thresh, generate_positions.
  split; fl_eval; reflexivity.
Qed.

(** C8.  For every z-score table, missing cells included, the table
    returned by [generate_positions] has the index and the shape of its
    argument, each of its cells is the integer 0 or 1, and the cell of a
    missing z-score is 0. *)
Theorem generate_positions_zero_one zscores entry_thresh exit_thresh :
  Forall2
    (fun zr pr =>
       fst pr = fst zr /\
       Forall2 (fun z p => (p = 0%Z \/ p = 1%Z) /\ (z = NaN -> p = 0%Z))
               (snd zr) (snd pr))
    zscores (generate_positions zscores entry_thresh exit_thresh).
Proof.
  rewrite generate_positions_cells. unfold map_cells, map_rows.
  induction zscores as [| [d r] t IH]; simpl; constructor; auto.
  simpl. split; auto.
  clear IH. induction r as [| z r IHr]; simpl; constructor; auto.
  split; [apply position_cell_01 | intros ->; apply position_cell_NaN].
Qed.

(* ------------------------------------------------------------------ *)
(** ** Empty input *)

Lemma compute_basket_zscores_no_usable_rows price_df :
  no_usable_rows price_df -> compute_basket_zscores price_df = [].
Proof.
  unfold no_usable_rows, compute_basket_zscores. intros ->. reflexivity.
Qed.

(** C4, code bug.  The table [prices_all_missing] has no usable row
    after gap-filling, and the call of [compute_basket_zscores] on it
    returns the empty table; it does not raise.  So does the call on
    every table without a usable row: the function, whose docstring says
    that its output is never empty, has no check of its own. *)
Theorem compute_basket_zscores_does_not_raise :
  no_usable_rows prices_all_missing
  /\ call_compute_basket_zscores prices_all_missing = Returned []
  /\ ~ (exists e, call_compute_basket_zscores prices_all_missing = Raised e)
  /\ (forall price_df,
        no_usable_rows price_df ->
        call_compute_basket_zscores price_df = Returned []).
Proof.
  split; [reflexivity |]. split; [reflexivity |]. split.
  - intros [e H]. discriminate H.
  - intros price_df H. unfold call_compute_basket_zscores.
    now rewrite compute_basket_zscores_no_usable_rows.
Qed.

(** The empty-result check of the source is in the ingestion step: it
    raises exactly when the downloaded table is empty. *)
Lemma fetch_price_series_raises tickers downloaded :
  (exists e, fetch_price_series tickers downloaded = Raised e)
  <-> frame_empty downloaded = true.
Proof.
  unfold fetch_price_series. destruct (frame_empty downloaded).
  - split; eauto.
  - split; [| discriminate]. intros [e H].
    destruct (List.length tickers =? 1)%nat; discriminate H.
Qed.

(* ------------------------------------------------------------------ *)
(** ** The scenario of instruments A and B *)

Lemma sqrt2_facts : sqrt 2 * sqrt 2 = 2 /\ 1 < sqrt 2.
Proof.
  assert (H : sqrt 2 * sqrt 2 = 2) by (apply sqrt_sqrt; lra).
  split; [exact H |].
  assert (P : 0 <= sqrt 2) by apply sqrt_pos. nra.
Qed.

Lemma inv_sqrt2_bounds : 0 < / sqrt 2 < 1.
Proof.
  destruct sqrt2_facts as [_ H].
  split.
  - apply Rinv_0_lt_compat. lra.
  - rewrite <- Rinv_1. apply Rinv_lt_contravar; lra.
Qed.

Lemma compute_basket_zscores_AB :
  compute_basket_zscores prices_AB
  = [(1%Z, [Fin (-1 / sqrt 2); Fin (1 / sqrt 2)]);
     (2%Z, [NaN; NaN]);
     (3%Z, [Fin (1 / sqrt 2); Fin (-1 / sqrt 2)])].
Proof.
  destruct sqrt2_facts as [S2 L2].
  unfold compute_basket_zscores, clean, prices_AB. fl_eval.
  do 2 sqrt_by (10 * sqrt 2) nra.
  sqrt_is 0. fl_eval.
  repeat (f_equal; try (field; lra)).
Qed.

(** C5, the claim as stated fails: at no date of the scenario is the row of
    z-scores (-1, +1). *)
Lemma zscores_AB_not_minus_one :
  ~ (exists d, lookup d (compute_basket_zscores prices_AB)
               = Some [Fin (-1); Fin 1]).
Proof.
  rewrite compute_basket_zscores_AB. intros [d H].
  pose proof inv_sqrt2_bounds as B.
  simpl in H.
  destruct (d =? 1)%Z; [injection H as H1 H2; lra |].
  destruct (d =? 2)%Z; [discriminate H |].
  destruct (d =? 3)%Z; [injection H as H1 H2; lra | discriminate H].
Qed.

(** C5, amended.  In the scenario the first date has cross-sectional mean
    100 and sample standard deviation 10 * sqrt 2, so the z-scores of A and
    B there are -1 / sqrt 2 and +1 / sqrt 2 (the second date has standard
    deviation 0 and missing z-scores, the third mirrors the first); with
    [entry_thresh = -1] every position of the scenario is 0.  The entry
    comparison is strict: a z-score equal to [entry_thresh] does not
    enter. *)
Theorem scenario_AB :
  row_mean [Fin 90; Fin 110] = Fin 100
  /\ row_std [Fin 90; Fin 110] = Fin (10 * sqrt 2)
  /\ compute_basket_zscores prices_AB
     = [(1%Z, [Fin (-1 / sqrt 2); Fin (1 / sqrt 2)]);
        (2%Z, [NaN; NaN]);
        (3%Z, [Fin (1 / sqrt 2); Fin (-1 / sqrt 2)])]
  /\ generate_positions (compute_basket_zscores prices_AB)
                        default_entry_thresh default_exit_thresh
     = [(1%Z, [0%Z; 0%Z]); (2%Z, [0%Z; 0%Z]); (3%Z, [0%Z; 0%Z])]
  /\ (forall d e x, generate_positions [(d, [Fin e])] e x = [(d, [0%Z])]).
Proof.
  destruct sqrt2_facts as [S2 L2]. pose proof inv_sqrt2_bounds as B.
  split; [| split; [| split; [| split]]].
  - fl_eval. f_equal. lra.
  - fl_eval. sqrt_by (10 * sqrt 2) nra. reflexivity.
  - apply compute_basket_zscores_AB.
  - rewrite compute_basket_zscores_AB, generate_positions_cells.
    unfold default_entry_thresh, default_exit_thresh, position_cell.
    fl_eval. reflexivity.
  - intros d e x. rewrite generate_positions_cells. unfold position_cell.
    cbn. rewrite flt_Fin_false by lra. now destruct (fgt (Fin e) x).
Qed.

(* ------------------------------------------------------------------ *)
(** ** Rows by position *)

Lemma nth_error_zip_with {A B C} (f : A -> B -> C) l m i :
  nth_error (zip_with f l m) i
  = match nth_error l i, nth_error m i with
    | Some a, Some b => Some (f a b)
    | _, _ => None
    end.
Proof.
  revert m i. induction l as [| a l IH]; intros [| b m] [| i]; simpl; auto.
  - now destruct (nth_error l i).
Qed.

Lemma nth_error_map_rows {A B} (f : A -> B) t i :
  nth_error (map_rows f t) i
  = option_map (fun dr => (fst dr, f (snd dr))) (nth_error t i).
Proof. unfold map_rows. apply nth_error_map. Qed.

Lemma nth_error_shift_from_0 {A} (p : A) t :
  nth_error (shift_from p t) 0
  = option_map (fun dr => (fst dr, p)) (nth_error t 0).
Proof. destruct t as [| [d r] t]; reflexivity. Qed.

Lemma nth_error_shift_from_S {A} (p : A) t i :
  nth_error (shift_from p t) (S i)
  = match nth_error t i, nth_error t (S i) with
    | Some dr0, Some dr1 => Some (fst dr1, snd dr0)
    | _, _ => None
    end.
Proof.
  revert p i. induction t as [| [d r] t IH]; intros p i; simpl.
  - now destruct i.
  - destruct i as [| i].
    + simpl. destruct t as [| [d1 r1] t]; reflexivity.
    + rewrite IH. reflexivity.
Qed.

Lemma nth_error_ffill_series_from p s i d x :
  nth_error s i = Some (d, x) -> is_nan x = false ->
  nth_error (ffill_series_from p s) i = Some (d, x).
Proof.
  revert p i. induction s as [| [d' x'] s IH]; intros p i H N.
  - now destruct i.
  - destruct i as [| i]; simpl in *.
    + injection H as -> ->. now rewrite N.
    + now apply IH.
Qed.

Lemma nth_error_ffill_series_index p s i :
  option_map fst (nth_error (ffill_series_from p s) i)
  = option_map fst (nth_error s i).
Proof.
  revert p i. induction s as [| [d x] s IH]; intros p i.
  - now destruct i.
  - destruct i as [| i]; simpl; auto.
Qed.

(* ------------------------------------------------------------------ *)
(** ** The benchmark *)

Lemma bench_ret_first fm d r df :
  nth_error (bench_ret fm ((d, r) :: df)) 0 = Some (d, Fin 0).
Proof.
  unfold bench_ret, pct_change_series, series_zip, shift1_series, pct_cell.
  destruct fm; simpl; now rewrite fdiv_NaN_r, fsub_NaN_l.
Qed.

Lemma bench_ret_next fm df i d0 r0 d1 r1 m0 m1 :
  nth_error df i = Some (d0, r0) ->
  nth_error df (S i) = Some (d1, r1) ->
  row_mean r0 = Fin m0 -> row_mean r1 = Fin m1 -> m0 <> 0 ->
  nth_error (bench_ret fm df) (S i) = Some (d1, Fin (m1 / m0 - 1)).
Proof.
  intros H0 H1 M0 M1 NZ.
  assert (E0 : nth_error (map_rows row_mean df) i = Some (d0, Fin m0)).
  { rewrite nth_error_map_rows, H0. simpl. now rewrite M0. }
  assert (E1 : nth_error (map_rows row_mean df) (S i) = Some (d1, Fin m1)).
  { rewrite nth_error_map_rows, H1. simpl. now rewrite M1. }
  unfold bench_ret. rewrite nth_error_map_rows.
  unfold pct_change_series, series_zip, shift1_series.
  rewrite nth_error_zip_with, nth_error_shift_from_S.
  destruct fm.
  - rewrite (nth_error_ffill_series_from _ _ _ _ _ E0 eq_refl).
    rewrite (nth_error_ffill_series_from _ _ _ _ _ E1 eq_refl).
    simpl. unfold pct_cell. now rewrite fdiv_Fin.
  - rewrite E0, E1. simpl. unfold pct_cell. now rewrite fdiv_Fin.
Qed.

(** C3, the claim as stated fails: on [prices_double_flat] the benchmark of
    the source returns 1/4 at the second date (the mean price goes from 2
    to 5/2), the mean of the two instruments' returns is 1/2. *)
Lemma bench_ret_not_mean_of_returns :
  get (bench_ret FillNone prices_double_flat) 2%Z = Fin (1 / 4)
  /\ get (bench_ret_mean_of_returns FillNone prices_double_flat) 2%Z = Fin (1 / 2)
  /\ bench_ret FillNone prices_double_flat
     <> bench_ret_mean_of_returns FillNone prices_double_flat
  /\ bench_ret FillPad prices_double_flat
     <> bench_ret_mean_of_returns FillPad prices_double_flat.
Proof.
  assert (A : forall fm, bench_ret fm prices_double_flat
                         = [(1%Z, Fin 0); (2%Z, Fin (1 / 4))]).
  { intros fm. unfold bench_ret, pct_change_series, prices_double_flat.
    destruct fm; fl_eval; repeat (f_equal; try lra). }
  assert (B : forall fm, bench_ret_mean_of_returns fm prices_double_flat
                         = [(1%Z, Fin 0); (2%Z, Fin (1 / 2))]).
  { intros fm. unfold bench_ret_mean_of_returns, pct_change, prices_double_flat.
    destruct fm; fl_eval; repeat (f_equal; try lra). }
  rewrite !A, !B.
  repeat split; try reflexivity; intros H; injection H as H; lra.
Qed.

(** C3, amended.  The benchmark period return is the period-over-period
    percentage change of the equal-weighted cross-sectional mean price: at
    a date whose mean price is [m1], after a date whose mean price is
    [m0 <> 0], it is [m1 / m0 - 1]; at the first date it is 0. *)
Theorem bench_ret_change_of_mean_price fm df i d0 r0 d1 r1 m0 m1 :
  nth_error df i = Some (d0, r0) ->
  nth_error df (S i) = Some (d1, r1) ->
  row_mean r0 = Fin m0 -> row_mean r1 = Fin m1 -> m0 <> 0 ->
  nth_error (bench_ret fm df) (S i) = Some (d1, Fin (m1 / m0 - 1))
  /\ option_map snd (nth_error (bench_ret fm df) 0) = Some (Fin 0).
Proof.
  intros H0 H1 M0 M1 NZ. split.
  - eapply bench_ret_next; eauto.
  - destruct df as [| [d r] df]; [now destruct i |].
    now rewrite bench_ret_first.
Qed.

Lemma bench_ret_change_of_mean_price_witness :
  nth_error (bench_ret FillNone prices_double_flat) 1
  = Some (2%Z, Fin (5 / 2 / 2 - 1))
  /\ option_map snd (nth_error (bench_ret FillNone prices_double_flat) 0)
     = Some (Fin 0).
Proof.
  apply (bench_ret_change_of_mean_price FillNone prices_double_flat 0
           1%Z [Fin 1; Fin 3] 2%Z [Fin 2; Fin 3] 2 (5 / 2)).
  - reflexivity.
  - reflexivity.
  - fl_eval. f_equal. lra.
  - fl_eval. f_equal. lra.
  - lra.
Defined.

(* ------------------------------------------------------------------ *)
(** ** Sums of numbers *)

Lemma fold_left_Rplus_acc l a : fold_left Rplus l a = a + Rsum l.
Proof.
  unfold Rsum. revert a. induction l as [| x l IH]; intros a; simpl.
  - lra.
  - rewrite (IH (a + x)), (IH (0 + x)). lra.
Qed.

Lemma Rsum_cons x l : Rsum (x :: l) = x + Rsum l.
Proof. unfold Rsum at 1. simpl. rewrite fold_left_Rplus_acc. lra. Qed.

Lemma fold_left_fadd_Fin l a :
  fold_left fadd (map Fin l) (Fin a) = Fin (a + Rsum l).
Proof.
  revert a. induction l as [| x l IH]; intros a; simpl.
  - f_equal. unfold Rsum. simpl. lra.
  - rewrite fadd_Fin, IH, Rsum_cons. f_equal. lra.
Qed.

Lemma fsum_Fin l : fsum (map Fin l) = Fin (Rsum l).
Proof. unfold fsum. rewrite fold_left_fadd_Fin. f_equal. lra. Qed.

Lemma filter_notna_Fin l : filter notna (map Fin l) = map Fin l.
Proof. induction l as [| x l IH]; simpl; auto. now rewrite IH. Qed.

Lemma row_sum_Fin l : row_sum (map Fin l) = Fin (Rsum l).
Proof. unfold row_sum. now rewrite filter_notna_Fin, fsum_Fin. Qed.

Lemma finite_inv x : finite x -> exists r, x = Fin r.
Proof. destruct x; simpl; try contradiction. eauto. Qed.

Lemma Forall_finite_inv l : Forall finite l -> exists rs, l = map Fin rs.
Proof.
  induction 1 as [| x l Hx _ [rs ->]].
  - now exists [].
  - destruct (finite_inv _ Hx) as [r ->]. now exists (r :: rs).
Qed.

Lemma row_sum_finite r : Forall finite r -> finite (row_sum r).
Proof.
  intros H. destruct (Forall_finite_inv _ H) as [rs ->].
  now rewrite row_sum_Fin.
Qed.

Lemma Rsum_nonneg l : Forall (fun x => 0 <= x) l -> 0 <= Rsum l.
Proof.
  induction 1 as [| x l Hx _ IH].
  - unfold Rsum. simpl. lra.
  - rewrite Rsum_cons. lra.
Qed.

Lemma Rsum_zero_nonneg l :
  Forall (fun x => 0 <= x) l -> Rsum l = 0 -> Forall (fun x => x = 0) l.
Proof.
  induction 1 as [| x l Hx Hl IH]; intros S; constructor.
  - rewrite Rsum_cons in S. pose proof (Rsum_nonneg _ Hl). lra.
  - apply IH. rewrite Rsum_cons in S. pose proof (Rsum_nonneg _ Hl). lra.
Qed.

(** Missing cells do not count in a row sum. *)
Lemma row_sum_cons_NaN r : row_sum (NaN :: r) = row_sum r.
Proof. reflexivity. Qed.

Lemma row_sum_all_NaN r : Forall (fun x => x = NaN) r -> row_sum r = Fin 0.
Proof.
  induction 1 as [| x r -> _ IH]; [reflexivity |].
  now rewrite row_sum_cons_NaN.
Qed.

Lemma row_sum_zero_or_NaN r :
  Forall (fun x => x = Fin 0 \/ x = NaN) r -> row_sum r = Fin 0.
Proof.
  intros H. unfold row_sum.
  assert (E : exists n, filter notna r = map Fin (repeat 0 n)).
  { induction H as [| x r [-> | ->] _ [n IH]].
    - now exists 0%nat.
    - exists (S n). simpl. now rewrite IH.
    - now exists n. }
  destruct E as [n ->]. rewrite fsum_Fin. f_equal.
  induction n as [| n IH]; [reflexivity |].
  simpl. rewrite Rsum_cons. lra.
Qed.

(* ------------------------------------------------------------------ *)
(** ** Indexes and label lookup *)

Lemma index_map_rows {A B} (f : A -> B) t : index (map_rows f t) = index t.
Proof. unfold index, map_rows. rewrite map_map. now apply map_ext. Qed.

Lemma index_shift_from {A} (p : A) t : index (shift_from p t) = index t.
Proof.
  revert p. induction t as [| [d r] t IH]; intros p; simpl; auto.
  f_equal. apply IH.
Qed.

Lemma index_shift1 t : index (shift1 t) = index t.
Proof.
  destruct t as [| [d r] t]; simpl; auto. f_equal. apply index_shift_from.
Qed.

Lemma index_frame_zip f a b :
  index a = index b -> index (frame_zip f a b) = index a.
Proof.
  unfold frame_zip. revert b.
  induction a as [| [d r] a IH]; intros [| [d' r'] b] H; simpl in *;
    try discriminate; auto.
  injection H as _ H. f_equal. now apply IH.
Qed.

Lemma index_ffill_from {A} (isna : A -> bool) na prev t :
  index (ffill_from isna na prev t) = index t.
Proof.
  revert prev. induction t as [| [d r] t IH]; intros prev; simpl; auto.
  f_equal. apply IH.
Qed.

Lemma index_pct_change fm t : index (pct_change fm t) = index t.
Proof.
  unfold pct_change. rewrite index_frame_zip.
  - destruct fm; auto. apply index_ffill_from.
  - now rewrite index_shift1.
Qed.

Lemma index_daily_ret fm prices : index (daily_ret fm prices) = index prices.
Proof.
  unfold daily_ret, map_cells. now rewrite index_map_rows, index_pct_change.
Qed.

Lemma index_shifted_pos positions :
  index (shifted_pos positions) = index positions.
Proof.
  unfold shifted_pos, map_cells.
  now rewrite index_map_rows, index_shift1, index_map_rows.
Qed.

Lemma index_n_open positions : index (n_open positions) = index positions.
Proof. unfold n_open. now rewrite !index_map_rows, index_shifted_pos. Qed.

Lemma index_trades positions : index (trades positions) = index positions.
Proof.
  unfold trades, map_cells, diff. rewrite !index_map_rows, index_frame_zip.
  - apply index_shifted_pos.
  - now rewrite index_shift1.
Qed.

Lemma index_labelled {A} (f : date -> A) l :
  index (map (fun d => (d, f d)) l) = l.
Proof. unfold index. rewrite map_map. simpl. apply map_id. Qed.

Lemma index_series_op f a b :
  index (series_op f a b) = index_union (index a) (index b).
Proof. apply index_labelled. Qed.

Lemma index_frame_mul a b :
  index (frame_mul a b) = index_union (index a) (index b).
Proof. apply index_labelled. Qed.

Lemma index_union_same a : index_union a a = a.
Proof.
  induction a as [| x a IH]; simpl; auto.
  rewrite Z.ltb_irrefl. now rewrite IH.
Qed.

Lemma in_index_union d a b :
  In d (index_union a b) <-> In d a \/ In d b.
Proof.
  revert b. induction a as [| x a IHa]; intros b.
  - destruct b; simpl; tauto.
  - induction b as [| y b IHb].
    + simpl; tauto.
    + simpl index_union.
      destruct (Z.ltb_spec x y); [| destruct (Z.ltb_spec y x)].
      * simpl. rewrite IHa. simpl. tauto.
      * simpl. simpl in IHb. rewrite IHb. tauto.
      * assert (x = y) by lia. subst y. simpl. rewrite IHa. tauto.
Qed.

Lemma lookup_labelled {A} (f : date -> A) l d :
  In d l -> lookup d (map (fun d' => (d', f d')) l) = Some (f d).
Proof.
  induction l as [| x l IH]; simpl; [contradiction |].
  intros H. destruct (Z.eqb_spec d x) as [-> | N]; auto.
  destruct H as [-> | H]; [contradiction | auto].
Qed.

Lemma lookup_map_rows {A B} (f : A -> B) t d :
  lookup d (map_rows f t) = option_map f (lookup d t).
Proof.
  induction t as [| [d' a] t IH]; simpl; auto.
  now destruct (d =? d')%Z.
Qed.

Lemma lookup_in_index {A} (t : list (date * A)) d :
  In d (index t) -> exists a, lookup d t = Some a.
Proof.
  induction t as [| [d' a] t IH]; simpl; [contradiction |].
  intros H. destruct (Z.eqb_spec d d') as [-> | N]; eauto.
  destruct H as [-> | H]; [contradiction | auto].
Qed.

Lemma lookup_some_in {A} (t : list (date * A)) d a :
  lookup d t = Some a -> In (d, a) t.
Proof.
  induction t as [| [d' a'] t IH]; simpl; [discriminate |].
  destruct (Z.eqb_spec d d') as [-> | N].
  - intros H. injection H as ->. now left.
  - intros H. right. auto.
Qed.

Lemma lookup_some_index {A} (t : list (date * A)) d a :
  lookup d t = Some a -> In d (index t).
Proof.
  intros H. apply lookup_some_in in H. unfold index.
  change d with (fst (d, a)). now apply in_map.
Qed.

Lemma get_series_op f a b d :
  In d (index a) \/ In d (index b) ->
  get (series_op f a b) d = f (get a d) (get b d).
Proof.
  intros H. unfold get at 1, series_op.
  rewrite (lookup_labelled (fun d' => f (get a d') (get b d'))); auto.
  now apply in_index_union.
Qed.

Lemma get_map_rows {A} (f : A -> fl) (s : list (date * A)) d :
  get (map_rows f s) d
  = match lookup d s with Some x => f x | None => NaN end.
Proof. unfold get. rewrite lookup_map_rows. now destruct (lookup d s). Qed.

Lemma lookup_frame_mul a b d :
  In d (index a) \/ In d (index b) ->
  lookup d (frame_mul a b)
  = Some match lookup d a, lookup d b with
         | Some ra, Some rb => zip_with fmul ra rb
         | Some ra, None | None, Some ra => map (fun _ => NaN) ra
         | None, None => []
         end.
Proof.
  intros H. unfold frame_mul.
  rewrite (lookup_labelled
             (fun d' => match lookup d' a, lookup d' b with
                        | Some ra, Some rb => zip_with fmul ra rb
                        | Some ra, None | None, Some ra => map (fun _ => NaN) ra
                        | None, None => []
                        end)); auto.
  now apply in_index_union.
Qed.

(* ------------------------------------------------------------------ *)
(** ** What the cells of the intermediate tables can be *)

Lemma all_cells_map_cells {A B} (P : A -> Prop) (Q : B -> Prop) f t :
  (forall x, P x -> Q (f x)) -> all_cells P t -> all_cells Q (map_cells f t).
Proof.
  intros H. unfold all_cells, map_cells, map_rows.
  induction 1 as [| [d r] t Hr _ IH]; simpl; constructor; auto.
  simpl in *. apply Forall_map. revert Hr. apply Forall_impl. exact H.
Qed.

Lemma all_cells_shift_from {A} (P : A -> Prop) p t :
  Forall P p -> all_cells P t -> all_cells P (shift_from p t).
Proof.
  intros Hp Ht. revert p Hp. unfold all_cells in *.
  induction Ht as [| [d r] t Hr _ IH]; intros p Hp; simpl; constructor; auto.
Qed.

Lemma all_cells_shift1 (P : fl -> Prop) t :
  all_cells P t -> all_cells (fun x => x = NaN \/ P x) (shift1 t).
Proof.
  intros H.
  assert (W : all_cells (fun x => x = NaN \/ P x) t).
  { revert H. apply Forall_impl. intros dr. apply Forall_impl. auto. }
  destruct t as [| [d r] t]; simpl; [constructor |].
  inversion W as [| ? ? Hr Ht]; subst. constructor.
  - simpl. apply Forall_map. apply Forall_forall. auto.
  - now apply all_cells_shift_from.
Qed.

Lemma Forall_zip_with {A B C} (P : A -> Prop) (Q : B -> Prop) (R : C -> Prop)
    (f : A -> B -> C) l m :
  (forall x y, P x -> Q y -> R (f x y)) ->
  Forall P l -> Forall Q m -> Forall R (zip_with f l m).
Proof.
  intros H Hl. revert m.
  induction Hl as [| x l Hx _ IH]; intros m Hm; simpl; [constructor |].
  destruct Hm as [| y m Hy Hm]; constructor; auto.
Qed.

Lemma all_cells_frame_zip (P Q R : fl -> Prop) f a b :
  (forall x y, P x -> Q y -> R (f x y)) ->
  all_cells P a -> all_cells Q b -> all_cells R (frame_zip f a b).
Proof.
  intros H Ha Hb. unfold all_cells, frame_zip in *.
  apply (Forall_zip_with (fun ra => Forall P (snd ra))
           (fun rb => Forall Q (snd rb)) (fun rc => Forall R (snd rc)));
    auto.
  intros ra rb Hra Hrb. simpl. eapply Forall_zip_with; eauto.
Qed.

Lemma Forall_fill_row {A} (P : A -> Prop) isna na prev r :
  P na -> Forall P prev -> Forall P r ->
  Forall P (fill_row isna na prev r).
Proof.
  intros Hna Hp Hr. revert prev Hp.
  induction Hr as [| x r Hx _ IH]; intros prev Hp; simpl; constructor.
  - destruct (isna x); auto. destruct Hp; simpl; auto.
  - apply IH. destruct Hp; simpl; auto.
Qed.

Lemma all_cells_ffill_from {A} (P : A -> Prop) isna na prev t :
  P na -> Forall P prev -> all_cells P t ->
  all_cells P (ffill_from isna na prev t).
Proof.
  intros Hna Hp Ht. revert prev Hp. unfold all_cells in *.
  induction Ht as [| [d r] t Hr _ IH]; intros prev Hp; simpl; constructor.
  - simpl. now apply Forall_fill_row.
  - apply IH. now apply Forall_fill_row.
Qed.

Lemma all_cells_lookup {A} (P : A -> Prop) t d r :
  all_cells P t -> lookup d t = Some r -> Forall P r.
Proof.
  intros H L. apply lookup_some_in in L.
  unfold all_cells in H. rewrite Forall_forall in H. apply (H _ L).
Qed.

(** The lagged positions are numbers; they are 0 or 1 when the positions
    are. *)
Lemma shifted_pos_cells (P : fl -> Prop) positions :
  P (Fin 0) -> all_cells (fun v => P (to_float v)) positions ->
  all_cells P (shifted_pos positions).
Proof.
  intros H0 H. unfold shifted_pos.
  apply (all_cells_map_cells (fun x => x = NaN \/ P x)).
  - intros x [-> | Hx]; [exact H0 |].
    unfold fillna0. destruct (is_nan x) eqn:E; auto.
  - apply all_cells_shift1.
    revert H. apply all_cells_map_cells. auto.
Qed.

Lemma shifted_pos_finite positions :
  all_cells finite (shifted_pos positions).
Proof.
  apply shifted_pos_cells; [exact I |].
  unfold all_cells. apply Forall_forall. intros dr _.
  apply Forall_forall. intros v _. exact I.
Qed.

Lemma shifted_pos_zero_one positions :
  is_position_table positions ->
  all_cells (fun x => x = Fin 0 \/ x = Fin 1) (shifted_pos positions).
Proof.
  intros H. apply shifted_pos_cells; [now left |].
  revert H. apply Forall_impl. intros dr. apply Forall_impl.
  intros v [-> | ->]; [now left | now right].
Qed.

(** No period return is missing. *)
Lemma daily_ret_notna fm prices :
  all_cells (fun x => is_nan x = false) (daily_ret fm prices).
Proof.
  unfold daily_ret.
  apply (all_cells_map_cells (fun _ => True)).
  - intros x _. unfold fillna0. now destruct (is_nan x) eqn:E.
  - unfold all_cells. apply Forall_forall. intros dr _.
    apply Forall_forall. auto.
Qed.

Lemma pct_cell_price x y :
  price_cell x -> y = NaN \/ price_cell y -> finite (fillna0 (pct_cell x y)).
Proof.
  intros Hx Hy. unfold pct_cell.
  destruct Hy as [-> | Hy]; [now rewrite fdiv_NaN_r |].
  destruct x as [| | | a], y as [| | | b]; simpl in *; try contradiction;
    try exact I.
  now rewrite fdiv_Fin.
Qed.

(** On present prices that are non-zero numbers every period return is a
    number. *)
Lemma daily_ret_finite fm prices :
  all_cells price_cell prices -> all_cells finite (daily_ret fm prices).
Proof.
  intros H. unfold daily_ret, pct_change.
  set (data := match fm with FillPad => ffill prices | FillNone => prices end).
  assert (D : all_cells price_cell data).
  { destruct fm; auto. apply all_cells_ffill_from; auto; exact I. }
  apply (all_cells_map_cells (fun x => finite (fillna0 x))); [auto |].
  apply (all_cells_frame_zip price_cell (fun x => x = NaN \/ price_cell x));
    [apply pct_cell_price | exact D | now apply all_cells_shift1].
Qed.

(* ------------------------------------------------------------------ *)
(** ** The divisor of the gross return *)

Lemma row_sum_zero_one r :
  Forall (fun x => x = Fin 0 \/ x = Fin 1) r ->
  exists n : nat,
    row_sum r = Fin (INR n) /\ (n = 0%nat -> Forall (fun x => x = Fin 0) r).
Proof.
  intros H.
  assert (E : exists rs, r = map Fin rs /\ Forall (fun x => x = 0 \/ x = 1) rs).
  { induction H as [| x r Hx _ [rs [-> Hrs]]].
    - exists []. split; [reflexivity | constructor].
    - destruct Hx as [-> | ->].
      + exists (0 :: rs). split; [reflexivity | constructor; auto].
      + exists (1 :: rs). split; [reflexivity | constructor; auto]. }
  destruct E as [rs [-> Hrs]]. clear H. rewrite row_sum_Fin.
  induction Hrs as [| x rs Hx _ [n [En Zn]]].
  - exists 0%nat. split; [reflexivity | constructor].
  - rewrite Rsum_cons. injection En as En. rewrite En.
    destruct Hx as [-> | ->].
    + exists n. split; [f_equal; lra |].
      intros N. simpl. constructor; auto.
    + exists (S n). split; [rewrite S_INR; f_equal; lra | discriminate].
Qed.

Lemma fmul_zero_l y : fmul (Fin 0) y = Fin 0 \/ fmul (Fin 0) y = NaN.
Proof.
  destruct y as [| | | b]; auto.
  - right. unfold fmul, inf_times. destruct (Req_dec_T 0 0); [reflexivity | lra].
  - right. unfold fmul, inf_times. destruct (Req_dec_T 0 0); [reflexivity | lra].
  - left. rewrite fmul_Fin. f_equal. lra.
Qed.

Lemma zip_with_fmul_zeros ra rb :
  Forall (fun x => x = Fin 0) ra ->
  Forall (fun x => x = Fin 0 \/ x = NaN) (zip_with fmul ra rb).
Proof.
  intros H. revert rb.
  induction H as [| x ra -> _ IH]; intros [| y rb]; simpl; constructor; auto.
  apply fmul_zero_l.
Qed.

Lemma get_n_open positions d ra :
  lookup d (shifted_pos positions) = Some ra ->
  get (n_open positions) d = replace_0_1 (row_sum ra).
Proof.
  intros L. unfold n_open. rewrite get_map_rows, lookup_map_rows, L.
  reflexivity.
Qed.

Lemma get_gross_ret fm prices positions d ra :
  lookup d (shifted_pos positions) = Some ra ->
  get (gross_ret fm prices positions) d
  = fdiv (row_sum (product_row fm prices d ra)) (get (n_open positions) d).
Proof.
  intros L. pose proof (lookup_some_index _ _ _ L) as I.
  unfold gross_ret. rewrite get_series_op.
  - f_equal. rewrite get_map_rows, lookup_frame_mul by auto.
    rewrite L. unfold product_row.
    now destruct (lookup d (daily_ret fm prices)).
  - right. now rewrite index_n_open, <- index_shifted_pos.
Qed.

(** C7.  At every date of the position table the row [ra] of lagged
    positions holds indicators (0 or 1), their sum is the number [n] of
    open positions, the divisor of the gross return is [n], or 1 when [n]
    is 0, so it is never 0; and when no lagged position is open the gross
    return of the date is exactly 0. *)
Theorem n_open_divisor fm prices positions d ra :
  is_position_table positions ->
  lookup d (shifted_pos positions) = Some ra ->
  Forall (fun x => x = Fin 0 \/ x = Fin 1) ra
  /\ exists n : nat,
       row_sum ra = Fin (INR n)
       /\ get (n_open positions) d = Fin (if (n =? 0)%nat then 1 else INR n)
       /\ (if (n =? 0)%nat then 1 else INR n) <> 0
       /\ get (gross_ret fm prices positions) d
          = fdiv (row_sum (product_row fm prices d ra))
                 (Fin (if (n =? 0)%nat then 1 else INR n))
       /\ (n = 0%nat -> get (gross_ret fm prices positions) d = Fin 0).
Proof.
  intros HP L.
  pose proof (all_cells_lookup _ _ _ _ (shifted_pos_zero_one _ HP) L) as C.
  split; [exact C |].
  destruct (row_sum_zero_one _ C) as [n [S Z]]. exists n.
  assert (N : get (n_open positions) d
              = Fin (if (n =? 0)%nat then 1 else INR n)).
  { rewrite (get_n_open _ _ _ L), S. unfold replace_0_1.
    destruct n as [| n]; simpl Nat.eqb; cbv iota.
    - now rewrite is_zero_Fin_true.
    - rewrite is_zero_Fin_false; auto.
      apply not_0_INR. discriminate. }
  assert (NZ : (if (n =? 0)%nat then 1 else INR n) <> 0).
  { destruct n as [| n]; simpl Nat.eqb; cbv iota; [lra |].
    apply not_0_INR. discriminate. }
  rewrite (get_gross_ret _ _ _ _ _ L), N.
  repeat split; auto.
  intros ->. simpl Nat.eqb. cbv iota.
  assert (E : row_sum (product_row fm prices d ra) = Fin 0).
  { apply row_sum_zero_or_NaN. unfold product_row.
    destruct (lookup d (daily_ret fm prices)) as [rb |].
    - apply zip_with_fmul_zeros. auto.
    - apply Forall_map. apply Forall_forall. auto. }
  rewrite E, fdiv_Fin by lra. f_equal. lra.
Qed.

Lemma n_open_divisor_witness :
  Forall (fun x => x = Fin 0 \/ x = Fin 1) [Fin 0; Fin 0]
  /\ exists n : nat,
       row_sum [Fin 0; Fin 0] = Fin (INR n)
       /\ get (n_open [(1%Z, [1%Z; 0%Z]); (2%Z, [0%Z; 0%Z])]) 1%Z
          = Fin (if (n =? 0)%nat then 1 else INR n)
       /\ (if (n =? 0)%nat then 1 else INR n) <> 0
       /\ get (gross_ret FillNone prices_AB
                 [(1%Z, [1%Z; 0%Z]); (2%Z, [0%Z; 0%Z])]) 1%Z
          = fdiv (row_sum (product_row FillNone prices_AB 1%Z [Fin 0; Fin 0]))
                 (Fin (if (n =? 0)%nat then 1 else INR n))
       /\ (n = 0%nat ->
           get (gross_ret FillNone prices_AB
                  [(1%Z, [1%Z; 0%Z]); (2%Z, [0%Z; 0%Z])]) 1%Z = Fin 0).
Proof.
  apply (n_open_divisor FillNone prices_AB
           [(1%Z, [1%Z; 0%Z]); (2%Z, [0%Z; 0%Z])] 1%Z [Fin 0; Fin 0]).
  - unfold is_position_table, all_cells.
    repeat (apply Forall_cons || apply Forall_nil); simpl; auto.
  - reflexivity.
Defined.

(* ------------------------------------------------------------------ *)
(** ** The first date *)

Lemma fill_row_nil r : fill_row is_nan NaN [] r = r.
Proof.
  induction r as [| x r IH]; simpl; auto.
  rewrite IH. now destruct x.
Qed.

Lemma zip_with_pct_cell_NaN r :
  map fillna0 (zip_with pct_cell r (map (fun _ => NaN) r))
  = map (fun _ => Fin 0) r.
Proof.
  induction r as [| x r IH]; simpl; auto.
  rewrite IH. unfold pct_cell. now rewrite fdiv_NaN_r, fsub_NaN_l.
Qed.

Lemma daily_ret_first fm d pr prices' :
  exists t,
    daily_ret fm ((d, pr) :: prices') = (d, map (fun _ => Fin 0) pr) :: t.
Proof.
  unfold daily_ret, pct_change, map_cells, map_rows, frame_zip.
  destruct fm; simpl.
  - rewrite fill_row_nil, zip_with_pct_cell_NaN. eauto.
  - rewrite zip_with_pct_cell_NaN. eauto.
Qed.

Lemma shifted_pos_first d qr positions' :
  exists t,
    shifted_pos ((d, qr) :: positions') = (d, map (fun _ => Fin 0) qr) :: t.
Proof.
  unfold shifted_pos, map_cells, map_rows. simpl.
  rewrite !map_map. simpl. eauto.
Qed.

Lemma row_sum_zeros {A} (l : list A) : row_sum (map (fun _ => Fin 0) l) = Fin 0.
Proof.
  apply row_sum_zero_or_NaN. apply Forall_map, Forall_forall. auto.
Qed.

Lemma diff_first_row l :
  Forall (fun x => x = NaN)
         (map fabs (zip_with fsub l (map (fun _ => NaN) l))).
Proof.
  induction l as [| x l IH]; simpl; constructor; auto.
  now rewrite fsub_NaN_r.
Qed.

Lemma trades_first d qr positions' :
  exists t, trades ((d, qr) :: positions') = (d, Fin 0) :: t.
Proof.
  destruct (shifted_pos_first d qr positions') as [t E].
  unfold trades, diff. rewrite E. unfold map_cells, map_rows, frame_zip.
  simpl. eexists. f_equal. f_equal.
  apply row_sum_all_NaN. apply diff_first_row.
Qed.

Lemma lookup_head {A} d (a : A) t : lookup d ((d, a) :: t) = Some a.
Proof. simpl. now rewrite Z.eqb_refl. Qed.

Lemma get_head d x s : get ((d, x) :: s) d = x.
Proof. unfold get. now rewrite lookup_head. Qed.

Lemma index_union_heads d a b :
  index_union (d :: a) (d :: b) = d :: index_union a b.
Proof. simpl. now rewrite Z.ltb_irrefl. Qed.

Lemma strat_ret_first fm d pr prices' qr positions' cost :
  exists t,
    strat_ret fm ((d, pr) :: prices') ((d, qr) :: positions') cost
    = (d, Fin 0) :: t.
Proof.
  set (prices := (d, pr) :: prices'). set (positions := (d, qr) :: positions').
  assert (I : In d (index (shifted_pos positions))).
  { rewrite index_shifted_pos. now left. }
  destruct (shifted_pos_first d qr positions') as [ts Es].
  destruct (daily_ret_first fm d pr prices') as [td Ed].
  destruct (trades_first d qr positions') as [tt Et].
  fold prices in Ed. fold positions in Es, Et.
  assert (Ls : lookup d (shifted_pos positions) = Some (map (fun _ => Fin 0) qr)).
  { rewrite Es. apply lookup_head. }
  assert (G : get (gross_ret fm prices positions) d = Fin 0).
  { rewrite (get_gross_ret _ _ _ _ _ Ls), (get_n_open _ _ _ Ls).
    rewrite row_sum_zeros. unfold replace_0_1.
    rewrite is_zero_Fin_true by reflexivity.
    unfold product_row. rewrite Ed, lookup_head.
    rewrite (row_sum_zero_or_NaN
               (zip_with fmul (map (fun _ => Fin 0) qr) (map (fun _ => Fin 0) pr))).
    - rewrite fdiv_Fin by lra. f_equal. lra.
    - apply zip_with_fmul_zeros. apply Forall_map, Forall_forall. auto. }
  assert (X : index (gross_ret fm prices positions)
              = d :: index_union (index_union (index ts) (index td)) (index ts)).
  { unfold gross_ret. rewrite index_series_op, index_map_rows, index_frame_mul.
    unfold n_open. rewrite !index_map_rows, Es, Ed. simpl index.
    now rewrite !index_union_heads. }
  unfold strat_ret, series_op. rewrite X, index_map_rows, Et. simpl index.
  rewrite index_union_heads. simpl map. eexists. f_equal. f_equal.
  rewrite G, get_head, fmul_Fin, fsub_Fin. f_equal. lra.
Qed.

Lemma cum_of_first d s :
  exists t, cum_of ((d, Fin 0) :: s) = (d, Fin 0) :: t.
Proof.
  unfold cum_of, cumprod, map_rows. simpl.
  rewrite fadd_Fin. simpl. rewrite fmul_Fin, fsub_Fin.
  eexists. f_equal. f_equal. f_equal. lra.
Qed.

(** C9, amended.  For prices and positions that start at the same date [d], at
    that first date every instrument's period return is 0, the turnover is
    0, the net strategy return is 0 and the cumulative return is 0. *)
Theorem backtest_first_date fm d pr prices' qr positions' cost_per_trade :
  let prices := (d, pr) :: prices' in
  let positions := (d, qr) :: positions' in
  hd_error (daily_ret fm prices) = Some (d, map (fun _ => Fin 0) pr)
  /\ hd_error (trades positions) = Some (d, Fin 0)
  /\ hd_error (fst (backtest fm prices positions cost_per_trade))
     = Some (d, Fin 0)
  /\ hd_error (snd (backtest fm prices positions cost_per_trade))
     = Some (d, Fin 0).
Proof.
  intros prices positions. subst prices positions.
  destruct (daily_ret_first fm d pr prices') as [td ->].
  destruct (trades_first d qr positions') as [tt ->].
  unfold backtest.
  destruct (strat_ret_first fm d pr prices' qr positions' cost_per_trade)
    as [tr ->].
  destruct (cum_of_first d tr) as [tc ->].
  repeat split.
Qed.

(* ------------------------------------------------------------------ *)
(** ** Missing prices *)

Lemma fsub_finite x y : finite x -> finite y -> finite (fsub x y).
Proof. destruct x, y; simpl; try contradiction; intros; exact I. Qed.

Lemma fmul_finite x y : finite x -> finite y -> finite (fmul x y).
Proof. destruct x, y; simpl; try contradiction; intros; exact I. Qed.

Lemma fadd_finite x y : finite x -> finite y -> finite (fadd x y).
Proof. destruct x, y; simpl; try contradiction; intros; exact I. Qed.

Lemma row_sum_finite_or_NaN r :
  Forall (fun x => finite x \/ x = NaN) r -> finite (row_sum r).
Proof.
  intros H. unfold row_sum.
  assert (F : Forall finite (filter notna r)).
  { induction H as [| x r Hx _ IH]; simpl; [constructor |].
    destruct Hx as [Hx | ->]; simpl; auto.
    destruct x; simpl in *; try contradiction. constructor; simpl; auto. }
  destruct (Forall_finite_inv _ F) as [rs ->]. now rewrite fsum_Fin.
Qed.

Lemma replace_0_1_nonzero x :
  finite x -> exists k, replace_0_1 x = Fin k /\ k <> 0.
Proof.
  destruct x as [| | | r]; simpl; try contradiction. intros _.
  unfold replace_0_1, is_zero. destruct (Req_dec_T r 0).
  - exists 1. split; [reflexivity | lra].
  - exists r. auto.
Qed.

Lemma trades_finite positions : all_finite (trades positions).
Proof.
  unfold trades, all_finite, map_rows. apply Forall_map. simpl.
  assert (D : all_cells (fun x => finite x \/ x = NaN)
                (map_cells fabs (diff (shifted_pos positions)))).
  { apply (all_cells_map_cells (fun x => finite x \/ x = NaN)).
    - intros x [Hx | ->]; [left | now right]. now destruct x.
    - apply (all_cells_frame_zip finite (fun y => y = NaN \/ finite y)).
      + intros x y Hx [-> | Hy].
        * right. apply fsub_NaN_r.
        * left. now apply fsub_finite.
      + apply shifted_pos_finite.
      + apply all_cells_shift1, shifted_pos_finite. }
  revert D. apply Forall_impl. intros dr. apply row_sum_finite_or_NaN.
Qed.

Lemma all_finite_lookup s d x : all_finite s -> lookup d s = Some x -> finite x.
Proof.
  intros H L. apply lookup_some_in in L.
  unfold all_finite in H. rewrite Forall_forall in H. apply (H _ L).
Qed.

Lemma gross_ret_finite fm prices positions d :
  all_cells price_cell prices ->
  In d (index prices) -> In d (index positions) ->
  finite (get (gross_ret fm prices positions) d).
Proof.
  intros HP Ip Iq.
  rewrite <- (index_daily_ret fm) in Ip. rewrite <- index_shifted_pos in Iq.
  destruct (lookup_in_index _ _ Ip) as [rb Lb].
  destruct (lookup_in_index _ _ Iq) as [ra La].
  rewrite (get_gross_ret _ _ _ _ _ La), (get_n_open _ _ _ La).
  pose proof (all_cells_lookup _ _ _ _ (shifted_pos_finite positions) La) as Fa.
  pose proof (all_cells_lookup _ _ _ _ (daily_ret_finite fm _ HP) Lb) as Fb.
  destruct (replace_0_1_nonzero _ (row_sum_finite _ Fa)) as [k [-> NZ]].
  unfold product_row. rewrite Lb.
  assert (F : finite (row_sum (zip_with fmul ra rb))).
  { apply row_sum_finite.
    apply (Forall_zip_with finite finite finite fmul); auto.
    apply fmul_finite. }
  destruct (finite_inv _ F) as [s ->]. now rewrite fdiv_Fin.
Qed.

Lemma strat_ret_finite fm prices positions cost :
  index prices = index positions ->
  all_cells price_cell prices ->
  all_finite (strat_ret fm prices positions cost).
Proof.
  intros HI HP. unfold all_finite, strat_ret, series_op.
  apply Forall_map, Forall_forall. intros d Hd. simpl.
  assert (Iq : In d (index positions)).
  { apply in_index_union in Hd. rewrite index_map_rows, index_trades in Hd.
    destruct Hd as [Hd | Hd]; auto.
    unfold gross_ret in Hd.
    rewrite index_series_op, index_map_rows, index_frame_mul in Hd.
    rewrite index_n_open, index_shifted_pos, index_daily_ret in Hd.
    apply in_index_union in Hd. destruct Hd as [Hd | Hd]; auto.
    apply in_index_union in Hd. destruct Hd as [Hd | Hd]; auto.
    unfold index in *. now rewrite <- HI. }
  apply fsub_finite.
  - apply gross_ret_finite; auto. unfold index in *. now rewrite HI.
  - rewrite get_map_rows.
    rewrite <- index_trades in Iq. destruct (lookup_in_index _ _ Iq) as [x Lx].
    rewrite Lx. apply fmul_finite; [| exact I].
    apply (all_finite_lookup _ _ _ (trades_finite positions) Lx).
Qed.

Lemma cumprod_from_finite acc s :
  finite acc -> all_finite s -> all_finite (cumprod_from acc s).
Proof.
  intros Ha Hs. revert acc Ha. unfold all_finite in *.
  induction Hs as [| [d x] s Hx _ IH]; intros acc Ha; simpl; [constructor |].
  simpl in Hx. destruct x; simpl in *; try contradiction.
  constructor; simpl.
  - now apply fmul_finite.
  - apply IH. now apply fmul_finite.
Qed.

Lemma cum_of_finite s : all_finite s -> all_finite (cum_of s).
Proof.
  intros H. unfold cum_of, all_finite, map_rows. apply Forall_map. simpl.
  assert (C : all_finite (cumprod (map (fun dr => (fst dr, fadd (Fin 1) (snd dr))) s))).
  { apply cumprod_from_finite; [exact I |].
    unfold all_finite. apply Forall_map. simpl.
    revert H. apply Forall_impl. intros dx Hx. now apply fadd_finite. }
  revert C. apply Forall_impl. intros dx Hx. now apply fsub_finite.
Qed.

Lemma ret_cell_missing x prev :
  x = NaN \/ prev = NaN -> ret_cell x prev = Fin 0.
Proof.
  unfold ret_cell, pct_cell.
  intros [-> | ->]; [reflexivity | now rewrite fdiv_NaN_r].
Qed.

Lemma nth_error_shift_from_cons {A} (p : A) d t i :
  nth_error (shift_from p t) i
  = match nth_error ((d, p) :: t) i, nth_error t i with
    | Some dr0, Some dr1 => Some (fst dr1, snd dr0)
    | _, _ => None
    end.
Proof.
  revert p d i. induction t as [| [d' r'] t IH]; intros p d i.
  - destruct i as [| i]; simpl; auto. destruct i; reflexivity.
  - destruct i as [| i]; simpl; auto.
Qed.

Lemma nth_error_shift1_S t i :
  nth_error (shift1 t) (S i)
  = match nth_error t i, nth_error t (S i) with
    | Some dr0, Some dr1 => Some (fst dr1, snd dr0)
    | _, _ => None
    end.
Proof.
  destruct t as [| [d r] t]; [now destruct i |].
  change (shift1 ((d, r) :: t)) with ((d, map (fun _ => NaN) r) :: shift_from r t).
  simpl nth_error at 1 3. apply nth_error_shift_from_cons.
Qed.

(** Without gap filling, the row of period returns at a date is computed
    cell by cell from the prices of the date and of the date before. *)
Lemma daily_ret_next prices i d0 r0 d1 r1 :
  nth_error prices i = Some (d0, r0) ->
  nth_error prices (S i) = Some (d1, r1) ->
  nth_error (daily_ret FillNone prices) (S i)
  = Some (d1, zip_with ret_cell r1 r0).
Proof.
  intros H0 H1. unfold daily_ret, map_cells, pct_change, frame_zip.
  rewrite nth_error_map_rows, nth_error_zip_with, nth_error_shift1_S.
  rewrite H0, H1. simpl. f_equal. f_equal.
  clear. revert r0. induction r1 as [| x r1 IH]; intros [| y r0]; simpl; auto.
  now rewrite IH.
Qed.

(** C10.  [backtest] takes the prices as they are.  (1) Where the price of
    an instrument or its prior price is missing, the period return of the
    instrument at that date is exactly 0 ([pct_change] filling no gap, as
    from pandas 3.0 on), and so it is at the first date.  (2) A lagged
    position times such a return contributes 0 to the gross return.
    (3) No period return is missing, and when prices and positions have
    the same index and every present price is a non-zero number, every
    strategy return and every cumulative return is a number. *)
Theorem missing_price_zero_return :
  (forall prices i j d0 r0 d1 r1 x prev,
      nth_error prices i = Some (d0, r0) ->
      nth_error prices (S i) = Some (d1, r1) ->
      nth_error r1 j = Some x -> nth_error r0 j = Some prev ->
      x = NaN \/ prev = NaN ->
      exists row,
        nth_error (daily_ret FillNone prices) (S i) = Some (d1, row)
        /\ nth_error row j = Some (Fin 0))
  /\ (forall fm d r prices',
         hd_error (daily_ret fm ((d, r) :: prices'))
         = Some (d, map (fun _ => Fin 0) r))
  /\ (forall w x prev,
         finite w -> x = NaN \/ prev = NaN ->
         fmul w (ret_cell x prev) = Fin 0)
  /\ (forall fm prices,
         all_cells (fun x => is_nan x = false) (daily_ret fm prices))
  /\ (forall fm prices positions cost_per_trade,
         index prices = index positions ->
         all_cells price_cell prices ->
         all_finite (fst (backtest fm prices positions cost_per_trade))
         /\ all_finite (snd (backtest fm prices positions cost_per_trade))).
Proof.
  split; [| split; [| split; [| split]]].
  - intros prices i j d0 r0 d1 r1 x prev H0 H1 Hx Hp M.
    exists (zip_with ret_cell r1 r0). split.
    + now apply daily_ret_next with (d0 := d0).
    + rewrite nth_error_zip_with, Hx, Hp. f_equal.
      now apply ret_cell_missing.
  - intros fm d r prices'.
    now destruct (daily_ret_first fm d r prices') as [t ->].
  - intros w x prev Hw M. rewrite (ret_cell_missing _ _ M).
    destruct (finite_inv _ Hw) as [a ->]. rewrite fmul_Fin. f_equal. lra.
  - apply daily_ret_notna.
  - intros fm prices positions cost HI HP. unfold backtest. simpl.
    pose proof (strat_ret_finite fm prices positions cost HI HP) as F.
    split; [exact F | now apply cum_of_finite].
Qed.

Lemma missing_price_zero_return_witness :
  (exists row,
      nth_error (daily_ret FillNone prices_gap) 1 = Some (2%Z, row)
      /\ nth_error row 0 = Some (Fin 0))
  /\ all_finite (fst (backtest FillNone prices_gap
                        [(1%Z, [1%Z; 0%Z]); (2%Z, [1%Z; 1%Z]); (3%Z, [0%Z; 1%Z])]
                        default_cost_per_trade))
  /\ all_finite (snd (backtest FillNone prices_gap
                        [(1%Z, [1%Z; 0%Z]); (2%Z, [1%Z; 1%Z]); (3%Z, [0%Z; 1%Z])]
                        default_cost_per_trade)).
Proof.
  destruct missing_price_zero_return as [A [_ [_ [_ C]]]].
  split.
  - apply (A prices_gap 0%nat 0%nat 1%Z [Fin 100; Fin 50] 2%Z [NaN; Fin 50]
             NaN (Fin 100)); try reflexivity.
    now left.
  - apply C; [reflexivity |].
    unfold all_cells, prices_gap.
    repeat (apply Forall_cons || apply Forall_nil); simpl; try exact I; lra.
Defined.

(** With the forward fill that [pct_change] applied by default before
    pandas 3.0, the return at a missing price is 0 as well, but the return
    after a gap is measured against the last known price. *)
Lemma daily_ret_after_gap :
  daily_ret FillNone prices_gap
  = [(1%Z, [Fin 0; Fin 0]); (2%Z, [Fin 0; Fin 0]); (3%Z, [Fin 0; Fin (1 / 10)])]
  /\ daily_ret FillPad prices_gap
     = [(1%Z, [Fin 0; Fin 0]); (2%Z, [Fin 0; Fin 0]);
        (3%Z, [Fin (1 / 10); Fin (1 / 10)])].
Proof.
  unfold daily_ret, pct_change, ffill, prices_gap.
  split; fl_eval; repeat (f_equal; try lra).
Qed.

(* ------------------------------------------------------------------ *)
(** ** Zero cross-sectional standard deviation *)

Lemma frame_op_series_rows f (g : list fl -> fl) t :
  frame_op_series f t (map_rows g t)
  = map_rows (fun r => map (fun c => f c (g r)) r) t.
Proof.
  unfold frame_op_series, map_rows.
  induction t as [| [d r] t IH]; simpl; auto. now rewrite IH.
Qed.

(** The z-score table, row by row of the gap-filled table. *)
Lemma compute_basket_zscores_rows price_df :
  compute_basket_zscores price_df = map_rows zscore_row (clean price_df).
Proof.
  unfold compute_basket_zscores. rewrite frame_op_series_rows.
  set (c := clean price_df). unfold frame_op_series, map_rows.
  induction c as [| [d r] c IH]; simpl; auto.
  rewrite IH. unfold zscore_row. now rewrite map_map.
Qed.

Lemma fadd_finite_inv a x : finite (fadd a x) -> finite a /\ finite x.
Proof. destruct a, x; simpl; auto. Qed.

Lemma fold_left_fadd_finite_inv l a s :
  fold_left fadd l a = Fin s -> finite a /\ Forall finite l.
Proof.
  revert a. induction l as [| x l IH]; intros a H; simpl in H.
  - subst a. split; [exact I | constructor].
  - destruct (IH _ H) as [Fa Fl].
    destruct (fadd_finite_inv _ _ Fa) as [Ha Hx]. auto.
Qed.

Lemma fsum_zero_nonneg l :
  Forall (fun y => match y with Fin t => 0 <= t | _ => True end) l ->
  fsum l = Fin 0 -> Forall (fun y => y = Fin 0) l.
Proof.
  intros N S.
  destruct (fold_left_fadd_finite_inv _ _ _ S) as [_ F].
  destruct (Forall_finite_inv _ F) as [ts ->].
  rewrite fsum_Fin in S. injection S as S.
  apply Forall_map. rewrite Forall_map in N.
  pose proof (Rsum_zero_nonneg ts N S) as Z.
  revert Z. apply Forall_impl. now intros t ->.
Qed.

Lemma square_nonneg e :
  match fmul e e with Fin t => 0 <= t | _ => True end.
Proof.
  destruct e as [| | | u]; try exact I. rewrite fmul_Fin. nra.
Qed.

Lemma square_zero_inv avg x :
  fmul (fsub avg x) (fsub avg x) = Fin 0 ->
  exists m, avg = Fin m /\ x = Fin m.
Proof.
  destruct avg as [| | | m], x as [| | | v]; try discriminate.
  rewrite fsub_Fin, fmul_Fin. intros H. injection H as H.
  exists m. split; [reflexivity |]. f_equal. nra.
Qed.

Lemma fsqrt_zero_inv v : fsqrt v = Fin 0 -> v = Fin 0.
Proof.
  destruct v as [| | | r]; try discriminate.
  unfold fsqrt. destruct (Rlt_dec r 0); [discriminate |].
  intros H. injection H as H. f_equal. apply sqrt_eq_0; lra.
Qed.

Lemma fdiv_zero_inv s k : k <> 0 -> fdiv s (Fin k) = Fin 0 -> s = Fin 0.
Proof.
  intros NZ. destruct s as [| | | a]; try discriminate.
  - unfold fdiv. destruct (Rlt_dec k 0); discriminate.
  - unfold fdiv. destruct (Rlt_dec k 0); discriminate.
  - rewrite fdiv_Fin by auto. intros H. injection H as H. f_equal.
    unfold Rdiv in H. apply Rmult_integral in H. destruct H as [H | H]; auto.
    exfalso. revert H. now apply Rinv_neq_0_compat.
Qed.

(** When the standard deviation of a row is 0, every present cell of the
    row equals the mean of the row. *)
Lemma row_std_zero_cells r :
  row_std r = Fin 0 ->
  exists m, row_mean r = Fin m
            /\ Forall (fun x => x = NaN \/ x = Fin m) r.
Proof.
  unfold row_std, row_var, row_mean. intros H.
  apply fsqrt_zero_inv in H.
  set (xs := filter notna r) in *.
  destruct (Nat.leb_spec (List.length xs) 1) as [L | L]; [discriminate |].
  set (avg := fdiv (fsum xs) (Fin (INR (List.length xs)))) in *.
  apply fdiv_zero_inv in H.
  2:{ apply lt_INR in L. change (INR 1) with 1 in L. lra. }
  apply fsum_zero_nonneg in H.
  2:{ apply Forall_map, Forall_forall. intros x _. apply square_nonneg. }
  rewrite Forall_map in H.
  assert (NE : xs <> []) by (intros E; rewrite E in L; simpl in L; lia).
  assert (M : exists m, avg = Fin m).
  { destruct xs as [| x xs']; [contradiction |].
    inversion H as [| ? ? Hx _]; subst.
    destruct (square_zero_inv _ _ Hx) as [m [E _]]. eauto. }
  destruct M as [m M]. exists m. split.
  - destruct xs; [contradiction | exact M].
  - apply Forall_forall. intros x Hx.
    destruct (is_nan x) eqn:N; [left; now destruct x |]. right.
    assert (I : In x xs).
    { apply filter_In. split; auto. unfold notna. now rewrite N. }
    rewrite Forall_forall in H. specialize (H _ I).
    destruct (square_zero_inv _ _ H) as [m' [E ->]].
    rewrite M in E. now injection E as ->.
Qed.

Lemma zscore_row_zero_std r :
  row_std r = Fin 0 -> Forall (fun z => z = NaN) (zscore_row r).
Proof.
  intros H. destruct (row_std_zero_cells r H) as [m [M C]].
  unfold zscore_row. rewrite H, M. apply Forall_map.
  revert C. apply Forall_impl. intros x [-> | ->].
  - reflexivity.
  - rewrite fsub_Fin. apply fdiv_Fin_0_0; lra.
Qed.

Lemma compute_basket_zscores_flat :
  compute_basket_zscores prices_flat
  = [(1%Z, [NaN; NaN]); (2%Z, [NaN; NaN])].
Proof.
  unfold compute_basket_zscores, clean, prices_flat. fl_eval.
  sqrt_is 0. fl_eval. reflexivity.
Qed.

Lemma pipeline_flat fm :
  pipeline fm prices_flat
  = ([(1%Z, Fin 0); (2%Z, Fin 0)], [(1%Z, Fin 0); (2%Z, Fin 0)]).
Proof.
  unfold pipeline. rewrite compute_basket_zscores_flat.
  rewrite generate_positions_cells. unfold position_cell.
  unfold default_entry_thresh, default_exit_thresh, default_cost_per_trade.
  unfold backtest, cum_of, cumprod, strat_ret, gross_ret, trades, n_open,
    shifted_pos, daily_ret, pct_change, diff, series_op, frame_mul, ffill,
    prices_flat.
  destruct fm; fl_eval; repeat (f_equal; try lra).
Qed.

(* ------------------------------------------------------------------ *)
(** ** Two runs that differ at one date *)

Lemma lookup_notin {A} (t : list (date * A)) d :
  ~ In d (index t) -> lookup d t = None.
Proof.
  induction t as [| [d' a] t IH]; simpl; auto.
  intros N. destruct (Z.eqb_spec d d') as [-> | _]; [tauto | auto].
Qed.

Lemma lookup_app_notin {A} (x y : list (date * A)) d :
  ~ In d (index y) -> lookup d (x ++ y) = lookup d x.
Proof.
  intros N. induction x as [| [d' a] x IH]; simpl.
  - now apply lookup_notin.
  - now destruct (d =? d')%Z.
Qed.

Lemma lookup_prefix_ext {A} (X Z : list (date * A)) J d :
  prefix_ext X Z J -> ~ In d J -> lookup d Z = lookup d X.
Proof.
  intros [Y [-> I]] N. apply lookup_app_notin. intros H. apply N, I, H.
Qed.

Lemma lookup_series_op f a b d :
  lookup d (series_op f a b)
  = match lookup d a, lookup d b with
    | None, None => None
    | _, _ => Some (f (get a d) (get b d))
    end.
Proof.
  unfold series_op.
  destruct (lookup d a) as [x |] eqn:La.
  - apply (lookup_labelled (fun d' => f (get a d') (get b d'))).
    apply in_index_union. left. eapply lookup_some_index; eauto.
  - destruct (lookup d b) as [y |] eqn:Lb.
    + apply (lookup_labelled (fun d' => f (get a d') (get b d'))).
      apply in_index_union. right. eapply lookup_some_index; eauto.
    + apply lookup_notin. rewrite index_labelled. intros H.
      apply in_index_union in H. destruct H as [H | H];
        apply lookup_in_index in H; destruct H as [z H]; congruence.
Qed.

Lemma lookup_frame_mul_rows a b d :
  lookup d (frame_mul a b)
  = match lookup d a, lookup d b with
    | Some ra, Some rb => Some (zip_with fmul ra rb)
    | Some ra, None | None, Some ra => Some (map (fun _ => NaN) ra)
    | None, None => None
    end.
Proof.
  destruct (lookup d a) as [ra |] eqn:La; [| destruct (lookup d b) as [rb |] eqn:Lb].
  - rewrite lookup_frame_mul, La; [now destruct (lookup d b) |].
    left. eapply lookup_some_index; eauto.
  - rewrite lookup_frame_mul, La, Lb; [reflexivity |].
    right. eapply lookup_some_index; eauto.
  - apply lookup_notin. unfold frame_mul. rewrite index_labelled. intros H.
    apply in_index_union in H. destruct H as [H | H];
      apply lookup_in_index in H; destruct H as [z H]; congruence.
Qed.

(** Agreement of two runs at a label carries over the aligned
    operators. *)
Lemma get_same (a a' : list (Z * fl)) d :
  lookup d a = lookup d a' -> get a d = get a' d.
Proof. unfold get. now intros ->. Qed.

Lemma series_op_same f a a' b b' d :
  lookup d a = lookup d a' -> lookup d b = lookup d b' ->
  lookup d (series_op f a b) = lookup d (series_op f a' b').
Proof.
  intros Ha Hb. rewrite !lookup_series_op.
  now rewrite (get_same _ _ _ Ha), (get_same _ _ _ Hb), Ha, Hb.
Qed.

Lemma frame_mul_same a a' b b' d :
  lookup d a = lookup d a' -> lookup d b = lookup d b' ->
  lookup d (frame_mul a b) = lookup d (frame_mul a' b').
Proof. intros Ha Hb. rewrite !lookup_frame_mul_rows. now rewrite Ha, Hb. Qed.

Lemma map_rows_same {A B} (f : A -> B) t t' d :
  lookup d t = lookup d t' ->
  lookup d (map_rows f t) = lookup d (map_rows f t').
Proof. intros H. rewrite !lookup_map_rows. now rewrite H. Qed.

(** The positional primitives extend their result when rows are
    appended to their argument. *)
Lemma prefix_ext_refl {A} (X Y : list (date * A)) :
  prefix_ext X (X ++ Y) (index Y).
Proof. exists Y. split; [reflexivity | apply incl_refl]. Qed.

Lemma index_app {A} (x y : list (date * A)) :
  index (x ++ y) = index x ++ index y.
Proof. unfold index. apply map_app. Qed.

Lemma prefix_ext_map_rows {A B} (f : A -> B) X Z J :
  prefix_ext X Z J -> prefix_ext (map_rows f X) (map_rows f Z) J.
Proof.
  intros [Y [-> I]]. exists (map_rows f Y). split.
  - unfold map_rows. apply map_app.
  - now rewrite index_map_rows.
Qed.

Lemma prefix_ext_dropna_all X Z J :
  prefix_ext X Z J -> prefix_ext (dropna_all X) (dropna_all Z) J.
Proof.
  intros [Y [-> I]]. exists (dropna_all Y). split.
  - unfold dropna_all. apply filter_app.
  - intros d H. apply I. unfold index, dropna_all in *.
    apply in_map_iff in H. destruct H as [dr [E H]].
    apply filter_In in H. apply in_map_iff. exists dr. tauto.
Qed.

Lemma ffill_from_app {A} (isna : A -> bool) na prev a b :
  exists st,
    ffill_from isna na prev (a ++ b)
    = ffill_from isna na prev a ++ ffill_from isna na st b.
Proof.
  revert prev. induction a as [| [d r] a IH]; intros prev; simpl.
  - now exists prev.
  - destruct (IH (fill_row isna na prev r)) as [st E]. exists st.
    now rewrite E.
Qed.

Lemma prefix_ext_ffill X Z J :
  prefix_ext X Z J -> prefix_ext (ffill X) (ffill Z) J.
Proof.
  intros [Y [-> I]]. unfold ffill, ffill_gen.
  destruct (ffill_from_app is_nan NaN [] X Y) as [st E].
  exists (ffill_from is_nan NaN st Y). split; [exact E |].
  now rewrite index_ffill_from.
Qed.

Lemma shift_from_app {A} (p : A) a b :
  exists p',
    shift_from p (a ++ b) = shift_from p a ++ shift_from p' b.
Proof.
  revert p. induction a as [| [d r] a IH]; intros p; simpl.
  - now exists p.
  - destruct (IH r) as [p' E]. exists p'. now rewrite E.
Qed.

Lemma prefix_ext_shift1 X Z J :
  prefix_ext X Z J -> prefix_ext (shift1 X) (shift1 Z) J.
Proof.
  intros [Y [-> I]]. destruct X as [| [d r] X].
  - exists (shift1 Y). split; [reflexivity |]. now rewrite index_shift1.
  - simpl. destruct (shift_from_app r X Y) as [p' E].
    exists (shift_from p' Y). split.
    + now rewrite E.
    + now rewrite index_shift_from.
Qed.

Lemma zip_with_app {A B C} (f : A -> B -> C) a b a' b' :
  List.length a = List.length a' ->
  zip_with f (a ++ b) (a' ++ b') = zip_with f a a' ++ zip_with f b b'.
Proof.
  revert a'. induction a as [| x a IH]; intros [| y a'] H; simpl in *;
    try discriminate; auto.
  injection H as H. now rewrite IH.
Qed.

Lemma length_index {A} (t : list (date * A)) :
  List.length (index t) = List.length t.
Proof. unfold index. apply length_map. Qed.

(** A cell-wise operator between a table and its own shift. *)
Lemma prefix_ext_zip_shift1 f X Z J :
  prefix_ext X Z J ->
  prefix_ext (frame_zip f X (shift1 X)) (frame_zip f Z (shift1 Z)) J.
Proof.
  intros H. destruct (prefix_ext_shift1 _ _ _ H) as [Y' [E' I']].
  destruct H as [Y [-> I]]. rewrite E'.
  exists (frame_zip f Y Y'). split.
  - unfold frame_zip. apply zip_with_app.
    now rewrite <- (length_index X), <- (length_index (shift1 X)), index_shift1.
  - intros d H. apply I. revert H. unfold frame_zip, index.
    clear. revert Y'. induction Y as [| [dy ry] Y IH]; intros [| y' Y'] H;
      simpl in *; try contradiction.
    destruct H as [H | H]; eauto.
Qed.

Lemma prefix_ext_pct_change fm X Z J :
  prefix_ext X Z J -> prefix_ext (pct_change fm X) (pct_change fm Z) J.
Proof.
  intros H. unfold pct_change. apply prefix_ext_zip_shift1.
  destruct fm; [now apply prefix_ext_ffill | exact H].
Qed.

Lemma prefix_ext_daily_ret fm X Z J :
  prefix_ext X Z J -> prefix_ext (daily_ret fm X) (daily_ret fm Z) J.
Proof.
  intros H. unfold daily_ret, map_cells.
  now apply prefix_ext_map_rows, prefix_ext_pct_change.
Qed.

Lemma prefix_ext_shifted_pos X Z J :
  prefix_ext X Z J -> prefix_ext (shifted_pos X) (shifted_pos Z) J.
Proof.
  intros H. unfold shifted_pos, map_cells.
  now apply prefix_ext_map_rows, prefix_ext_shift1, prefix_ext_map_rows.
Qed.

Lemma prefix_ext_n_open X Z J :
  prefix_ext X Z J -> prefix_ext (n_open X) (n_open Z) J.
Proof.
  intros H. unfold n_open.
  now apply prefix_ext_map_rows, prefix_ext_map_rows, prefix_ext_shifted_pos.
Qed.

Lemma prefix_ext_trades X Z J :
  prefix_ext X Z J -> prefix_ext (trades X) (trades Z) J.
Proof.
  intros H. unfold trades, map_cells, diff.
  now apply prefix_ext_map_rows, prefix_ext_map_rows, prefix_ext_zip_shift1,
    prefix_ext_shifted_pos.
Qed.

Lemma prefix_ext_compute_basket_zscores X Z J :
  prefix_ext X Z J ->
  prefix_ext (compute_basket_zscores X) (compute_basket_zscores Z) J.
Proof.
  intros H. rewrite !compute_basket_zscores_rows. unfold clean.
  now apply prefix_ext_map_rows, prefix_ext_dropna_all, prefix_ext_ffill.
Qed.

Lemma prefix_ext_generate_positions X Z J e x :
  prefix_ext X Z J ->
  prefix_ext (generate_positions X e x) (generate_positions Z e x) J.
Proof.
  intros H. rewrite !generate_positions_cells. unfold map_cells.
  now apply prefix_ext_map_rows.
Qed.

(** The strategy return at a date is decided by the rows up to that
    date. *)
Lemma strat_ret_prefix fm P PZ Q QZ J cost d :
  prefix_ext P PZ J -> prefix_ext Q QZ J -> ~ In d J ->
  lookup d (strat_ret fm PZ QZ cost) = lookup d (strat_ret fm P Q cost).
Proof.
  intros HP HQ N. unfold strat_ret, gross_ret.
  apply series_op_same; [apply series_op_same |].
  - apply map_rows_same, frame_mul_same.
    + apply (lookup_prefix_ext _ _ J); auto. now apply prefix_ext_shifted_pos.
    + apply (lookup_prefix_ext _ _ J); auto. now apply prefix_ext_daily_ret.
  - apply (lookup_prefix_ext _ _ J); auto. now apply prefix_ext_n_open.
  - apply map_rows_same.
    apply (lookup_prefix_ext _ _ J); auto. now apply prefix_ext_trades.
Qed.

Lemma increasing_app_inv (a : list Z) x b :
  increasing (a ++ x :: b) -> Forall (Z.lt x) b.
Proof.
  unfold increasing. induction a as [| y a IH]; simpl; intros H.
  - now inversion H.
  - inversion H; subst. auto.
Qed.

Lemma not_in_tail {A} (pre : list (Z * A)) T r post d :
  increasing (index (pre ++ (T, r) :: post)) -> (d < T)%Z ->
  ~ In d (T :: index post).
Proof.
  intros S L. rewrite index_app in S. simpl in S.
  apply increasing_app_inv in S. rewrite Forall_forall in S.
  intros [E | I]; [lia |]. specialize (S _ I). lia.
Qed.

Lemma pipeline_prefix fm pre tail d :
  ~ In d (index tail) ->
  lookup d (fst (pipeline fm (pre ++ tail))) = lookup d (fst (pipeline fm pre)).
Proof.
  intros N. cbv beta iota zeta delta [pipeline backtest fst].
  apply (strat_ret_prefix fm _ _ _ _ (index tail)); auto.
  - apply prefix_ext_refl.
  - apply prefix_ext_generate_positions, prefix_ext_compute_basket_zscores,
      prefix_ext_refl.
Qed.

Ltac eval_backtest :=
  unfold default_entry_thresh, default_exit_thresh, default_cost_per_trade;
  unfold backtest, strat_ret, gross_ret, trades, n_open,
    shifted_pos, daily_ret, pct_change, diff, series_op, frame_mul, ffill;
  fl_eval; repeat (f_equal; try lra).

(** In both runs the cheap instrument has z-score -3/2 at both dates, the
    three others 1/2. *)
Lemma compute_basket_zscores_run1 :
  compute_basket_zscores prices_run1
  = [(1%Z, [Fin (-3 / 2); Fin (1 / 2); Fin (1 / 2); Fin (1 / 2)]);
     (2%Z, [Fin (-3 / 2); Fin (1 / 2); Fin (1 / 2); Fin (1 / 2)])].
Proof.
  unfold compute_basket_zscores, clean, prices_run1. fl_eval.
  sqrt_is 2. sqrt_is (3 / 2). fl_eval.
  repeat (f_equal; try lra).
Qed.

Lemma compute_basket_zscores_run2 :
  compute_basket_zscores prices_run2
  = [(1%Z, [Fin (-3 / 2); Fin (1 / 2); Fin (1 / 2); Fin (1 / 2)]);
     (2%Z, [Fin (-3 / 2); Fin (1 / 2); Fin (1 / 2); Fin (1 / 2)])].
Proof.
  unfold compute_basket_zscores, clean, prices_run2. fl_eval.
  sqrt_is 2. sqrt_is 1. fl_eval.
  repeat (f_equal; try lra).
Qed.

Lemma pipeline_run1 fm :
  fst (pipeline fm prices_run1) = [(1%Z, Fin 0); (2%Z, Fin (1 - 5 / 10000))].
Proof.
  unfold pipeline. rewrite compute_basket_zscores_run1.
  rewrite generate_positions_cells. unfold position_cell, prices_run1.
  destruct fm; eval_backtest.
Qed.

Lemma pipeline_run2 fm :
  fst (pipeline fm prices_run2) = [(1%Z, Fin 0); (2%Z, Fin (2 - 5 / 10000))].
Proof.
  unfold pipeline. rewrite compute_basket_zscores_run2.
  rewrite generate_positions_cells. unfold position_cell, prices_run2.
  destruct fm; eval_backtest.
Qed.

(** C2, the claim as stated fails: [prices_run1] and [prices_run2] differ
    only in one price at date 2, and the strategy return of the period
    ending at date 2 is [1 - 0.0005] in one run, [2 - 0.0005] in the
    other: the instrument held over the period (bought on the signal of
    date 1) earns its own return of date 2. *)
Lemma strategy_return_depends_on_price_at_T :
  differ_only_at 2 prices_run1 prices_run2
  /\ (forall fm,
         get (fst (pipeline fm prices_run1)) 2%Z = Fin (1 - 5 / 10000)
         /\ get (fst (pipeline fm prices_run2)) 2%Z = Fin (2 - 5 / 10000))
  /\ (forall fm,
         get (fst (pipeline fm prices_run1)) 2%Z
         <> get (fst (pipeline fm prices_run2)) 2%Z).
Proof.
  assert (V : forall fm,
             get (fst (pipeline fm prices_run1)) 2%Z = Fin (1 - 5 / 10000)
             /\ get (fst (pipeline fm prices_run2)) 2%Z = Fin (2 - 5 / 10000)).
  { intros fm. rewrite pipeline_run1, pipeline_run2. split; reflexivity. }
  split; [| split; [exact V |]].
  - exists [(1%Z, [Fin 1; Fin 5; Fin 5; Fin 5])],
      [Fin 2; Fin 5; Fin 5; Fin 5], [Fin 3; Fin 5; Fin 5; Fin 5], [].
    repeat split.
  - intros fm. destruct (V fm) as [-> ->]. intros E. injection E as E. lra.
Qed.

(* ------------------------------------------------------------------ *)
(** ** The one-period lag at the date of the change *)

Lemma lookup_app_here {A} (pre : list (date * A)) T a post :
  ~ In T (index pre) -> lookup T (pre ++ (T, a) :: post) = Some a.
Proof.
  intros N. induction pre as [| [d x] pre IH]; simpl.
  - now rewrite Z.eqb_refl.
  - simpl in N. destruct (Z.eqb_spec T d) as [-> | _]; [tauto |].
    apply IH. tauto.
Qed.

Lemma agree_through_lookup {A} T (X1 X2 : list (date * A)) :
  agree_through T X1 X2 -> lookup T X1 = lookup T X2.
Proof.
  intros [pre [a [post1 [post2 [-> [-> N]]]]]].
  now rewrite !lookup_app_here.
Qed.

Lemma agree_through_map_rows {A B} (f : A -> B) T X1 X2 :
  agree_through T X1 X2 -> agree_through T (map_rows f X1) (map_rows f X2).
Proof.
  intros [pre [a [post1 [post2 [-> [-> N]]]]]].
  exists (map_rows f pre), (f a), (map_rows f post1), (map_rows f post2).
  unfold map_rows at 1 4. rewrite !map_app. simpl.
  repeat split. now rewrite index_map_rows.
Qed.

Lemma differ_from_map_cells {A B} (f : A -> B) T X1 X2 :
  differ_from T X1 X2 -> differ_from T (map_cells f X1) (map_cells f X2).
Proof.
  intros [pre [a1 [a2 [post1 [post2 [-> [-> [L N]]]]]]]].
  exists (map_cells f pre), (map f a1), (map f a2),
    (map_cells f post1), (map_cells f post2).
  unfold map_cells, map_rows. rewrite !map_app. simpl.
  repeat split.
  - now rewrite !length_map.
  - change (~ In T (index (map_rows (map f) pre))). now rewrite index_map_rows.
Qed.

Lemma last_cons {A} (x : A) l d : last (x :: l) d = last l x.
Proof.
  revert x d. induction l as [| y l IH]; intros x d; [reflexivity |].
  change (last (x :: y :: l) d) with (last (y :: l) d).
  now rewrite !IH.
Qed.

Lemma shift_from_app_cons {A} (p : A) pre T a post :
  shift_from p (pre ++ (T, a) :: post)
  = shift_from p pre ++ (T, last (map snd pre) p) :: shift_from a post.
Proof.
  revert p. induction pre as [| [d r] pre IH]; intros p; [reflexivity |].
  simpl app. simpl shift_from. rewrite IH.
  now rewrite <- (last_cons r (map snd pre) p).
Qed.

Lemma shift1_app_cons pre T a post :
  shift1 (pre ++ (T, a) :: post)
  = shift1 pre
      ++ (T, last (map snd pre) (map (fun _ => NaN) a)) :: shift_from a post.
Proof.
  destruct pre as [| [d r] pre]; [reflexivity |].
  simpl app. unfold shift1. rewrite shift_from_app_cons.
  now rewrite <- (last_cons r (map snd pre) (map (fun _ : fl => NaN) a)).
Qed.

Lemma map_const_length {A B C} (c : C) (l : list A) (m : list B) :
  List.length l = List.length m ->
  map (fun _ => c) l = map (fun _ => c) m.
Proof.
  revert m. induction l as [| x l IH]; intros [| y m] H; simpl in *;
    try discriminate; auto.
  injection H as H. now rewrite (IH m).
Qed.

(** The shift forgets the row of [T]: tables that differ from [T] on have
    shifts that agree through [T]. *)
Lemma shift1_differ_from T X1 X2 :
  differ_from T X1 X2 -> agree_through T (shift1 X1) (shift1 X2).
Proof.
  intros [pre [a1 [a2 [post1 [post2 [-> [-> [L N]]]]]]]].
  rewrite !shift1_app_cons. rewrite (map_const_length NaN a1 a2 L).
  exists (shift1 pre), (last (map snd pre) (map (fun _ => NaN) a2)),
    (shift_from a1 post1), (shift_from a2 post2).
  repeat split. now rewrite index_shift1.
Qed.

Lemma agree_through_shift1 T X1 X2 :
  agree_through T X1 X2 -> agree_through T (shift1 X1) (shift1 X2).
Proof.
  intros [pre [a [post1 [post2 [-> [-> N]]]]]].
  apply shift1_differ_from.
  exists pre, a, a, post1, post2. repeat split; auto.
Qed.

Lemma agree_through_zip_shift1 f T X1 X2 :
  agree_through T X1 X2 ->
  agree_through T (frame_zip f X1 (shift1 X1)) (frame_zip f X2 (shift1 X2)).
Proof.
  intros [pre [a [post1 [post2 [-> [-> N]]]]]].
  rewrite !shift1_app_cons. unfold frame_zip.
  assert (E : List.length pre = List.length (shift1 pre)).
  { now rewrite <- (length_index pre), <- (length_index (shift1 pre)),
      index_shift1. }
  rewrite !(zip_with_app _ pre _ (shift1 pre)) by exact E. simpl.
  eexists _, _, _, _. repeat split.
  change (~ In T (index (frame_zip f pre (shift1 pre)))).
  rewrite index_frame_zip; auto. now rewrite index_shift1.
Qed.

Lemma length_fill_row {A} (isna : A -> bool) na prev r :
  List.length (fill_row isna na prev r) = List.length r.
Proof.
  revert prev. induction r as [| x r IH]; intros prev; simpl; auto.
Qed.

Lemma existsb_notna_fill_row prev r :
  existsb notna r = true ->
  existsb notna (fill_row is_nan NaN prev r) = true.
Proof.
  revert prev. induction r as [| x r IH]; intros prev; simpl; [discriminate |].
  intros H. apply orb_true_iff in H. apply orb_true_iff.
  destruct H as [H | H]; [left | right; auto].
  destruct x; simpl in *; auto; discriminate.
Qed.

Lemma ffill_from_app_cons {A} (isna : A -> bool) na prev pre T a post :
  exists st,
    ffill_from isna na prev (pre ++ (T, a) :: post)
    = ffill_from isna na prev pre
        ++ (T, fill_row isna na st a)
        :: ffill_from isna na (fill_row isna na st a) post
    /\ st = last (map snd (ffill_from isna na prev pre)) prev.
Proof.
  revert prev. induction pre as [| [d r] pre IH]; intros prev; simpl.
  - now exists prev.
  - destruct (IH (fill_row isna na prev r)) as [st [E S]]. exists st.
    split; [now rewrite E |].
    rewrite S.
    now rewrite <- (last_cons (fill_row isna na prev r)
                      (map snd (ffill_from isna na (fill_row isna na prev r) pre))
                      prev).
Qed.

(** Two price tables that differ only at [T], each with a price present
    at [T], have gap-filled tables that differ from [T] on. *)
Lemma clean_differ_from T p1 p2 post2' r1 r2 pre post :
  p1 = pre ++ (T, r1) :: post -> p2 = pre ++ (T, r2) :: post2' ->
  List.length r1 = List.length r2 ->
  ~ In T (index pre) ->
  existsb notna r1 = true -> existsb notna r2 = true ->
  differ_from T (clean p1) (clean p2).
Proof.
  intros -> -> L N E1 E2. unfold clean, ffill, ffill_gen.
  destruct (ffill_from_app_cons is_nan NaN [] pre T r1 post) as [st [-> S]].
  destruct (ffill_from_app_cons is_nan NaN [] pre T r2 post2') as [st' [-> S']].
  rewrite <- S in S'. subst st'.
  unfold dropna_all. rewrite !filter_app. simpl.
  rewrite !existsb_notna_fill_row by assumption.
  eexists _, _, _, _, _. repeat split.
  - now rewrite !length_fill_row.
  - intros H. apply N. unfold index in *. apply in_map_iff in H.
    destruct H as [dr [E H]]. apply filter_In in H. destruct H as [H _].
    change (In T (index pre)). rewrite <- (index_ffill_from is_nan NaN []).
    unfold index. apply in_map_iff. eauto.
Qed.

(* ------------------------------------------------------------------ *)
(** * Further properties of the code *)

(** ** Positions and thresholds *)

(** With [entry_thresh <= exit_thresh], the configuration the strategy is
    meant for, the position of a date is the entry indicator of that
    date alone: overwriting the cells above [exit_thresh], [ffill()] and
    [fillna(0)] leave [(zscores < entry_thresh).astype(int)] as it is. *)
Theorem generate_positions_entry_indicator zscores entry_thresh exit_thresh :
  entry_thresh <= exit_thresh ->
  generate_positions zscores entry_thresh exit_thresh
  = map_cells (fun z => astype_int (flt z entry_thresh)) zscores.
Proof.
  intros H. rewrite generate_positions_cells.
  unfold map_cells, map_rows. apply map_ext. intros [d r]. simpl. f_equal.
  apply map_ext. intros z. unfold position_cell.
  destruct z as [| | | v]; try reflexivity.
  unfold fgt, flt.
  destruct (Rlt_dec exit_thresh v); [| reflexivity].
  destruct (Rlt_dec v entry_thresh); [lra | reflexivity].
Qed.

Lemma generate_positions_entry_indicator_witness :
  generate_positions [(1%Z, [Fin (-2); Fin 1; NaN])] (-1) 0
  = map_cells (fun z => astype_int (flt z (-1))) [(1%Z, [Fin (-2); Fin 1; NaN])].
Proof.
  apply (generate_positions_entry_indicator [(1%Z, [Fin (-2); Fin 1; NaN])] (-1) 0).
  lra.
Defined.

Lemma position_cell_mono e e' x x' z :
  e <= e' -> x <= x' ->
  (position_cell e x z <= position_cell e' x' z)%Z.
Proof.
  intros He Hx. unfold position_cell, astype_int.
  destruct z as [| | | v]; simpl; try lia; unfold fgt, flt.
  destruct (Rlt_dec x v), (Rlt_dec x' v), (Rlt_dec v e), (Rlt_dec v e');
    try lia; lra.
Qed.

(** Raising a threshold never closes a position: with a higher
    [entry_thresh] or a higher [exit_thresh] every cell of the position
    table stays or goes from 0 to 1. *)
Theorem generate_positions_monotone zscores e e' x x' :
  e <= e' -> x <= x' ->
  cells_le (generate_positions zscores e x) (generate_positions zscores e' x').
Proof.
  intros He Hx. rewrite !generate_positions_cells.
  unfold cells_le, map_cells, map_rows.
  induction zscores as [| [d r] t IH]; simpl; constructor; auto.
  simpl. split; [reflexivity |].
  induction r as [| z r IHr]; simpl; constructor; auto.
  now apply position_cell_mono.
Qed.

Lemma generate_positions_monotone_witness :
  cells_le (generate_positions [(1%Z, [Fin (-1); Fin 1; NaN])] (-1) 0)
           (generate_positions [(1%Z, [Fin (-1); Fin 1; NaN])] (-1 / 2) 2).
Proof.
  apply (generate_positions_monotone [(1%Z, [Fin (-1); Fin 1; NaN])]
           (-1) (-1 / 2) 0 2); lra.
Defined.

(* ------------------------------------------------------------------ *)
(** ** Mean and standard deviation of a row of numbers *)

Lemma row_mean_Fin l :
  l <> [] -> row_mean (map Fin l) = Fin (Rmean l).
Proof.
  intros N. unfold row_mean, Rmean. rewrite filter_notna_Fin.
  destruct l as [| v l]; [contradiction |].
  change (match map Fin (v :: l) with [] => NaN | _ :: _ =>
            fdiv (fsum (map Fin (v :: l)))
                 (Fin (INR (List.length (map Fin (v :: l))))) end)
    with (fdiv (fsum (map Fin (v :: l)))
               (Fin (INR (List.length (map Fin (v :: l)))))).
  rewrite fsum_Fin, length_map, fdiv_Fin; [reflexivity |].
  apply not_0_INR. discriminate.
Qed.

Lemma Rsum_sq_dev_nonneg l : 0 <= Rsum (Rsq_dev l).
Proof.
  apply Rsum_nonneg. unfold Rsq_dev. apply Forall_map, Forall_forall.
  intros v _. cbv beta. set (u := Rmean l - v). nra.
Qed.

Lemma Rvar_nonneg l : (2 <= List.length l)%nat -> 0 <= Rvar l.
Proof.
  intros H. unfold Rvar. apply le_INR in H. change (INR 2) with 2 in H.
  apply Rmult_le_pos; [apply Rsum_sq_dev_nonneg |].
  apply Rlt_le, Rinv_0_lt_compat. lra.
Qed.

Lemma row_var_Fin l :
  (2 <= List.length l)%nat -> row_var (map Fin l) = Fin (Rvar l).
Proof.
  intros H. unfold row_var. rewrite filter_notna_Fin, length_map.
  destruct (Nat.leb_spec (List.length l) 1) as [L | _]; [lia |].
  rewrite fsum_Fin, fdiv_Fin by (apply not_0_INR; lia).
  rewrite map_map.
  rewrite (map_ext _ (fun v => Fin ((Rmean l - v) * (Rmean l - v))))
    by (intros v; reflexivity).
  rewrite <- (map_map (fun v => (Rmean l - v) * (Rmean l - v)) Fin).
  fold (Rsq_dev l). rewrite fsum_Fin, fdiv_Fin; [reflexivity |].
  apply le_INR in H. change (INR 2) with 2 in H. lra.
Qed.

Lemma row_std_Fin l :
  (2 <= List.length l)%nat -> row_std (map Fin l) = Fin (sqrt (Rvar l)).
Proof.
  intros H. unfold row_std. rewrite row_var_Fin by exact H.
  apply fsqrt_Fin. now apply Rvar_nonneg.
Qed.

Lemma row_std_few r :
  (List.length (filter notna r) <= 1)%nat -> row_std r = NaN.
Proof.
  intros H. unfold row_std, row_var.
  destruct (Nat.leb_spec (List.length (filter notna r)) 1); [reflexivity | lia].
Qed.

Lemma zscore_row_std_NaN r :
  row_std r = NaN -> Forall (fun z => z = NaN) (zscore_row r).
Proof.
  intros H. unfold zscore_row. rewrite H. apply Forall_map, Forall_forall.
  intros x _. apply fdiv_NaN_r.
Qed.

(* ------------------------------------------------------------------ *)
(** ** Infinite prices *)

Lemma fold_left_fadd_NaN l : fold_left fadd l NaN = NaN.
Proof. induction l as [| x l IH]; simpl; auto. Qed.

Lemma fold_left_fadd_has_NaN l acc : In NaN l -> fold_left fadd l acc = NaN.
Proof.
  revert acc. induction l as [| x l IH]; intros acc H; [contradiction |].
  simpl. destruct H as [-> | H]; auto.
  rewrite fadd_NaN_r. apply fold_left_fadd_NaN.
Qed.

Lemma fsum_has_NaN l : In NaN l -> fsum l = NaN.
Proof. apply fold_left_fadd_has_NaN. Qed.

Lemma inf_sum_step acc x l res :
  inf_sum (fadd acc x) l res -> inf_sum acc (x :: l) res.
Proof.
  unfold inf_sum. intros [H | [[H [E | I]] | [H [E | I]]]]; auto.
  - right. left. split; auto. simpl.
    destruct acc, x; try discriminate; auto.
  - right. left. simpl. auto.
  - right. right. split; auto. simpl.
    destruct acc, x; try discriminate; auto.
  - right. right. simpl. auto.
Qed.

Lemma fold_left_fadd_from_inf l acc :
  ~ finite acc -> inf_sum acc l (fold_left fadd l acc).
Proof.
  revert acc. induction l as [| x l IH]; intros acc N.
  - simpl. unfold inf_sum. destruct acc; simpl in N; auto. tauto.
  - simpl. apply inf_sum_step, IH.
    destruct acc, x; simpl in *; tauto.
Qed.

Lemma fold_left_fadd_meets_inf l acc :
  Exists infinite l -> inf_sum acc l (fold_left fadd l acc).
Proof.
  intros H. revert acc. induction H as [x l Hx | x l _ IH]; intros acc; simpl.
  - apply inf_sum_step, fold_left_fadd_from_inf.
    destruct Hx as [-> | ->]; destruct acc; simpl; tauto.
  - apply inf_sum_step, IH.
Qed.


Lemma row_std_infinite r : Exists infinite r -> row_std r = NaN.
Proof.
  intros H. unfold row_std, row_var.
  set (xs := filter notna r).
  assert (X : Exists infinite xs).
  { apply Exists_exists in H. destruct H as [x [I Hx]].
    apply Exists_exists. exists x. split; auto.
    apply filter_In. split; auto. destruct Hx as [-> | ->]; reflexivity. }
  destruct (Nat.leb_spec (List.length xs) 1) as [_ | L]; [reflexivity |].
  assert (P : 0 < INR (List.length xs)) by (apply lt_0_INR; lia).
  cbv zeta.
  set (avg := fdiv (fsum xs) (Fin (INR (List.length xs)))).
  assert (N : In NaN (map (fun x => fmul (fsub avg x) (fsub avg x)) xs)).
  { destruct (fold_left_fadd_meets_inf xs (Fin 0) X)
      as [E | [[E [A | I]] | [E [A | I]]]]; try discriminate A.
    - destruct xs as [| x xs']; [simpl in L; lia |].
      left. unfold avg, fsum. rewrite E. reflexivity.
    - apply in_map_iff. exists PInf. split; auto.
      unfold avg, fsum. rewrite E. unfold fdiv.
      destruct (Rlt_dec (INR (List.length xs)) 0); [lra | reflexivity].
    - apply in_map_iff. exists NInf. split; auto.
      unfold avg, fsum. rewrite E. unfold fdiv.
      destruct (Rlt_dec (INR (List.length xs)) 0); [lra | reflexivity]. }
  now rewrite (fsum_has_NaN _ N).
Qed.
Lemma two_cells_not_below a b e :
  e <= -1 ->
  Forall (fun z => flt z e = false) (zscore_row [Fin a; Fin b]).
Proof.
  intros He.
  change [Fin a; Fin b] with (map Fin [a; b]).
  destruct (Req_dec_T (sqrt (Rvar [a; b])) 0) as [Z | NZ].
  - assert (S : row_std (map Fin [a; b]) = Fin 0).
    { rewrite row_std_Fin by (simpl; lia). now rewrite Z. }
    pose proof (zscore_row_zero_std _ S) as F.
    revert F. apply Forall_impl. now intros z ->.
  - unfold zscore_row.
    rewrite row_std_Fin by (simpl; lia).
    rewrite row_mean_Fin by discriminate.
    set (s := sqrt (Rvar [a; b])) in *.
    set (m := Rmean [a; b]).
    assert (Hs : 0 < s).
    { pose proof (sqrt_pos (Rvar [a; b])). fold s in H. lra. }
    assert (V : s * s = Rvar [a; b]).
    { apply sqrt_sqrt. apply Rvar_nonneg. simpl; lia. }
    assert (Em : m = (a + b) / 2).
    { unfold m, Rmean, Rsum. simpl. change (INR 2) with 2. lra. }
    assert (Ev : Rvar [a; b] = (m - a) * (m - a) + (m - b) * (m - b)).
    { unfold Rvar, Rsq_dev, Rsum. fold m. simpl. change (INR 2) with 2. lra. }
    assert (Ba : - s <= a - m) by nra.
    assert (Bb : - s <= b - m) by nra.
    simpl map. rewrite !fsub_Fin, !fdiv_Fin by exact NZ.
    assert (Ia : 0 < / s) by now apply Rinv_0_lt_compat.
    assert (Q : forall u, - s <= u -> -1 <= u / s).
    { intros u Hu. unfold Rdiv.
      replace (-1) with ((- s) * / s) by (field; lra).
      apply Rmult_le_compat_r; lra. }
    repeat constructor; apply flt_Fin_false.
    + specialize (Q _ Ba). lra.
    + specialize (Q _ Bb). lra.
Qed.
Lemma small_row_not_below r e :
  (List.length r <= 2)%nat -> e <= -1 ->
  Forall (fun z => flt z e = false) (zscore_row r).
Proof.
  intros L He.
  assert (N : row_std r = NaN ->
              Forall (fun z => flt z e = false) (zscore_row r)).
  { intros S. pose proof (zscore_row_std_NaN r S) as F.
    revert F. apply Forall_impl. now intros z ->. }
  destruct r as [| a [| b [| c r]]].
  - constructor.
  - apply N, row_std_few. simpl. destruct (notna a); simpl; lia.
  - destruct a as [| | | a], b as [| | | b];
      try (apply N, row_std_few; simpl; lia);
      try (apply N, row_std_infinite;
           first [ apply Exists_cons_hd; (now left) || (now right)
                 | apply Exists_cons_tl, Exists_cons_hd; (now left) || (now right) ]).
    now apply two_cells_not_below.
  - simpl in L. lia.
Qed.

Lemma width_le_clean n price_df :
  width_le n price_df -> width_le n (clean price_df).
Proof.
  intros H. unfold clean, dropna_all, width_le in *.
  apply Forall_forall. intros dr I. apply filter_In in I. destruct I as [I _].
  revert dr I. apply Forall_forall.
  unfold ffill, ffill_gen. generalize (@nil fl).
  induction H as [| [d r] t Hr _ IH]; intros prev; simpl; constructor.
  - simpl. now rewrite length_fill_row.
  - apply IH.
Qed.

Lemma small_basket_positions price_df entry_thresh exit_thresh :
  width_le 2 price_df ->
  entry_thresh <= -1 ->
  all_cells (fun p => p = 0%Z)
            (generate_positions (compute_basket_zscores price_df)
                                entry_thresh exit_thresh).
Proof.
  intros W He. rewrite generate_positions_cells, compute_basket_zscores_rows.
  apply width_le_clean in W.
  unfold all_cells, map_cells, map_rows. rewrite !Forall_map.
  revert W. apply Forall_impl. intros [d r] L. simpl in *.
  apply Forall_map.
  pose proof (small_row_not_below r entry_thresh L He) as F.
  revert F. apply Forall_impl. intros z Hz.
  unfold position_cell. rewrite Hz. now destruct (fgt z exit_thresh).
Qed.

(** A basket of one or two instruments never opens a position when
    [entry_thresh <= -1]: with the sample standard deviation a z-score of
    two instruments is -1/sqrt 2, +1/sqrt 2 or missing, and that of a
    single instrument is missing. *)
Theorem small_basket_never_enters price_df entry_thresh exit_thresh :
  width_le 2 price_df ->
  entry_thresh <= -1 ->
  all_cells (fun p => p = 0%Z)
            (generate_positions (compute_basket_zscores price_df)
                                entry_thresh exit_thresh).
Proof. apply small_basket_positions. Qed.

Lemma small_basket_never_enters_witness :
  all_cells (fun p => p = 0%Z)
            (generate_positions (compute_basket_zscores prices_AB)
                                default_entry_thresh default_exit_thresh).
Proof.
  apply (small_basket_never_enters prices_AB default_entry_thresh
           default_exit_thresh).
  - unfold width_le, prices_AB.
    repeat (apply Forall_cons || apply Forall_nil); simpl; lia.
  - unfold default_entry_thresh. lra.
Defined.
(** The rows of the z-score table and of the position table, from the
    rows of the gap-filled table. *)
Lemma signal_rows price_df e x i d r :
  nth_error (clean price_df) i = Some (d, r) ->
  nth_error (compute_basket_zscores price_df) i = Some (d, zscore_row r)
  /\ nth_error (generate_positions (compute_basket_zscores price_df) e x) i
     = Some (d, map (position_cell e x) (zscore_row r)).
Proof.
  intros H. rewrite generate_positions_cells. unfold map_cells.
  rewrite compute_basket_zscores_rows, !nth_error_map_rows, H. now split.
Qed.

(** An infinite price leaves its date without signal: every z-score of
    the date is missing and every position of the date is 0. *)
Theorem infinite_price_no_signal price_df entry_thresh exit_thresh i d r :
  nth_error (clean price_df) i = Some (d, r) ->
  Exists infinite r ->
  exists zr pr,
    nth_error (compute_basket_zscores price_df) i = Some (d, zr)
    /\ List.length zr = List.length r
    /\ Forall (fun z => z = NaN) zr
    /\ nth_error (generate_positions (compute_basket_zscores price_df)
                    entry_thresh exit_thresh) i = Some (d, pr)
    /\ List.length pr = List.length r
    /\ Forall (fun p => p = 0%Z) pr.
Proof.
  intros Hi Hx.
  destruct (signal_rows price_df entry_thresh exit_thresh i d r Hi) as [Z P].
  pose proof (zscore_row_std_NaN r (row_std_infinite r Hx)) as F.
  exists (zscore_row r), (map (position_cell entry_thresh exit_thresh) (zscore_row r)).
  repeat split; auto.
  - unfold zscore_row. apply length_map.
  - unfold zscore_row. now rewrite !length_map.
  - apply Forall_map. revert F. apply Forall_impl. now intros z ->.
Qed.

Lemma infinite_price_no_signal_witness :
  exists zr pr,
    nth_error (compute_basket_zscores [(1%Z, [Fin 1; PInf; Fin 3])]) 0
    = Some (1%Z, zr)
    /\ List.length zr = 3%nat
    /\ Forall (fun z => z = NaN) zr
    /\ nth_error (generate_positions
                    (compute_basket_zscores [(1%Z, [Fin 1; PInf; Fin 3])])
                    default_entry_thresh default_exit_thresh) 0
       = Some (1%Z, pr)
    /\ List.length pr = 3%nat
    /\ Forall (fun p => p = 0%Z) pr.
Proof.
  apply (infinite_price_no_signal [(1%Z, [Fin 1; PInf; Fin 3])]
           default_entry_thresh default_exit_thresh 0%nat 1%Z
           [Fin 1; PInf; Fin 3]).
  - reflexivity.
  - apply Exists_cons_tl, Exists_cons_hd. now left.
Defined.

(* ------------------------------------------------------------------ *)
(** ** Gap filling *)

Lemma fill_row_idem {A} (isna : A -> bool) na prev r :
  fill_row isna na prev (fill_row isna na prev r) = fill_row isna na prev r.
Proof.
  revert prev. induction r as [| x r IH]; intros prev; simpl; auto.
  rewrite IH. f_equal.
  destruct (isna x) eqn:E; [| now rewrite E].
  now destruct (isna (hd na prev)).
Qed.

Lemma ffill_from_idem {A} (isna : A -> bool) na prev t :
  ffill_from isna na prev (ffill_from isna na prev t)
  = ffill_from isna na prev t.
Proof.
  revert prev. induction t as [| [d r] t IH]; intros prev; simpl; auto.
  now rewrite fill_row_idem, IH.
Qed.

(** Forward-filling the prices before the call changes nothing: the
    z-scores of [ffill(prices)] are the z-scores of [prices]. *)
Theorem compute_basket_zscores_ffill price_df :
  compute_basket_zscores (ffill price_df) = compute_basket_zscores price_df.
Proof.
  rewrite !compute_basket_zscores_rows. unfold clean, ffill, ffill_gen.
  now rewrite ffill_from_idem.
Qed.

Lemma clean_priced price_df :
  every_row_priced price_df -> clean price_df = ffill price_df.
Proof.
  unfold clean, dropna_all, ffill, ffill_gen, every_row_priced. intros H.
  generalize (@nil fl) as prev.
  induction H as [| [d r] t Hr _ IH]; intros prev; simpl; auto.
  simpl in Hr. rewrite (existsb_notna_fill_row _ _ Hr). now rewrite IH.
Qed.

Lemma index_positions_priced price_df e x :
  every_row_priced price_df ->
  index (generate_positions (compute_basket_zscores price_df) e x)
  = index price_df.
Proof.
  intros H. rewrite generate_positions_cells, compute_basket_zscores_rows.
  unfold map_cells. rewrite !index_map_rows, (clean_priced _ H).
  apply index_ffill_from.
Qed.

(** When every date has at least one price, no date is dropped: the
    z-score table and the position table carry the index of the price
    table, which is what [backtest] assumes of its two arguments. *)
Theorem priced_rows_stay_aligned price_df entry_thresh exit_thresh :
  every_row_priced price_df ->
  index (compute_basket_zscores price_df) = index price_df
  /\ index (generate_positions (compute_basket_zscores price_df)
                               entry_thresh exit_thresh)
     = index price_df.
Proof.
  intros H. split; [| now apply index_positions_priced].
  rewrite compute_basket_zscores_rows, index_map_rows, (clean_priced _ H).
  apply index_ffill_from.
Qed.

Lemma priced_rows_stay_aligned_witness :
  index (compute_basket_zscores prices_gap) = index prices_gap
  /\ index (generate_positions (compute_basket_zscores prices_gap)
                               default_entry_thresh default_exit_thresh)
     = index prices_gap.
Proof.
  apply (priced_rows_stay_aligned prices_gap default_entry_thresh
           default_exit_thresh).
  unfold every_row_priced, prices_gap.
  repeat (apply Forall_cons || apply Forall_nil); reflexivity.
Defined.

Lemma dropna_all_priced t : every_row_priced (dropna_all t).
Proof.
  unfold every_row_priced, dropna_all. apply Forall_forall.
  intros dr H. now apply filter_In in H.
Qed.

(** The table that [fetch_price_series] returns for several tickers has
    a price at every date, so the positions computed from it carry its
    index: the two arguments of [backtest] in the main pipeline are
    aligned. *)
Theorem fetched_prices_aligned tickers downloaded df entry_thresh exit_thresh :
  List.length tickers <> 1%nat ->
  fetch_price_series tickers downloaded = Returned df ->
  every_row_priced df
  /\ index (generate_positions (compute_basket_zscores df)
                               entry_thresh exit_thresh)
     = index df.
Proof.
  intros N H. unfold fetch_price_series in H.
  destruct (frame_empty downloaded); [discriminate |].
  destruct (Nat.eqb_spec (List.length tickers) 1) as [E | _]; [contradiction |].
  injection H as <-.
  split; [apply dropna_all_priced |].
  apply index_positions_priced, dropna_all_priced.
Qed.

Lemma fetched_prices_aligned_witness :
  every_row_priced [(2%Z, [Fin 1; NaN])]
  /\ index (generate_positions (compute_basket_zscores [(2%Z, [Fin 1; NaN])])
                               default_entry_thresh default_exit_thresh)
     = index [(2%Z, [Fin 1; NaN])].
Proof.
  apply (fetched_prices_aligned ["RY.TO"%string; "TD.TO"%string]
           [(1%Z, [NaN; NaN]); (2%Z, [Fin 1; NaN])] [(2%Z, [Fin 1; NaN])]
           default_entry_thresh default_exit_thresh).
  - simpl. lia.
  - reflexivity.
Defined.
(* ------------------------------------------------------------------ *)
(** ** What the z-scores of a date add up to *)

Lemma not_infinite_cells r :
  ~ Exists infinite r -> Forall (fun x => x = NaN \/ finite x) r.
Proof.
  intros N. apply Forall_forall. intros x I.
  destruct x; simpl; auto; exfalso; apply N, Exists_exists;
    eexists; split; eauto; unfold infinite; auto.
Qed.

Lemma filter_notna_present r :
  Forall (fun x => x = NaN \/ finite x) r ->
  filter notna r = map Fin (present_values r).
Proof.
  induction 1 as [| x r Hx _ IH]; simpl; auto.
  destruct Hx as [-> | Hx]; [exact IH |].
  destruct x; simpl in *; try contradiction. now rewrite IH.
Qed.

Lemma Rsum_standardised m s vs :
  Rsum (map (fun v => (v - m) / s) vs)
  = (Rsum vs - INR (List.length vs) * m) / s.
Proof.
  induction vs as [| v vs IH].
  - unfold Rsum. simpl. unfold Rdiv. change (INR 0) with 0. lra.
  - simpl map. rewrite !Rsum_cons, IH.
    change (List.length (v :: vs)) with (S (List.length vs)).
    rewrite S_INR. unfold Rdiv. lra.
Qed.

Lemma zscore_cells_present m s r :
  s <> 0 -> Forall (fun x => x = NaN \/ finite x) r ->
  filter notna (map (fun x => fdiv (fsub x (Fin m)) (Fin s)) r)
  = map Fin (map (fun v => (v - m) / s) (present_values r)).
Proof.
  intros NZ. induction 1 as [| x r Hx _ IH]; simpl; auto.
  destruct Hx as [-> | Hx]; [exact IH |].
  destruct x as [| | | v]; simpl in *; try contradiction.
  rewrite fsub_Fin, fdiv_Fin by exact NZ. simpl. now rewrite IH.
Qed.

(** On a date with a non-zero standard deviation [s] and mean [m], the
    z-scores of the date sum to 0, and each of them gives its price back:
    [price = m + z * s]. *)
Theorem zscores_standardise price_df i d r m s :
  nth_error (clean price_df) i = Some (d, r) ->
  row_mean r = Fin m -> row_std r = Fin s -> s <> 0 ->
  exists zr,
    nth_error (compute_basket_zscores price_df) i = Some (d, zr)
    /\ row_sum zr = Fin 0
    /\ Forall2 (standardises m s) r zr.
Proof.
  intros Hi Hm Hs NZ.
  destruct (signal_rows price_df 0 0 i d r Hi) as [Z _].
  exists (zscore_row r). split; [exact Z |].
  assert (C : Forall (fun x => x = NaN \/ finite x) r).
  { apply not_infinite_cells. intros E.
    rewrite (row_std_infinite r E) in Hs. discriminate. }
  unfold zscore_row. rewrite Hm, Hs. split.
  - unfold row_sum. rewrite (zscore_cells_present m s r NZ C), fsum_Fin.
    f_equal. rewrite Rsum_standardised.
    unfold row_mean in Hm. rewrite (filter_notna_present r C) in Hm.
    destruct (present_values r) as [| v vs] eqn:E; [discriminate |].
    rewrite <- E in *. clear E.
    assert (NE : INR (List.length (present_values r)) <> 0).
    { rewrite E0 || idtac. destruct (present_values r); [discriminate |].
      apply not_0_INR. discriminate. }
    revert Hm. destruct (map Fin (present_values r)) eqn:EM.
    + destruct (present_values r); discriminate.
    + rewrite <- EM. rewrite fsum_Fin, length_map, fdiv_Fin by exact NE.
      intros Hm. injection Hm as Hm. rewrite <- Hm. field. split; auto.
  - clear Hm Hs Hi Z. induction C as [| x r Hx _ IH]; simpl; constructor; auto.
    destruct Hx as [-> | Hx].
    + left. split; reflexivity.
    + destruct x as [| | | v]; simpl in Hx; try contradiction.
      right. exists v, ((v - m) / s). rewrite fsub_Fin, fdiv_Fin by exact NZ.
      repeat split. field. exact NZ.
Qed.
Lemma zscores_standardise_witness :
  exists zr,
    nth_error (compute_basket_zscores prices_run1) 0 = Some (1%Z, zr)
    /\ row_sum zr = Fin 0
    /\ Forall2 (standardises 4 2) [Fin 1; Fin 5; Fin 5; Fin 5] zr.
Proof.
  apply (zscores_standardise prices_run1 0%nat 1%Z [Fin 1; Fin 5; Fin 5; Fin 5] 4 2).
  - reflexivity.
  - fl_eval. f_equal. lra.
  - fl_eval. sqrt_is 2. reflexivity.
  - lra.
Defined.

(* ------------------------------------------------------------------ *)
(** ** A strategy that holds nothing *)

Lemma shifted_pos_flat positions :
  all_cells (fun p => p = 0%Z) positions ->
  all_cells (fun x => x = Fin 0) (shifted_pos positions).
Proof.
  intros H. apply shifted_pos_cells; [reflexivity |].
  revert H. apply Forall_impl. intros dr. apply Forall_impl.
  now intros p ->.
Qed.

Lemma row_sum_all_zero r : Forall (fun x => x = Fin 0) r -> row_sum r = Fin 0.
Proof.
  intros H. apply row_sum_zero_or_NaN. revert H. apply Forall_impl. auto.
Qed.

Lemma trades_flat positions :
  all_cells (fun p => p = 0%Z) positions ->
  Forall (fun dx => snd dx = Fin 0) (trades positions).
Proof.
  intros H. apply shifted_pos_flat in H.
  unfold trades, map_rows. apply Forall_map. simpl.
  assert (D : all_cells (fun x => x = Fin 0 \/ x = NaN)
                (map_cells fabs (diff (shifted_pos positions)))).
  { apply (all_cells_map_cells (fun x => x = Fin 0 \/ x = NaN)).
    - intros x [-> | ->]; [left | now right].
      unfold fabs. now rewrite Rabs_R0.
    - apply (all_cells_frame_zip (fun x => x = Fin 0)
               (fun y => y = NaN \/ y = Fin 0)); auto.
      + intros x y -> [-> | ->]; [now right | left].
        rewrite fsub_Fin. f_equal. lra.
      + now apply all_cells_shift1. }
  revert D. apply Forall_impl. intros dr. apply row_sum_zero_or_NaN.
Qed.

Lemma strat_ret_flat_value fm prices positions cost d :
  all_cells (fun p => p = 0%Z) positions ->
  In d (index positions) ->
  get (strat_ret fm prices positions cost) d = Fin 0.
Proof.
  intros H I.
  pose proof (shifted_pos_flat _ H) as S.
  pose proof I as I'. rewrite <- index_shifted_pos in I'.
  destruct (lookup_in_index _ _ I') as [ra La].
  pose proof (all_cells_lookup _ _ _ _ S La) as Za.
  unfold strat_ret. rewrite get_series_op.
  2:{ right. now rewrite index_map_rows, index_trades. }
  rewrite (get_gross_ret _ _ _ _ _ La), (get_n_open _ _ _ La).
  rewrite (row_sum_all_zero _ Za). unfold replace_0_1.
  rewrite is_zero_Fin_true by reflexivity.
  assert (E : row_sum (product_row fm prices d ra) = Fin 0).
  { apply row_sum_zero_or_NaN. unfold product_row.
    destruct (lookup d (daily_ret fm prices)) as [rb |].
    - now apply zip_with_fmul_zeros.
    - apply Forall_map, Forall_forall. auto. }
  rewrite E, fdiv_Fin by lra.
  rewrite get_map_rows.
  rewrite <- index_trades in I. destruct (lookup_in_index _ _ I) as [t Lt].
  rewrite Lt.
  pose proof (trades_flat _ H) as T. rewrite Forall_forall in T.
  specialize (T _ (lookup_some_in _ _ _ Lt)). simpl in T. subst t.
  rewrite fmul_Fin, fsub_Fin. f_equal. lra.
Qed.

Lemma series_op_as_gets f a b :
  series_op f a b
  = map (fun d => (d, get (series_op f a b) d))
        (index_union (index a) (index b)).
Proof.
  unfold series_op at 1. apply map_ext_in. intros d I. f_equal.
  symmetry. apply get_series_op. now apply in_index_union.
Qed.

Lemma index_strat_ret_aligned fm prices positions cost :
  index prices = index positions ->
  index (strat_ret fm prices positions cost) = index positions.
Proof.
  intros HI. unfold strat_ret, gross_ret.
  rewrite !index_series_op, !index_map_rows, index_frame_mul, index_trades,
    index_n_open, index_shifted_pos, index_daily_ret.
  unfold index in *. rewrite HI. now rewrite !index_union_same.
Qed.

Lemma cumprod_from_flat a l :
  cumprod_from (Fin a) (map (fun d : Z => (d, Fin (1 + 0))) l)
  = map (fun d => (d, Fin a)) l.
Proof.
  revert a. induction l as [| d l IH]; intros a; simpl; auto.
  rewrite fmul_Fin. replace (a * (1 + 0)) with a by lra. now rewrite IH.
Qed.

Lemma cum_of_flat l :
  cum_of (map (fun d : Z => (d, Fin 0)) l) = map (fun d => (d, Fin 0)) l.
Proof.
  unfold cum_of, cumprod, map_rows. rewrite map_map. simpl.
  rewrite (map_ext _ (fun d : Z => (d, Fin (1 + 0))))
    by (intros d; now rewrite fadd_Fin).
  rewrite cumprod_from_flat, map_map. simpl.
  apply map_ext. intros d. rewrite fsub_Fin. repeat f_equal. lra.
Qed.

Lemma backtest_flat_helper fm prices positions cost_per_trade :
  index prices = index positions ->
  all_cells (fun p => p = 0%Z) positions ->
  backtest fm prices positions cost_per_trade
  = (map (fun d => (d, Fin 0)) (index prices),
     map (fun d => (d, Fin 0)) (index prices)).
Proof.
  intros HI H.
  assert (E : strat_ret fm prices positions cost_per_trade
              = map (fun d => (d, Fin 0)) (index prices)).
  { pose proof (index_strat_ret_aligned fm prices positions cost_per_trade HI)
      as X.
    unfold strat_ret in *. rewrite series_op_as_gets.
    rewrite index_series_op in X. rewrite X.
    replace (index prices) with (index positions)
      by (unfold index in *; now rewrite HI).
    apply map_ext_in. intros d I. f_equal.
    now apply (strat_ret_flat_value fm prices positions cost_per_trade d). }
  unfold backtest. cbv zeta. rewrite E. now rewrite cum_of_flat.
Qed.

(** With no position ever open (a position table of zeros on the index of
    the prices), the strategy return is 0 at every date, whatever the
    prices, and so is the cumulative return. *)
Theorem backtest_flat_positions fm prices positions cost_per_trade :
  index prices = index positions ->
  all_cells (fun p => p = 0%Z) positions ->
  backtest fm prices positions cost_per_trade
  = (map (fun d => (d, Fin 0)) (index prices),
     map (fun d => (d, Fin 0)) (index prices)).
Proof. apply backtest_flat_helper. Qed.

Lemma backtest_flat_positions_witness :
  backtest FillNone prices_AB
           [(1%Z, [0%Z; 0%Z]); (2%Z, [0%Z; 0%Z]); (3%Z, [0%Z; 0%Z])]
           default_cost_per_trade
  = (map (fun d => (d, Fin 0)) (index prices_AB),
     map (fun d => (d, Fin 0)) (index prices_AB)).
Proof.
  apply (backtest_flat_positions FillNone prices_AB
           [(1%Z, [0%Z; 0%Z]); (2%Z, [0%Z; 0%Z]); (3%Z, [0%Z; 0%Z])]
           default_cost_per_trade).
  - reflexivity.
  - unfold all_cells.
    repeat (apply Forall_cons || apply Forall_nil); reflexivity.
Defined.
(** With the default thresholds the whole pipeline earns nothing on a
    table of one or two instruments that has a price at every date: the
    strategy return and the cumulative return are 0 at every date. *)
Theorem small_basket_pipeline_flat fm df :
  width_le 2 df ->
  every_row_priced df ->
  pipeline fm df
  = (map (fun d => (d, Fin 0)) (index df), map (fun d => (d, Fin 0)) (index df)).
Proof.
  intros W P. unfold pipeline. apply backtest_flat_helper.
  - symmetry. now apply index_positions_priced.
  - apply small_basket_positions; auto. unfold default_entry_thresh. lra.
Qed.

Lemma small_basket_pipeline_flat_witness :
  pipeline FillNone prices_AB
  = (map (fun d => (d, Fin 0)) (index prices_AB),
     map (fun d => (d, Fin 0)) (index prices_AB)).
Proof.
  apply (small_basket_pipeline_flat FillNone prices_AB).
  - unfold width_le, prices_AB.
    repeat (apply Forall_cons || apply Forall_nil); simpl; lia.
  - unfold every_row_priced, prices_AB.
    repeat (apply Forall_cons || apply Forall_nil); reflexivity.
Defined.
(* ------------------------------------------------------------------ *)
(** ** Turnover *)

Lemma row_sum_nonneg r :
  Forall (fun x => x = NaN \/ nonneg x) r -> nonneg (row_sum r).
Proof.
  intros H. unfold row_sum.
  assert (E : exists ts, filter notna r = map Fin ts
                         /\ Forall (fun t => 0 <= t) ts).
  { induction H as [| x r Hx _ [ts [E F]]].
    - exists []. split; [reflexivity | constructor].
    - destruct Hx as [-> | Hx]; [exists ts; now split |].
      destruct x as [| | | t]; simpl in Hx; try contradiction.
      exists (t :: ts). simpl. rewrite E. split; [reflexivity | now constructor]. }
  destruct E as [ts [-> F]]. rewrite fsum_Fin. simpl. now apply Rsum_nonneg.
Qed.

Lemma nth_error_shifted_pos_S positions k d0 q0 d1 q1 :
  nth_error positions k = Some (d0, q0) ->
  nth_error positions (S k) = Some (d1, q1) ->
  nth_error (shifted_pos positions) (S k) = Some (d1, map to_float q0).
Proof.
  intros H0 H1. unfold shifted_pos, map_cells.
  rewrite nth_error_map_rows, nth_error_shift1_S, !nth_error_map_rows.
  rewrite H0, H1. simpl. rewrite map_map. reflexivity.
Qed.

Lemma trades_unchanged_row (r : list Z) :
  row_sum (map fabs (zip_with fsub (map to_float r) (map to_float r))) = Fin 0.
Proof.
  apply row_sum_zero_or_NaN. rewrite zip_with_diag, !map_map.
  apply Forall_map, Forall_forall. intros z _.
  left. unfold to_float. rewrite fsub_Fin. unfold fabs. f_equal.
  replace (IZR z - IZR z) with 0 by lra. apply Rabs_R0.
Qed.

(** The turnover of a date is never negative nor missing, and a date whose
    lagged positions are those of the date before has turnover 0: when
    the positions of two consecutive dates are equal, nothing is charged
    at the date after them. *)
Theorem trades_nonneg positions :
  Forall (fun dx => nonneg (snd dx)) (trades positions)
  /\ (forall k d0 d1 d2 q q2,
         nth_error positions k = Some (d0, q) ->
         nth_error positions (S k) = Some (d1, q) ->
         nth_error positions (S (S k)) = Some (d2, q2) ->
         nth_error (trades positions) (S (S k)) = Some (d2, Fin 0)).
Proof.
  split.
  - unfold trades, map_rows. apply Forall_map. simpl.
    assert (D : all_cells (fun x => x = NaN \/ nonneg x)
                  (map_cells fabs (diff (shifted_pos positions)))).
    { apply (all_cells_map_cells (fun x => x = NaN \/ finite x)).
      - intros x [-> | Hx]; [now left | right].
        destruct x; simpl in *; try contradiction. apply Rabs_pos.
      - apply (all_cells_frame_zip finite (fun y => y = NaN \/ finite y)).
        + intros x y Hx [-> | Hy]; [left; apply fsub_NaN_r | right].
          now apply fsub_finite.
        + apply shifted_pos_finite.
        + apply all_cells_shift1, shifted_pos_finite. }
    revert D. apply Forall_impl. intros dr. apply row_sum_nonneg.
  - intros k d0 d1 d2 q q2 H0 H1 H2.
    pose proof (nth_error_shifted_pos_S _ _ _ _ _ _ H0 H1) as S1.
    pose proof (nth_error_shifted_pos_S _ _ _ _ _ _ H1 H2) as S2.
    unfold trades, map_cells, diff, frame_zip.
    rewrite !nth_error_map_rows, nth_error_zip_with, nth_error_shift1_S.
    rewrite S1, S2. simpl. now rewrite trades_unchanged_row.
Qed.

(* ------------------------------------------------------------------ *)
(** ** Dates on one side only *)

(** [backtest] aligns its arguments by date.  At a date of the prices
    that the positions do not have, the strategy return is missing; at a
    date of the positions that the prices do not have, the gross return
    is 0. *)
Theorem backtest_unaligned_dates fm prices positions cost_per_trade d :
  (In d (index prices) -> ~ In d (index positions) ->
   lookup d (fst (backtest fm prices positions cost_per_trade)) = Some NaN)
  /\ (In d (index positions) -> ~ In d (index prices) ->
      lookup d (gross_ret fm prices positions) = Some (Fin 0)).
Proof.
  split.
  - intros Ip Nq. unfold backtest. cbv zeta. unfold fst, strat_ret.
    assert (Ln : lookup d (n_open positions) = None).
    { apply lookup_notin. now rewrite index_n_open. }
    assert (Lt : lookup d (trades positions) = None).
    { apply lookup_notin. now rewrite index_trades. }
    assert (Ls : lookup d (shifted_pos positions) = None).
    { apply lookup_notin. now rewrite index_shifted_pos. }
    rewrite <- (index_daily_ret fm) in Ip.
    destruct (lookup_in_index _ _ Ip) as [rb Lb].
    assert (G : lookup d (gross_ret fm prices positions) = Some NaN).
    { unfold gross_ret. rewrite lookup_series_op, lookup_map_rows,
        lookup_frame_mul_rows, Ls, Lb, Ln. simpl.
      f_equal. unfold get at 2. rewrite Ln. apply fdiv_NaN_r. }
    rewrite lookup_series_op, G. cbv iota beta.
    f_equal. unfold get at 1. rewrite G. apply fsub_NaN_l.
  - intros Iq Np.
    assert (Lb : lookup d (daily_ret fm prices) = None).
    { apply lookup_notin. now rewrite index_daily_ret. }
    pose proof Iq as Iq'. rewrite <- index_shifted_pos in Iq'.
    destruct (lookup_in_index _ _ Iq') as [ra La].
    assert (V : get (gross_ret fm prices positions) d = Fin 0).
    { rewrite (get_gross_ret _ _ _ _ _ La), (get_n_open _ _ _ La).
      destruct (replace_0_1_nonzero (row_sum ra)) as [k [-> NZ]].
      { apply row_sum_finite.
        apply (all_cells_lookup _ _ _ _ (shifted_pos_finite positions) La). }
      unfold product_row. rewrite Lb.
      rewrite row_sum_all_NaN by (apply Forall_map, Forall_forall; auto).
      rewrite fdiv_Fin by exact NZ. f_equal. unfold Rdiv. lra. }
    assert (I : In d (index (gross_ret fm prices positions))).
    { unfold gross_ret. rewrite index_series_op. apply in_index_union.
      right. now rewrite index_n_open. }
    destruct (lookup_in_index _ _ I) as [a L]. unfold get in V.
    rewrite L in V. now subst a.
Qed.
Lemma trades_nonneg_witness :
  nth_error (trades [(1%Z, [1%Z; 0%Z]); (2%Z, [1%Z; 0%Z]); (3%Z, [0%Z; 0%Z])]) 2
  = Some (3%Z, Fin 0).
Proof.
  apply (proj2 (trades_nonneg
                  [(1%Z, [1%Z; 0%Z]); (2%Z, [1%Z; 0%Z]); (3%Z, [0%Z; 0%Z])])
           0%nat 1%Z 2%Z 3%Z [1%Z; 0%Z] [0%Z; 0%Z]); reflexivity.
Defined.

Lemma backtest_unaligned_dates_witness :
  lookup 1%Z (fst (backtest FillNone [(1%Z, [Fin 1]); (2%Z, [Fin 2])]
                     [(2%Z, [0%Z]); (3%Z, [1%Z])] default_cost_per_trade))
  = Some NaN
  /\ lookup 3%Z (gross_ret FillNone [(1%Z, [Fin 1]); (2%Z, [Fin 2])]
                   [(2%Z, [0%Z]); (3%Z, [1%Z])])
     = Some (Fin 0).
Proof.
  split.
  - apply (proj1 (backtest_unaligned_dates FillNone
                    [(1%Z, [Fin 1]); (2%Z, [Fin 2])]
                    [(2%Z, [0%Z]); (3%Z, [1%Z])] default_cost_per_trade 1%Z)).
    + simpl. auto.
    + simpl. lia.
  - apply (proj2 (backtest_unaligned_dates FillNone
                    [(1%Z, [Fin 1]); (2%Z, [Fin 2])]
                    [(2%Z, [0%Z]); (3%Z, [1%Z])] default_cost_per_trade 3%Z)).
    + simpl. auto.
    + simpl. lia.
Defined.

(* ------------------------------------------------------------------ *)
(** ** The lag, on two runs *)

Lemma differ_from_map_rows {A B} (f : list A -> list B) T X1 X2 :
  (forall r, List.length (f r) = List.length r) ->
  differ_from T X1 X2 -> differ_from T (map_rows f X1) (map_rows f X2).
Proof.
  intros Hf [pre [a1 [a2 [post1 [post2 [-> [-> [L N]]]]]]]].
  exists (map_rows f pre), (f a1), (f a2), (map_rows f post1), (map_rows f post2).
  unfold map_rows at 1 4. rewrite !map_app. simpl.
  repeat split.
  - now rewrite !Hf.
  - now rewrite index_map_rows.
Qed.

Lemma positions_differ_from T p1 p2 e x :
  differ_from T (clean p1) (clean p2) ->
  differ_from T (generate_positions (compute_basket_zscores p1) e x)
                (generate_positions (compute_basket_zscores p2) e x).
Proof.
  intros H. rewrite !generate_positions_cells, !compute_basket_zscores_rows.
  apply differ_from_map_cells.
  apply differ_from_map_rows; auto.
  intros r. unfold zscore_row. apply length_map.
Qed.

Lemma shifted_pos_agree T X1 X2 :
  differ_from T X1 X2 -> agree_through T (shifted_pos X1) (shifted_pos X2).
Proof.
  intros H. unfold shifted_pos, map_cells at 1 3.
  apply agree_through_map_rows, shift1_differ_from.
  now apply differ_from_map_cells.
Qed.

(** One-period lag.  Take two price tables that share their rows before
    a date [T] and have a price at [T]; they may differ at [T] and at
    every later date.  The lagged positions, the number of open positions
    and the turnover that enter the strategy return of [T] are the same
    in both runs: what the pipeline holds over the period ending at [T]
    was decided on prices before [T]. *)
Theorem lagged_positions_ignore_prices_from_T
    T pre r1 post1 r2 post2 entry_thresh exit_thresh :
  ~ In T (index pre) ->
  List.length r1 = List.length r2 ->
  existsb notna r1 = true -> existsb notna r2 = true ->
  let pos1 := generate_positions
                (compute_basket_zscores (pre ++ (T, r1) :: post1))
                entry_thresh exit_thresh in
  let pos2 := generate_positions
                (compute_basket_zscores (pre ++ (T, r2) :: post2))
                entry_thresh exit_thresh in
  lookup T (shifted_pos pos1) = lookup T (shifted_pos pos2)
  /\ lookup T (n_open pos1) = lookup T (n_open pos2)
  /\ lookup T (trades pos1) = lookup T (trades pos2)
  /\ exists lag, lookup T (shifted_pos pos1) = Some lag.
Proof.
  intros N L E1 E2 pos1 pos2.
  assert (D : differ_from T pos1 pos2).
  { apply positions_differ_from.
    apply (clean_differ_from T _ _ post2 r1 r2 pre post1); auto. }
  pose proof (shifted_pos_agree _ _ _ D) as A.
  split; [now apply agree_through_lookup |].
  split; [| split].
  - unfold n_open. now apply agree_through_lookup, agree_through_map_rows,
      agree_through_map_rows.
  - unfold trades, map_cells, diff.
    now apply agree_through_lookup, agree_through_map_rows,
      agree_through_map_rows, agree_through_zip_shift1.
  - destruct A as [pre' [a [q1 [q2 [-> [_ N']]]]]].
    exists a. now apply lookup_app_here.
Qed.
Lemma lagged_positions_ignore_prices_from_T_witness :
  lookup 2%Z (shifted_pos (generate_positions (compute_basket_zscores prices_run1)
                             default_entry_thresh default_exit_thresh))
  = lookup 2%Z (shifted_pos (generate_positions (compute_basket_zscores prices_run2)
                               default_entry_thresh default_exit_thresh))
  /\ lookup 2%Z (n_open (generate_positions (compute_basket_zscores prices_run1)
                           default_entry_thresh default_exit_thresh))
     = lookup 2%Z (n_open (generate_positions (compute_basket_zscores prices_run2)
                             default_entry_thresh default_exit_thresh))
  /\ lookup 2%Z (trades (generate_positions (compute_basket_zscores prices_run1)
                           default_entry_thresh default_exit_thresh))
     = lookup 2%Z (trades (generate_positions (compute_basket_zscores prices_run2)
                             default_entry_thresh default_exit_thresh))
  /\ exists lag,
       lookup 2%Z (shifted_pos (generate_positions
                                  (compute_basket_zscores prices_run1)
                                  default_entry_thresh default_exit_thresh))
       = Some lag.
Proof.
  apply (lagged_positions_ignore_prices_from_T 2%Z
           [(1%Z, [Fin 1; Fin 5; Fin 5; Fin 5])]
           [Fin 2; Fin 5; Fin 5; Fin 5] []
           [Fin 3; Fin 5; Fin 5; Fin 5] []
           default_entry_thresh default_exit_thresh).
  - simpl. lia.
  - reflexivity.
  - reflexivity.
  - reflexivity.
Defined.

(* ------------------------------------------------------------------ *)
(** ** The default of [pct_change] *)

Lemma fill_row_no_gap prev r :
  Forall (fun x => is_nan x = false) r -> fill_row is_nan NaN prev r = r.
Proof.
  intros H. revert prev. induction H as [| x r Hx _ IH]; intros prev; simpl; auto.
  now rewrite Hx, IH.
Qed.

Lemma ffill_no_gap t :
  all_cells (fun x => is_nan x = false) t -> ffill t = t.
Proof.
  unfold ffill, ffill_gen. intros H. generalize (@nil fl) as prev.
  induction H as [| [d r] t Hr _ IH]; intros prev; simpl; auto.
  simpl in Hr. now rewrite (fill_row_no_gap _ _ Hr), IH.
Qed.

(** On a price table without missing cell the forward fill that
    [pct_change] applied by default before pandas 3.0 has nothing to
    fill: [backtest] returns the same series under either default. *)
Theorem backtest_fill_method_irrelevant prices positions cost_per_trade :
  all_cells (fun x => is_nan x = false) prices ->
  backtest FillPad prices positions cost_per_trade
  = backtest FillNone prices positions cost_per_trade.
Proof.
  intros H.
  assert (E : daily_ret FillPad prices = daily_ret FillNone prices).
  { unfold daily_ret, pct_change. now rewrite (ffill_no_gap _ H). }
  unfold backtest, strat_ret, gross_ret. now rewrite E.
Qed.

Lemma backtest_fill_method_irrelevant_witness :
  backtest FillPad prices_AB [(1%Z, [1%Z; 0%Z])] default_cost_per_trade
  = backtest FillNone prices_AB [(1%Z, [1%Z; 0%Z])] default_cost_per_trade.
Proof.
  apply (backtest_fill_method_irrelevant prices_AB [(1%Z, [1%Z; 0%Z])]
           default_cost_per_trade).
  unfold all_cells, prices_AB.
  repeat (apply Forall_cons || apply Forall_nil); reflexivity.
Defined.

Lemma ret_cell_self y : ret_cell y y = Fin 0.
Proof.
  unfold ret_cell, pct_cell. destruct y as [| | | v]; try reflexivity.
  destruct (Req_dec_T v 0) as [-> | NZ].
  - now rewrite fdiv_Fin_0_0.
  - rewrite fdiv_Fin, fsub_Fin by exact NZ. unfold fillna0. simpl.
    f_equal. field. exact NZ.
Qed.

Lemma nth_error_fill_row_NaN prev r j p :
  nth_error r j = Some NaN -> nth_error prev j = Some p ->
  nth_error (fill_row is_nan NaN prev r) j = Some p.
Proof.
  revert prev j. induction r as [| x r IH]; intros prev j Hr Hp.
  - now destruct j.
  - destruct prev as [| y prev]; [now destruct j |].
    destruct j as [| j]; simpl in *.
    + injection Hr as ->. injection Hp as ->. reflexivity.
    + apply IH; auto.
Qed.

Lemma nth_error_ffill_from_S prev t i d0 r0 d1 r1 :
  nth_error t i = Some (d0, r0) ->
  nth_error t (S i) = Some (d1, r1) ->
  exists st,
    nth_error (ffill_from is_nan NaN prev t) i = Some (d0, st)
    /\ List.length st = List.length r0
    /\ nth_error (ffill_from is_nan NaN prev t) (S i)
       = Some (d1, fill_row is_nan NaN st r1).
Proof.
  revert prev i. induction t as [| [d r] t IH]; intros prev i H0 H1.
  - now destruct i.
  - destruct i as [| i].
    + simpl in H0. injection H0 as -> ->.
      destruct t as [| [d' r'] t]; [discriminate |].
      simpl in H1. injection H1 as -> ->.
      exists (fill_row is_nan NaN prev r0). simpl.
      repeat split. apply length_fill_row.
    + simpl in H0. change (nth_error t (S i) = Some (d1, r1)) in H1.
      simpl ffill_from.
      destruct (IH (fill_row is_nan NaN prev r) i H0 H1) as [st [A [B C]]].
      exists st. repeat split; auto.
Qed.
Lemma returns_next data i d0 s0 d1 s1 :
  nth_error data i = Some (d0, s0) ->
  nth_error data (S i) = Some (d1, s1) ->
  nth_error (map_cells fillna0 (frame_zip pct_cell data (shift1 data))) (S i)
  = Some (d1, zip_with ret_cell s1 s0).
Proof.
  intros H0 H1. unfold map_cells, frame_zip.
  rewrite nth_error_map_rows, nth_error_zip_with, nth_error_shift1_S.
  rewrite H0, H1. simpl. f_equal. f_equal.
  clear. revert s0. induction s1 as [| x s1 IH]; intros [| y s0]; simpl; auto.
  now rewrite IH.
Qed.

(** Whatever the default of [pct_change], the period return of an
    instrument at a date where its price is missing is exactly 0: without
    fill the change is missing and [fillna(0)] replaces it, with the
    forward fill the price is carried over and the change is 0. *)
Theorem missing_price_return_zero fm prices i j d0 r0 d1 r1 prev :
  nth_error prices i = Some (d0, r0) ->
  nth_error prices (S i) = Some (d1, r1) ->
  nth_error r1 j = Some NaN ->
  nth_error r0 j = Some prev ->
  exists row,
    nth_error (daily_ret fm prices) (S i) = Some (d1, row)
    /\ nth_error row j = Some (Fin 0).
Proof.
  intros H0 H1 Hx Hp. unfold daily_ret, pct_change. destruct fm.
  - unfold ffill, ffill_gen.
    destruct (nth_error_ffill_from_S [] prices i d0 r0 d1 r1 H0 H1)
      as [st [A [B C]]].
    exists (zip_with ret_cell (fill_row is_nan NaN st r1) st). split.
    + now apply returns_next with (d0 := d0).
    + assert (P : exists p, nth_error st j = Some p).
      { destruct (nth_error st j) as [p |] eqn:E; [eauto |].
        apply nth_error_None in E. rewrite B in E.
        assert (j < List.length r0)%nat.
        { apply nth_error_Some. rewrite Hp. discriminate. }
        lia. }
      destruct P as [p P].
      rewrite nth_error_zip_with, (nth_error_fill_row_NaN st r1 j p Hx P), P.
      f_equal. apply ret_cell_self.
  - exists (zip_with ret_cell r1 r0). split.
    + now apply returns_next with (d0 := d0).
    + rewrite nth_error_zip_with, Hx, Hp.
      now rewrite (ret_cell_missing NaN prev (or_introl eq_refl)).
Qed.

Lemma missing_price_return_zero_witness :
  exists row,
    nth_error (daily_ret FillPad prices_gap) 1 = Some (2%Z, row)
    /\ nth_error row 0 = Some (Fin 0).
Proof.
  apply (missing_price_return_zero FillPad prices_gap 0%nat 0%nat
           1%Z [Fin 100; Fin 50] 2%Z [NaN; Fin 50] (Fin 100)); reflexivity.
Defined.
(* ------------------------------------------------------------------ *)
(** ** Compounding *)

Lemma cumprod_from_series a l k d v :
  nth_error l k = Some (d, v) ->
  nth_error (cumprod_from (Fin a) (map_rows (fadd (Fin 1)) (series_of l))) k
  = Some (d, Fin (a * Rprod (growth (S k) l))).
Proof.
  revert a k. induction l as [| [d0 v0] l IH]; intros a k H.
  - now destruct k.
  - unfold series_of, map_rows in *. simpl map. rewrite fadd_Fin. simpl cumprod_from.
    rewrite fmul_Fin. destruct k as [| k].
    + simpl in H. injection H as -> ->. simpl. f_equal. f_equal. f_equal.
      unfold growth, Rprod. simpl. destruct l; simpl; ring.
    + simpl in H. simpl nth_error. rewrite (IH _ _ H). f_equal. f_equal. f_equal.
      unfold growth, Rprod. simpl. ring.
Qed.

(** The cumulative return compounds the period returns: on a series of
    numbers, its value at a date is the product of [1 + r] over the
    returns up to that date, minus 1. *)
Theorem cum_of_compounds l k d v :
  nth_error l k = Some (d, v) ->
  nth_error (cum_of (series_of l)) k
  = Some (d, Fin (Rprod (growth (S k) l) - 1)).
Proof.
  intros H. unfold cum_of, cumprod.
  rewrite nth_error_map_rows, (cumprod_from_series 1 l k d v H). simpl.
  rewrite fsub_Fin. f_equal. f_equal. f_equal. ring.
Qed.

Lemma cum_of_compounds_witness :
  nth_error (cum_of (series_of [(1%Z, 0); (2%Z, 1 / 10); (3%Z, -1 / 2)])) 2
  = Some (3%Z, Fin (Rprod (growth 3 [(1%Z, 0); (2%Z, 1 / 10); (3%Z, -1 / 2)]) - 1)).
Proof.
  apply (cum_of_compounds [(1%Z, 0); (2%Z, 1 / 10); (3%Z, -1 / 2)] 2%nat 3%Z (-1 / 2)).
  reflexivity.
Defined.

Lemma length_cumprod_from acc s :
  List.length (cumprod_from acc s) = List.length s.
Proof.
  revert acc. induction s as [| [d x] s IH]; intros acc; simpl; auto.
  destruct (is_nan x); simpl; now rewrite IH.
Qed.

Lemma cumprod_from_app acc x :
  exists acc',
    forall y, cumprod_from acc (x ++ y) = cumprod_from acc x ++ cumprod_from acc' y.
Proof.
  revert acc. induction x as [| [d v] x IH]; intros acc.
  - exists acc. reflexivity.
  - simpl. destruct (is_nan v).
    + destruct (IH acc) as [acc' E]. exists acc'. intros y. now rewrite E.
    + destruct (IH (fmul acc v)) as [acc' E]. exists acc'. intros y.
      now rewrite E.
Qed.

(** A missing period return is skipped by the compounding: the
    cumulative series is missing at that date, and at every other date it
    is what it would be without that date. *)
Theorem cum_of_skips_missing a d b :
  cum_of (a ++ (d, NaN) :: b)
  = firstn (List.length a) (cum_of (a ++ b))
    ++ (d, NaN) :: skipn (List.length a) (cum_of (a ++ b)).
Proof.
  unfold cum_of, cumprod, map_rows. rewrite !map_app. simpl map.
  destruct (cumprod_from_app (Fin 1)
              (map (fun dr => (fst dr, fadd (Fin 1) (snd dr))) a)) as [acc' E].
  rewrite !E. simpl cumprod_from. rewrite !map_app. simpl map.
  set (A := map (fun dr : Z * fl => (fst dr, fsub (snd dr) (Fin 1)))
              (cumprod_from (Fin 1)
                 (map (fun dr => (fst dr, fadd (Fin 1) (snd dr))) a))).
  assert (L : List.length A = List.length a).
  { unfold A. now rewrite length_map, length_cumprod_from, length_map. }
  rewrite <- L.
  rewrite firstn_app, Nat.sub_diag, firstn_all, firstn_O, app_nil_r.
  rewrite skipn_app, Nat.sub_diag, skipn_all, skipn_O. reflexivity.
Qed.
(* ------------------------------------------------------------------ *)
(** ** The benchmark *)

Lemma ffill_series_from_series_of p l :
  ffill_series_from p (series_of l) = series_of l.
Proof.
  revert p. induction l as [| [d v] l IH]; intros p; simpl; auto.
  now rewrite IH.
Qed.

Lemma cum_ratio_series a p l :
  p <> 0 -> Forall (fun dm => snd dm <> 0) l ->
  cumprod_from (Fin a)
    (map_rows (fadd (Fin 1))
       (map_rows fillna0
          (series_zip pct_cell (series_of l) (shift_from (Fin p) (series_of l)))))
  = series_of (map (fun dm => (fst dm, a * (snd dm / p))) l).
Proof.
  intros NP H. revert a p NP.
  induction H as [| [d m] l Hm _ IH]; intros a p NP; [reflexivity |].
  simpl in Hm. unfold series_of, series_zip, map_rows in *.
  cbn [map zip_with shift_from fst snd].
  unfold pct_cell at 1. rewrite fdiv_Fin, fsub_Fin by exact NP.
  unfold fillna0 at 1. cbn [is_nan]. rewrite fadd_Fin.
  cbn [cumprod_from is_nan].
  rewrite fmul_Fin. f_equal.
  - f_equal. f_equal. field. exact NP.
  - fold (@shift_from fl). rewrite (IH _ m Hm). rewrite !map_map. apply map_ext.
    intros [d' m']. simpl. f_equal. f_equal. field. split; assumption.
Qed.

Lemma means_series df :
  means_nonzero df ->
  exists ms, map_rows row_mean df = series_of ms
             /\ Forall (fun dm => snd dm <> 0) ms.
Proof.
  induction 1 as [| [d r] df (m & E & NZ) _ (ms & E' & F)].
  - exists []. split; [reflexivity | constructor].
  - exists ((d, m) :: ms). split.
    + unfold map_rows, series_of in *. simpl in *. now rewrite E, E'.
    + constructor; assumption.
Qed.

Lemma bench_cum_series fm d0 m0 ms :
  m0 <> 0 -> Forall (fun dm => snd dm <> 0) ms ->
  cum_of (map_rows fillna0 (pct_change_series fm (series_of ((d0, m0) :: ms))))
  = series_of (map (fun dm => (fst dm, snd dm / m0 - 1)) ((d0, m0) :: ms)).
Proof.
  intros N0 F.
  assert (E : pct_change_series fm (series_of ((d0, m0) :: ms))
              = series_zip pct_cell (series_of ((d0, m0) :: ms))
                  (shift1_series (series_of ((d0, m0) :: ms)))).
  { unfold pct_change_series. destruct fm; [| reflexivity].
    now rewrite ffill_series_from_series_of. }
  rewrite E. unfold cum_of, cumprod, shift1_series.
  change (series_of ((d0, m0) :: ms)) with ((d0, Fin m0) :: series_of ms).
  simpl shift_from. unfold series_zip at 1. simpl zip_with.
  fold (series_zip pct_cell (series_of ms) (shift_from (Fin m0) (series_of ms))).
  unfold pct_cell at 1. rewrite fdiv_NaN_r, fsub_NaN_l.
  unfold map_rows at 3. simpl map. unfold fillna0 at 1. simpl is_nan. cbv iota.
  fold (map_rows fillna0
          (series_zip pct_cell (series_of ms) (shift_from (Fin m0) (series_of ms)))).
  unfold map_rows at 2. simpl map. rewrite fadd_Fin.
  fold (map_rows (fadd (Fin 1))
          (map_rows fillna0
             (series_zip pct_cell (series_of ms) (shift_from (Fin m0) (series_of ms))))).
  simpl cumprod_from. rewrite fmul_Fin.
  rewrite (cum_ratio_series _ m0 ms N0 F).
  unfold map_rows, series_of. simpl. rewrite fsub_Fin. f_equal.
  - f_equal. f_equal. field. exact N0.
  - rewrite !map_map. apply map_ext. intros [d m]. simpl. rewrite fsub_Fin.
    f_equal. f_equal. field. exact N0.
Qed.

(** The benchmark's cumulative return telescopes: when every row of the
    table has a mean price that is a number other than 0, its value at a
    date is the mean price of that date over the mean price of the first
    date, minus 1, under either default of [pct_change]. *)
Theorem bench_cum_total_change fm df k d0 r0 m0 d r m :
  means_nonzero df ->
  nth_error df 0 = Some (d0, r0) -> row_mean r0 = Fin m0 ->
  nth_error df k = Some (d, r) -> row_mean r = Fin m ->
  nth_error (bench_cum fm df) k = Some (d, Fin (m / m0 - 1)).
Proof.
  intros H H0 M0 Hk Mk.
  destruct (means_series df H) as (ms & E & F).
  assert (Ek : nth_error ms k = Some (d, m)).
  { assert (X : nth_error (map_rows row_mean df) k = Some (d, Fin m)).
    { rewrite nth_error_map_rows, Hk. simpl. now rewrite Mk. }
    rewrite E in X. unfold series_of in X. rewrite nth_error_map in X.
    destruct (nth_error ms k) as [[d' m'] |]; [| discriminate].
    simpl in X. now injection X as -> ->. }
  assert (E0 : nth_error ms 0 = Some (d0, m0)).
  { assert (X : nth_error (map_rows row_mean df) 0 = Some (d0, Fin m0)).
    { rewrite nth_error_map_rows, H0. simpl. now rewrite M0. }
    rewrite E in X. unfold series_of in X. rewrite nth_error_map in X.
    destruct (nth_error ms 0) as [[d' m'] |]; [| discriminate].
    simpl in X. now injection X as -> ->. }
  destruct ms as [| [d0' m0'] ms]; [discriminate |].
  simpl in E0. injection E0 as -> ->.
  unfold bench_cum, bench_ret. rewrite E.
  rewrite bench_cum_series.
  - unfold series_of. rewrite map_map, nth_error_map, Ek. reflexivity.
  - now inversion F.
  - now inversion F.
Qed.

Lemma bench_cum_total_change_witness :
  nth_error (bench_cum FillPad [(1%Z, [Fin 1; Fin 3]); (2%Z, [Fin 2; NaN]);
                                (3%Z, [Fin 5; Fin 1])]) 2
  = Some (3%Z, Fin (3 / 2 - 1)).
Proof.
  apply (bench_cum_total_change FillPad _ 2%nat 1%Z [Fin 1; Fin 3] 2 3%Z
           [Fin 5; Fin 1] 3).
  - repeat (apply Forall_cons || apply Forall_nil); simpl.
    + exists 2. split; [fl_eval; f_equal; lra | lra].
    + exists 2. split; [fl_eval; f_equal; lra | lra].
    + exists 3. split; [fl_eval; f_equal; lra | lra].
  - reflexivity.
  - fl_eval. f_equal. lra.
  - reflexivity.
  - fl_eval. f_equal. lra.
Defined.
(* ------------------------------------------------------------------ *)
(** ** The Sharpe ratio *)

Lemma Rsum_zeros l : Forall (fun v => v = 0) l -> Rsum l = 0.
Proof.
  induction 1 as [| v l -> _ IH]; [reflexivity |].
  rewrite Rsum_cons, IH. lra.
Qed.

Lemma Rvar_zeros l : Forall (fun v => v = 0) l -> Rvar l = 0.
Proof.
  intros H. unfold Rvar. rewrite Rsum_zeros; [unfold Rdiv; ring |].
  unfold Rsq_dev. apply Forall_map.
  assert (M : Rmean l = 0) by (unfold Rmean; rewrite (Rsum_zeros l H); unfold Rdiv; ring).
  rewrite M. apply Forall_forall. intros v Hv.
  rewrite (proj1 (Forall_forall _ l) H v Hv). ring.
Qed.

Lemma s_sharpe_zero_returns (l : list Z) s_cagr :
  s_sharpe s_cagr (vol (map (fun d => (d, Fin 0)) l)) = NaN.
Proof.
  unfold s_sharpe, vol. rewrite map_map. simpl.
  replace (map (fun _ : Z => Fin 0) l) with (map Fin (map (fun _ : Z => 0) l))
    by now rewrite map_map.
  destruct (Nat.le_gt_cases 2 (List.length l)) as [L | L].
  - rewrite row_std_Fin by now rewrite length_map.
    rewrite Rvar_zeros by (apply Forall_map, Forall_forall; reflexivity).
    rewrite sqrt_0, fmul_Fin, is_zero_Fin_true by ring. reflexivity.
  - rewrite row_std_few.
    + rewrite fmul_NaN_l, is_zero_NaN. apply fdiv_NaN_r.
    + rewrite filter_notna_Fin, !length_map. lia.
Qed.

(** A strategy that never holds a position has no Sharpe ratio: on a
    price table with at least one date and a position table of zeros on
    its index, the printed ratio is NaN whatever the annualised return.
    With two dates or more the volatility is 0 and the guard answers;
    with one date the volatility is missing, passes the guard as a
    non-zero float, and the division gives NaN. *)
Theorem sharpe_flat_strategy fm prices positions cost_per_trade s_cagr :
  prices <> [] ->
  index prices = index positions ->
  all_cells (fun p => p = 0%Z) positions ->
  s_sharpe s_cagr (vol (fst (backtest fm prices positions cost_per_trade))) = NaN.
Proof.
  intros _ HI H. rewrite (backtest_flat_helper fm prices positions _ HI H).
  apply s_sharpe_zero_returns.
Qed.

Lemma sharpe_flat_strategy_witness :
  s_sharpe (Fin 0)
    (vol (fst (backtest FillNone prices_AB
                 [(1%Z, [0%Z; 0%Z]); (2%Z, [0%Z; 0%Z]); (3%Z, [0%Z; 0%Z])]
                 default_cost_per_trade)))
  = NaN.
Proof.
  apply (sharpe_flat_strategy FillNone prices_AB
           [(1%Z, [0%Z; 0%Z]); (2%Z, [0%Z; 0%Z]); (3%Z, [0%Z; 0%Z])]).
  - discriminate.
  - reflexivity.
  - repeat (apply Forall_cons || apply Forall_nil); reflexivity.
Defined.
(* ------------------------------------------------------------------ *)
(** ** Fetching and rebasing *)

Lemma dropna_all_missing t :
  all_cells (fun x => x = NaN) t -> dropna_all t = [].
Proof.
  unfold dropna_all. induction 1 as [| [d r] t Hr _ IH]; [reflexivity |].
  simpl in *. rewrite IH.
  assert (E : existsb notna r = false).
  { clear IH. induction Hr as [| x r -> _ IHr]; [reflexivity | exact IHr]. }
  now rewrite E.
Qed.

(** The guard of [fetch_price_series] looks at the table before its
    all-missing rows are dropped: for several tickers, a download that has
    rows but no price at all passes the guard, and the function returns a
    table without rows instead of raising. *)
Theorem fetch_price_series_returns_empty tickers downloaded :
  List.length tickers <> 1%nat ->
  frame_empty downloaded = false ->
  all_cells (fun x => x = NaN) downloaded ->
  fetch_price_series tickers downloaded = Returned [].
Proof.
  intros N E H. unfold fetch_price_series. rewrite E.
  destruct (Nat.eqb_spec (List.length tickers) 1) as [L | _]; [contradiction |].
  now rewrite dropna_all_missing.
Qed.

Lemma fetch_price_series_returns_empty_witness :
  fetch_price_series ["RY.TO"%string; "TD.TO"%string] prices_all_missing
  = Returned [].
Proof.
  apply fetch_price_series_returns_empty.
  - simpl. lia.
  - reflexivity.
  - repeat (apply Forall_cons || apply Forall_nil); reflexivity.
Defined.

Lemma rebase_cell_NaN x : rebase_cell x NaN = NaN.
Proof. unfold rebase_cell. now rewrite fdiv_NaN_r, fmul_NaN_l. Qed.

Lemma rebase_cell_self v : v <> 0 -> rebase_cell (Fin v) (Fin v) = Fin 100.
Proof.
  intros H. unfold rebase_cell. rewrite fdiv_Fin, fmul_Fin by exact H.
  f_equal. field. exact H.
Qed.

(** Rebasing to 100 takes the first date as the base of every
    instrument: an instrument whose first price is a number other than 0
    starts at 100, and an instrument without a price on the first date is
    missing at every date of the rebased table. *)
Theorem rebased_first_date d0 r0 rest out :
  rebased ((d0, r0) :: rest) = Some out ->
  (forall j v, nth_error r0 j = Some (Fin v) -> v <> 0 ->
     exists r, nth_error out 0 = Some (d0, r) /\ nth_error r j = Some (Fin 100))
  /\ (forall j i d r x, nth_error r0 j = Some NaN ->
        nth_error out i = Some (d, r) -> nth_error r j = Some x -> x = NaN).
Proof.
  intros H. simpl in H. injection H as <-. split.
  - intros j v Hj NZ. eexists. split; [reflexivity |].
    rewrite nth_error_zip_with, Hj. simpl. now rewrite rebase_cell_self.
  - intros j i d r x Hj Hi Hx.
    change ((d0, zip_with rebase_cell r0 r0)
            :: map_rows (fun r => zip_with rebase_cell r r0) rest)
      with (map_rows (fun r => zip_with rebase_cell r r0) ((d0, r0) :: rest)) in Hi.
    rewrite nth_error_map_rows in Hi.
    destruct (nth_error ((d0, r0) :: rest) i) as [[d' r'] |]; [| discriminate].
    simpl in Hi. injection Hi as <- <-.
    rewrite nth_error_zip_with, Hj in Hx.
    destruct (nth_error r' j) as [y |]; [| discriminate].
    simpl in Hx. injection Hx as <-. apply rebase_cell_NaN.
Qed.

Lemma rebased_first_date_witness :
  (forall j v, nth_error [Fin 90; NaN] j = Some (Fin v) -> v <> 0 ->
     exists r, nth_error [(1%Z, [Fin 100; NaN]); (2%Z, [Fin 110; NaN])] 0
               = Some (1%Z, r)
               /\ nth_error r j = Some (Fin 100))
  /\ (forall j i d r x, nth_error [Fin 90; NaN] j = Some NaN ->
        nth_error [(1%Z, [Fin 100; NaN]); (2%Z, [Fin 110; NaN])] i = Some (d, r) ->
        nth_error r j = Some x -> x = NaN).
Proof.
  apply (rebased_first_date 1%Z [Fin 90; NaN] [(2%Z, [Fin 99; Fin 5])]).
  unfold rebased, map_rows, rebase_cell. simpl. fl_eval.
  repeat (f_equal; try lra).
Defined.

(* ------------------------------------------------------------------ *)
(** ** Rounded row statistics *)

Section RoundedFacts.
Variables (u : R) (rnd : R -> R).
Hypothesis SM : standard_model u rnd.

Lemma rnd_zero_inv x : rnd x = 0 -> x = 0.
Proof.
  destruct SM as [[U0 U1] E]. intros H. specialize (E x).
  rewrite H in E. replace (0 - x) with (- x) in E by ring.
  rewrite Rabs_Ropp in E.
  destruct (Req_dec (Rabs x) 0) as [Z | NZ].
  - destruct (Req_dec x 0) as [-> | N]; [reflexivity |].
    exfalso. revert Z. now apply Rabs_no_R0.
  - pose proof (Rabs_pos x). nra.
Qed.

Lemma rnd_0 : rnd 0 = 0.
Proof.
  destruct SM as [_ E]. specialize (E 0).
  rewrite Rabs_R0, Rmult_0_r in E.
  replace (rnd 0 - 0) with (rnd 0) in E by ring.
  pose proof (Rabs_pos (rnd 0)) as P.
  destruct (Req_dec (rnd 0) 0) as [Z | N]; [exact Z |].
  apply Rabs_pos_lt in N. lra.
Qed.

Lemma rnd_nonneg x : 0 <= x -> 0 <= rnd x.
Proof.
  destruct SM as [[U0 U1] E]. intros H. specialize (E x).
  rewrite (Rabs_pos_eq x H) in E.
  pose proof (Rle_abs (x - rnd x)) as A.
  rewrite (Rabs_minus_sym x (rnd x)) in A. nra.
Qed.

Lemma round_finite_inv y s : round rnd y = Fin s -> exists t, y = Fin t /\ rnd t = s.
Proof. destruct y as [| | | t]; try discriminate. intros H. injection H as H. eauto. Qed.

Lemma fold_left_radd_finite_inv l a s :
  fold_left (radd rnd) l a = Fin s -> finite a /\ Forall finite l.
Proof.
  revert a. induction l as [| x l IH]; intros a H; simpl in H.
  - subst a. split; [exact I | constructor].
  - destruct (IH _ H) as [Fa Fl]. unfold radd in Fa.
    assert (F : finite (fadd a x)).
    { destruct (fadd a x); simpl in *; auto. }
    destruct (fadd_finite_inv _ _ F) as [Ha Hx]. auto.
Qed.

Lemma fold_left_radd_zero l a :
  0 <= a -> Forall (fun t => 0 <= t) l ->
  fold_left (radd rnd) (map Fin l) (Fin a) = Fin 0 ->
  a = 0 /\ Forall (fun t => t = 0) l.
Proof.
  intros Ha N. revert a Ha. induction N as [| t l Ht _ IH]; intros a Ha H.
  - simpl in H. injection H as ->. split; [reflexivity | constructor].
  - simpl in H. unfold radd at 2 in H. rewrite fadd_Fin in H. simpl round in H.
    destruct (IH (rnd (a + t))) as [Z F]; auto.
    { apply rnd_nonneg. lra. }
    apply rnd_zero_inv in Z. split; [lra |]. constructor; [lra | exact F].
Qed.

Lemma rsum_zero_nonneg l :
  Forall (fun y => match y with Fin t => 0 <= t | _ => True end) l ->
  rsum rnd l = Fin 0 -> Forall (fun y => y = Fin 0) l.
Proof.
  intros N S. unfold rsum in S.
  destruct (fold_left_radd_finite_inv _ _ _ S) as [_ F].
  destruct (Forall_finite_inv _ F) as [ts ->].
  rewrite Forall_map in N.
  destruct (fold_left_radd_zero ts 0 (Rle_refl 0) N S) as [_ Z].
  apply Forall_map. revert Z. apply Forall_impl. now intros t ->.
Qed.

Lemma rsquare_nonneg e :
  match rmul rnd e e with Fin t => 0 <= t | _ => True end.
Proof.
  destruct e as [| | | v]; try exact I.
  unfold rmul. rewrite fmul_Fin. simpl. apply rnd_nonneg. nra.
Qed.

Lemma rsquare_zero_inv avg x :
  rmul rnd (rsub rnd avg x) (rsub rnd avg x) = Fin 0 ->
  exists m, avg = Fin m /\ x = Fin m.
Proof.
  intros H. unfold rmul in H.
  destruct (round_finite_inv _ _ H) as [t [E Z]].
  apply rnd_zero_inv in Z. subst t.
  destruct (rsub rnd avg x) as [| | | e] eqn:D; try discriminate.
  rewrite fmul_Fin in E. injection E as E.
  assert (e = 0) by nra. subst e.
  unfold rsub in D. destruct (round_finite_inv _ _ D) as [t [E' Z']].
  apply rnd_zero_inv in Z'. subst t.
  destruct avg as [| | | m], x as [| | | v]; try discriminate.
  rewrite fsub_Fin in E'. injection E' as E'.
  exists m. split; [reflexivity |]. f_equal. lra.
Qed.

Lemma rsqrt_zero_inv v : rsqrt rnd v = Fin 0 -> v = Fin 0.
Proof.
  intros H. unfold rsqrt in H.
  destruct (round_finite_inv _ _ H) as [t [E Z]].
  apply rnd_zero_inv in Z. subst t. now apply fsqrt_zero_inv.
Qed.

Lemma rdiv_zero_inv s k : k <> 0 -> rdiv rnd s (Fin k) = Fin 0 -> s = Fin 0.
Proof.
  intros NZ H. unfold rdiv in H.
  destruct (round_finite_inv _ _ H) as [t [E Z]].
  apply rnd_zero_inv in Z. subst t. now apply (fdiv_zero_inv s k).
Qed.

(** When the standard deviation computed for a row is 0, every present
    cell of the row equals the mean computed for the row. *)
Lemma row_std_rnd_zero_cells r :
  row_std_rnd rnd r = Fin 0 ->
  exists m, row_mean_rnd rnd r = Fin m
            /\ Forall (fun x => x = NaN \/ x = Fin m) r.
Proof.
  unfold row_std_rnd, row_var_rnd, row_mean_rnd. intros H.
  apply rsqrt_zero_inv in H.
  set (xs := filter notna r) in *.
  destruct (Nat.leb_spec (List.length xs) 1) as [L | L]; [discriminate |].
  cbv zeta in H.
  set (avg := rdiv rnd (rsum rnd xs) (Fin (INR (List.length xs)))) in *.
  apply rdiv_zero_inv in H.
  2:{ apply lt_INR in L. change (INR 1) with 1 in L. lra. }
  apply rsum_zero_nonneg in H.
  2:{ apply Forall_map, Forall_forall. intros x _. apply rsquare_nonneg. }
  rewrite Forall_map in H.
  assert (NE : xs <> []) by (intros E; rewrite E in L; simpl in L; lia).
  assert (M : exists m, avg = Fin m).
  { destruct xs as [| x xs']; [contradiction |].
    inversion H as [| ? ? Hx _]; subst.
    destruct (rsquare_zero_inv _ _ Hx) as [m [E _]]. eauto. }
  destruct M as [m M]. exists m. split.
  - destruct xs; [contradiction | exact M].
  - apply Forall_forall. intros x Hx.
    destruct (is_nan x) eqn:N; [left; now destruct x |]. right.
    assert (I : In x xs).
    { apply filter_In. split; auto. unfold notna. now rewrite N. }
    rewrite Forall_forall in H. specialize (H _ I).
    destruct (rsquare_zero_inv _ _ H) as [m' [E ->]].
    rewrite M in E. now injection E as ->.
Qed.

Lemma zscore_row_rnd_zero_std r :
  row_std_rnd rnd r = Fin 0 -> Forall (fun z => z = NaN) (zscore_row_rnd rnd r).
Proof.
  intros H. destruct (row_std_rnd_zero_cells r H) as [m [M C]].
  unfold zscore_row_rnd. rewrite H, M. apply Forall_map.
  revert C. apply Forall_impl. intros x [-> | ->].
  - reflexivity.
  - unfold rdiv, rsub. rewrite fsub_Fin. simpl round.
    replace (m - m) with 0 by ring. rewrite rnd_0.
    now rewrite fdiv_Fin_0_0.
Qed.

End RoundedFacts.

Lemma compute_basket_zscores_rnd_rows rnd price_df :
  compute_basket_zscores_rnd rnd price_df
  = map_rows (zscore_row_rnd rnd) (clean price_df).
Proof.
  unfold compute_basket_zscores_rnd. rewrite frame_op_series_rows.
  set (c := clean price_df). unfold frame_op_series, map_rows.
  induction c as [| [d r] c IH]; simpl; auto.
  rewrite IH. unfold zscore_row_rnd. now rewrite map_map.
Qed.
(** With no rounding the rounded statistics are the exact ones. *)
Lemma round_exact y : round (fun x => x) y = y.
Proof. now destruct y. Qed.

Lemma rsum_exact l : rsum (fun x => x) l = fsum l.
Proof.
  unfold rsum, fsum. generalize (Fin 0).
  induction l as [| x l IH]; intros a; simpl; auto.
  unfold radd at 2. now rewrite round_exact, IH.
Qed.

Lemma row_mean_rnd_exact r : row_mean_rnd (fun x => x) r = row_mean r.
Proof.
  unfold row_mean_rnd, row_mean. destruct (filter notna r); auto.
  unfold rdiv. now rewrite round_exact, rsum_exact.
Qed.

Lemma row_std_rnd_exact r : row_std_rnd (fun x => x) r = row_std r.
Proof.
  unfold row_std_rnd, row_std, row_var_rnd, row_var, rsqrt.
  rewrite round_exact. f_equal.
  destruct (List.length (filter notna r) <=? 1)%nat; auto.
  cbv zeta. unfold rdiv. rewrite !round_exact, !rsum_exact. do 2 f_equal.
  apply map_ext. intros x. unfold rmul, rsub. now rewrite !round_exact.
Qed.

Lemma compute_basket_zscores_rnd_exact price_df :
  compute_basket_zscores_rnd (fun x => x) price_df
  = compute_basket_zscores price_df.
Proof.
  rewrite compute_basket_zscores_rnd_rows, compute_basket_zscores_rows.
  unfold map_rows. apply map_ext. intros [d r]. simpl. f_equal.
  unfold zscore_row_rnd, zscore_row. apply map_ext. intros x.
  unfold rdiv, rsub. now rewrite !round_exact, row_mean_rnd_exact, row_std_rnd_exact.
Qed.

Lemma standard_model_exact : standard_model 0 (fun x => x).
Proof.
  split; [lra |]. intros x. replace (x - x) with 0 by ring.
  rewrite Rabs_R0. lra.
Qed.

Lemma exact_on_integers_exact : exact_on_integers (fun x => x).
Proof. intros k _. reflexivity. Qed.

(* ------------------------------------------------------------------ *)
(** ** Two instruments at the same price *)

Lemma rnd_val rnd x k :
  exact_on_integers rnd -> x = IZR k -> (Z.abs k <=? 2 ^ 53)%Z = true ->
  rnd x = IZR k.
Proof. intros E -> H. apply E. now apply Z.leb_le. Qed.

Ltac rnd_to E k :=
  match goal with
  | |- context [?f ?x] =>
      match type of E with exact_on_integers f => idtac end;
      rewrite (rnd_val f x k E) by (first [lra | reflexivity])
  end.

Lemma row_std_rnd_flat rnd :
  exact_on_integers rnd -> row_std_rnd rnd [Fin 100; Fin 100] = Fin 0.
Proof.
  intros E. unfold row_std_rnd, row_var_rnd, rsum. simpl.
  unfold radd, rsub, rmul, rdiv, rsqrt.
  change (INR 2) with 2.
  rewrite !fadd_Fin. simpl round.
  rnd_to E 100%Z. rnd_to E 200%Z.
  rewrite fdiv_Fin by lra. simpl round. rnd_to E 100%Z.
  repeat rnd_to E 0%Z.
  rewrite fdiv_Fin by lra. simpl round. rnd_to E 0%Z.
  rewrite fsqrt_Fin by lra. simpl round. rewrite sqrt_0. rnd_to E 0%Z.
  reflexivity.
Qed.

Lemma zscore_row_rnd_flat u rnd :
  standard_model u rnd -> exact_on_integers rnd ->
  zscore_row_rnd rnd [Fin 100; Fin 100] = [NaN; NaN].
Proof.
  intros SM E.
  pose proof (zscore_row_rnd_zero_std u rnd SM _ (row_std_rnd_flat rnd E)) as Z.
  assert (L : List.length (zscore_row_rnd rnd [Fin 100; Fin 100]) = 2%nat)
    by (unfold zscore_row_rnd; now rewrite length_map).
  destruct (zscore_row_rnd rnd [Fin 100; Fin 100]) as [| a [| b [| c zr]]];
    try discriminate L.
  inversion Z as [| ? ? Z1 Z']; subst. inversion Z' as [| ? ? Z2 _]; subst.
  reflexivity.
Qed.

Lemma compute_basket_zscores_rnd_flat u rnd :
  standard_model u rnd -> exact_on_integers rnd ->
  compute_basket_zscores_rnd rnd prices_flat
  = [(1%Z, [NaN; NaN]); (2%Z, [NaN; NaN])].
Proof.
  intros SM E. rewrite compute_basket_zscores_rnd_rows.
  change (clean prices_flat) with prices_flat.
  unfold prices_flat, map_rows. cbn [map fst snd].
  now rewrite (zscore_row_rnd_flat u rnd SM E).
Qed.

Lemma pipeline_rnd_flat u rnd fm :
  standard_model u rnd -> exact_on_integers rnd ->
  pipeline_rnd rnd fm prices_flat
  = ([(1%Z, Fin 0); (2%Z, Fin 0)], [(1%Z, Fin 0); (2%Z, Fin 0)]).
Proof.
  intros SM E. rewrite <- (pipeline_flat fm). unfold pipeline_rnd, pipeline.
  now rewrite (compute_basket_zscores_rnd_flat u rnd SM E),
    compute_basket_zscores_flat.
Qed.

(** C6.  The standard deviation is taken as the code computes it, every
    operation rounded ([rnd], under the standard model of floating-point
    arithmetic and with the integers up to 2^53 exact).  At a date where
    it is zero every z-score of the date is missing and every position of
    the date is 0, whatever the thresholds; and on two instruments priced
    100 at each of two dates the strategy return is 0 for both periods. *)
Theorem zero_std_no_signal u rnd price_df entry_thresh exit_thresh i d r :
  standard_model u rnd ->
  exact_on_integers rnd ->
  nth_error (clean price_df) i = Some (d, r) ->
  row_std_rnd rnd r = Fin 0 ->
  (exists zr pr,
      nth_error (compute_basket_zscores_rnd rnd price_df) i = Some (d, zr)
      /\ List.length zr = List.length r
      /\ Forall (fun z => z = NaN) zr
      /\ nth_error (generate_positions (compute_basket_zscores_rnd rnd price_df)
                      entry_thresh exit_thresh) i = Some (d, pr)
      /\ List.length pr = List.length r
      /\ Forall (fun p => p = 0%Z) pr)
  /\ (forall fm,
         fst (pipeline_rnd rnd fm prices_flat) = [(1%Z, Fin 0); (2%Z, Fin 0)]).
Proof.
  intros SM E Hi Hs. split; [| intros fm; now rewrite (pipeline_rnd_flat u)].
  pose proof (zscore_row_rnd_zero_std u rnd SM r Hs) as Z.
  exists (zscore_row_rnd rnd r),
    (map (position_cell entry_thresh exit_thresh) (zscore_row_rnd rnd r)).
  rewrite generate_positions_cells. unfold map_cells.
  rewrite compute_basket_zscores_rnd_rows, !nth_error_map_rows, Hi. simpl.
  repeat split; auto.
  - unfold zscore_row_rnd. apply length_map.
  - unfold zscore_row_rnd. now rewrite !length_map.
  - apply Forall_map. revert Z. apply Forall_impl. now intros z ->.
Qed.

Lemma zero_std_no_signal_witness :
  (exists zr pr,
      nth_error (compute_basket_zscores_rnd (fun x => x) prices_AB) 1
      = Some (2%Z, zr)
      /\ List.length zr = 2%nat
      /\ Forall (fun z => z = NaN) zr
      /\ nth_error (generate_positions
                      (compute_basket_zscores_rnd (fun x => x) prices_AB)
                      default_entry_thresh default_exit_thresh) 1
         = Some (2%Z, pr)
      /\ List.length pr = 2%nat
      /\ Forall (fun p => p = 0%Z) pr)
  /\ (forall fm,
         fst (pipeline_rnd (fun x => x) fm prices_flat)
         = [(1%Z, Fin 0); (2%Z, Fin 0)]).
Proof.
  apply (zero_std_no_signal 0 (fun x => x) prices_AB default_entry_thresh
           default_exit_thresh 1%nat 2%Z [Fin 100; Fin 100]).
  - exact standard_model_exact.
  - exact exact_on_integers_exact.
  - reflexivity.
  - apply row_std_rnd_flat. exact exact_on_integers_exact.
Defined.
(* ------------------------------------------------------------------ *)
(** ** No look-ahead *)

Lemma increasing_app_before (a : list Z) x b :
  increasing (a ++ x :: b) -> ~ In x a.
Proof.
  unfold increasing. induction a as [| y a IH]; simpl; intros H; [tauto |].
  inversion H as [| ? ? S F]; subst. intros [E | I].
  - subst y. rewrite Forall_forall in F.
    specialize (F x (in_elt x a b)). lia.
  - now apply IH.
Qed.

Lemma agree_through_inv {A} T (X1 X2 : list (date * A)) :
  agree_through T X1 X2 ->
  exists a, lookup T X1 = Some a /\ lookup T X2 = Some a.
Proof.
  intros [pre [a [post1 [post2 [-> [-> N]]]]]].
  exists a. now rewrite !lookup_app_here.
Qed.

Lemma pipeline_at fm p T lag tr :
  let pos := generate_positions (compute_basket_zscores p)
               default_entry_thresh default_exit_thresh in
  lookup T (shifted_pos pos) = Some lag ->
  lookup T (trades pos) = Some tr ->
  get (fst (pipeline fm p)) T = held_return fm p T lag tr.
Proof.
  intros pos L Lt. cbv beta iota zeta delta [pipeline backtest fst].
  fold pos. unfold strat_ret, held_return.
  rewrite get_series_op.
  - rewrite (get_gross_ret fm p pos T lag L), (get_n_open pos T lag L).
    now rewrite get_map_rows, Lt.
  - right. rewrite index_map_rows. exact (lookup_some_index _ _ _ Lt).
Qed.

(** C2, amended.  Take two price tables with strictly increasing dates
    that differ only in the prices at a single date [T], with a price at
    [T] in both.  The strategy return of every period ending before [T]
    is the same in both runs.  Over the period ending at [T] both runs
    hold the same lagged positions [lag], decided on the prices before
    [T], and are charged the same turnover [tr]; the strategy return of
    each run at [T] is what those positions earn on the run's own period
    returns at [T], less that cost.  The signal of [T] does not enter the
    return of [T]; the price at [T] does, through the return of what is
    already held. *)
Theorem no_look_ahead fm T p1 p2 :
  differ_only_at T p1 p2 ->
  increasing (index p1) ->
  priced_at T p1 -> priced_at T p2 ->
  let pos1 := generate_positions (compute_basket_zscores p1)
                default_entry_thresh default_exit_thresh in
  let pos2 := generate_positions (compute_basket_zscores p2)
                default_entry_thresh default_exit_thresh in
  (forall d, (d < T)%Z ->
     lookup d (fst (pipeline fm p1)) = lookup d (fst (pipeline fm p2)))
  /\ exists lag tr,
       lookup T (shifted_pos pos1) = Some lag
       /\ lookup T (shifted_pos pos2) = Some lag
       /\ lookup T (trades pos1) = Some tr
       /\ lookup T (trades pos2) = Some tr
       /\ get (fst (pipeline fm p1)) T = held_return fm p1 T lag tr
       /\ get (fst (pipeline fm p2)) T = held_return fm p2 T lag tr.
Proof.
  intros [pre [r1 [r2 [post [E1 [E2 L]]]]]] S [a1 [La1 Pa1]] [a2 [La2 Pa2]]
    pos1 pos2.
  assert (N : ~ In T (index pre)).
  { rewrite E1, index_app in S. simpl in S. now apply increasing_app_before in S. }
  split.
  - intros d Hd. subst p1 p2.
    pose proof (not_in_tail pre T r1 post d S Hd) as N'.
    rewrite !pipeline_prefix; auto.
  - rewrite E1, lookup_app_here in La1 by exact N. injection La1 as <-.
    rewrite E2, lookup_app_here in La2 by exact N. injection La2 as <-.
    assert (D : differ_from T pos1 pos2).
    { apply positions_differ_from.
      apply (clean_differ_from T p1 p2 post r1 r2 pre post); auto. }
    pose proof (shifted_pos_agree _ _ _ D) as A.
    assert (At : agree_through T (trades pos1) (trades pos2)).
    { unfold trades, map_cells, diff.
      now apply agree_through_map_rows, agree_through_map_rows,
        agree_through_zip_shift1. }
    destruct (agree_through_inv _ _ _ A) as [lag [L1 L2]].
    destruct (agree_through_inv _ _ _ At) as [tr [T1 T2]].
    exists lag, tr. repeat split; auto.
    + now apply pipeline_at.
    + now apply pipeline_at.
Qed.

Lemma no_look_ahead_witness :
  let pos1 := generate_positions (compute_basket_zscores prices_run1)
                default_entry_thresh default_exit_thresh in
  let pos2 := generate_positions (compute_basket_zscores prices_run2)
                default_entry_thresh default_exit_thresh in
  (forall d, (d < 2)%Z ->
     lookup d (fst (pipeline FillNone prices_run1))
     = lookup d (fst (pipeline FillNone prices_run2)))
  /\ exists lag tr,
       lookup 2%Z (shifted_pos pos1) = Some lag
       /\ lookup 2%Z (shifted_pos pos2) = Some lag
       /\ lookup 2%Z (trades pos1) = Some tr
       /\ lookup 2%Z (trades pos2) = Some tr
       /\ get (fst (pipeline FillNone prices_run1)) 2%Z
          = held_return FillNone prices_run1 2%Z lag tr
       /\ get (fst (pipeline FillNone prices_run2)) 2%Z
          = held_return FillNone prices_run2 2%Z lag tr.
Proof.
  apply (no_look_ahead FillNone 2%Z prices_run1 prices_run2).
  - exists [(1%Z, [Fin 1; Fin 5; Fin 5; Fin 5])],
      [Fin 2; Fin 5; Fin 5; Fin 5], [Fin 3; Fin 5; Fin 5; Fin 5], [].
    repeat split.
  - unfold increasing, prices_run1. simpl.
    repeat constructor.
  - exists [Fin 2; Fin 5; Fin 5; Fin 5]. split; reflexivity.
  - exists [Fin 3; Fin 5; Fin 5; Fin 5]. split; reflexivity.
Defined.

(* ------------------------------------------------------------------ *)
(** ** The first date of unaligned tables *)

(** C9, the claim as stated fails: [prices_early] starts at date 1,
    [positions_late] at date 2.  At the first date the period return of
    the instrument is 0, but the strategy return and the cumulative
    return are missing, not 0: the lagged positions and the turnover
    have no row at date 1, and the division by the number of open
    positions and the subtraction of the cost align on the union of the
    dates. *)
Lemma backtest_first_date_unaligned :
  hd_error (index prices_early) = Some 1%Z
  /\ hd_error (index positions_late) = Some 2%Z
  /\ (forall fm,
        hd_error (daily_ret fm prices_early) = Some (1%Z, [Fin 0])
        /\ hd_error (fst (backtest fm prices_early positions_late
                            default_cost_per_trade)) = Some (1%Z, NaN)
        /\ hd_error (snd (backtest fm prices_early positions_late
                            default_cost_per_trade)) = Some (1%Z, NaN)).
Proof.
  split; [reflexivity |]. split; [reflexivity |].
  intros fm. unfold prices_early, positions_late, cum_of, cumprod.
  destruct fm; eval_backtest; repeat split.
Qed.
